(** * openmdx: Markdown <-> TipTap conversion core

    A shallow embedding of the conversion engine of the editor:
    - [src/utils/markdownToTipTap.ts]   (scanner, classifier, converter),
    - [src/extensions/MermaidBlock.ts]  (HTML form of a diagram node),
    - the copy extension ([domToMarkdown]) and [src/hooks/useTabs.ts]
      ([htmlToMarkdown]), the two Markdown serializers,
    - [src/extensions/ClipboardTextParser.ts] (the paste handler).

    JavaScript strings are sequences of UTF-16 code units; a code unit is
    an [N].  Indices that the source keeps in [number]s are [Z]. *)

From Stdlib Require Import String Ascii.
From Stdlib Require Import List NArith ZArith Lia Bool.
From Stdlib Require DecimalString.
Import ListNotations.
Open Scope string_scope.
Open Scope list_scope.

(* ===================================================================== *)
(** * Part I: definitions                                                 *)
(* ===================================================================== *)

(** ** JavaScript strings and the built-ins the source calls *)

Module JS.

Abbreviation char := N.
Abbreviation str := (list N).

(** An ASCII literal as a JavaScript string. *)
Definition js (s : string) : str := map N_of_ascii (list_ascii_of_string s).

Definition nl : str := [10%N].

Definition char_eqb (a b : char) : bool := N.eqb a b.

Fixpoint str_eqb (a b : str) : bool :=
  match a, b with
  | [], [] => true
  | x :: a', y :: b' => char_eqb x y && str_eqb a' b'
  | _, _ => false
  end.

(** ECMAScript LineTerminator: LF, CR, LS, PS. *)
Definition is_line_terminator (c : char) : bool :=
  (c =? 10)%N || (c =? 13)%N || (c =? 8232)%N || (c =? 8233)%N.

(** ECMAScript WhiteSpace and LineTerminator code units: what
    [String.prototype.trim] strips and what the class [\s] matches. *)
Definition is_ws (c : char) : bool :=
  ((9 <=? c) && (c <=? 13))%N || (c =? 32)%N || (c =? 160)%N
  || (c =? 5760)%N || ((8192 <=? c) && (c <=? 8202))%N
  || (c =? 8232)%N || (c =? 8233)%N || (c =? 8239)%N || (c =? 8287)%N
  || (c =? 12288)%N || (c =? 65279)%N.

Fixpoint trimStart (s : str) : str :=
  match s with
  | [] => []
  | c :: s' => if is_ws c then trimStart s' else s
  end.

Definition trimEnd (s : str) : str := rev (trimStart (rev s)).

(** [s.trim()] *)
Definition trim (s : str) : str := trimEnd (trimStart s).

(** A text of white space only. *)
Definition blank (s : str) : bool := forallb is_ws s.

(** [s.startsWith(p)] *)
Fixpoint startsWith (p s : str) : bool :=
  match p, s with
  | [], _ => true
  | a :: p', b :: s' => char_eqb a b && startsWith p' s'
  | _ :: _, [] => false
  end.

(** [s.includes(p)] *)
Fixpoint includes (p s : str) : bool :=
  startsWith p s ||
  match s with
  | [] => false
  | _ :: s' => includes p s'
  end.

Definition cons_head (c : char) (l : list str) : list str :=
  match l with
  | [] => [[c]]
  | h :: t => (c :: h) :: t
  end.

(** [s.split(sep)] for a non-empty separator (the source only splits on
    the fence and on a newline): the separators are found left to right
    and do not overlap; [skip] counts the code units of a separator that
    is being stepped over. *)
Fixpoint split_from (sep : str) (skip : nat) (s : str) : list str :=
  match s with
  | [] => [[]]
  | c :: s' =>
      match skip with
      | S k => split_from sep k s'
      | O => if startsWith sep s
             then [] :: split_from sep (length sep - 1) s'
             else cons_head c (split_from sep O s')
      end
  end.

Definition split (sep s : str) : list str := split_from sep 0 s.

(** [parts.join(sep)] *)
Fixpoint join (sep : str) (l : list str) : str :=
  match l with
  | [] => []
  | [x] => x
  | x :: l' => x ++ sep ++ join sep l'
  end.

Definition clamp (lo hi x : Z) : Z := Z.max lo (Z.min hi x).

(** First index [>= pos] at which [p] occurs in [s], the text from
    offset [pos] on; [-1] when there is none. *)
Fixpoint find_at (p s : str) (pos : Z) : Z :=
  if startsWith p s then pos
  else match s with
       | [] => (-1)%Z
       | _ :: s' => find_at p s' (pos + 1)
       end.

(** [s.indexOf(p, from)] *)
Definition indexOf (p s : str) (from : Z) : Z :=
  let k := clamp 0 (Z.of_nat (length s)) from in
  find_at p (skipn (Z.to_nat k) s) k.

(** [s.substring(a, b)]: both ends clamped to [0, length], swapped when
    out of order. *)
Definition substring (s : str) (a b : Z) : str :=
  let len := Z.of_nat (length s) in
  let a' := clamp 0 len a in
  let b' := clamp 0 len b in
  let lo := Z.min a' b' in
  let hi := Z.max a' b' in
  firstn (Z.to_nat (hi - lo)) (skipn (Z.to_nat lo) s).

(** [s.substring(a)] *)
Definition substring_from (s : str) (a : Z) : str :=
  substring s a (Z.of_nat (length s)).

(** A template literal [`${n}`] for a non-negative integer. *)
Definition decimal (n : nat) : str :=
  js (DecimalString.NilEmpty.string_of_uint (Nat.to_uint n)).

(** [lines ["a"; "b"]] is the text ["a\nb"]. *)
Definition lines (l : list string) : str := join nl (map js l).

End JS.
Import JS.

(** ** Regular expressions

    The source only asks a regular expression whether it matches
    ([RegExp.prototype.test], none of its expressions carries the [g] or
    [y] flag, so [test] keeps no state between calls).  Whether a match
    exists is decided on the language of the expression, here with
    derivatives. *)

Module Regex.

Inductive regex : Type :=
| Fail : regex
| Eps : regex
| Chr : (char -> bool) -> regex
| Seq : regex -> regex -> regex
| Alt : regex -> regex -> regex
| Star : regex -> regex.

Fixpoint nullable (r : regex) : bool :=
  match r with
  | Fail => false
  | Eps => true
  | Chr _ => false
  | Seq a b => nullable a && nullable b
  | Alt a b => nullable a || nullable b
  | Star _ => true
  end.

Fixpoint deriv (c : char) (r : regex) : regex :=
  match r with
  | Fail => Fail
  | Eps => Fail
  | Chr p => if p c then Eps else Fail
  | Seq a b =>
      if nullable a then Alt (Seq (deriv c a) b) (deriv c b)
      else Seq (deriv c a) b
  | Alt a b => Alt (deriv c a) (deriv c b)
  | Star a => Seq (deriv c a) (Star a)
  end.

(** Some prefix of [s] is in the language of [r]. *)
Fixpoint matches_prefix (r : regex) (s : str) : bool :=
  nullable r ||
  match s with
  | [] => false
  | c :: s' => matches_prefix (deriv c r) s'
  end.

(** A regular expression literal: the body after an optional leading
    [^], and the [m] flag. *)
Record pattern : Type := Pattern {
  anchored : bool;
  multiline : bool;
  body : regex
}.

(** [bol] tells whether [^] holds at the current position. *)
Fixpoint search (p : pattern) (bol : bool) (s : str) : bool :=
  ((negb (anchored p) || bol) && matches_prefix (body p) s) ||
  match s with
  | [] => false
  | c :: s' => search p (multiline p && is_line_terminator c) s'
  end.

(** [p.test(s)] *)
Definition test (p : pattern) (s : str) : bool := search p true s.

(** *** Building blocks *)

Definition plus (r : regex) : regex := Seq r (Star r).
Definition opt (r : regex) : regex := Alt Eps r.
Definition one (c : string) : regex := Chr (fun x => str_eqb [x] (js c)).
Definition none_of (c : string) : regex :=
  Chr (fun x => negb (existsb (char_eqb x) (js c))).
Definition one_of (c : string) : regex :=
  Chr (fun x => existsb (char_eqb x) (js c)).

Fixpoint seq_chars (f : char -> regex) (s : str) : regex :=
  match s with
  | [] => Eps
  | c :: s' => Seq (f c) (seq_chars f s')
  end.

(** A literal, case-sensitive. *)
Definition lit (s : string) : regex :=
  seq_chars (fun c => Chr (char_eqb c)) (js s).

Definition upper (c : char) : char :=
  if ((97 <=? c) && (c <=? 122))%N then (c - 32)%N else c.

(** A literal under the [i] flag (without [u]): an ASCII letter matches
    its two cases and nothing else. *)
Definition lit_i (s : string) : regex :=
  seq_chars (fun c => Chr (fun x => char_eqb (upper x) (upper c))) (js s).

Definition ws : regex := Chr is_ws.                        (* \s *)
Definition digit : regex :=                                (* \d *)
  Chr (fun c => ((48 <=? c) && (c <=? 57))%N).
Definition is_word (c : char) : bool :=                    (* \w *)
  ((48 <=? c) && (c <=? 57))%N || ((65 <=? c) && (c <=? 90))%N
  || ((97 <=? c) && (c <=? 122))%N || (c =? 95)%N.
Definition dot : regex :=                                  (* . *)
  Chr (fun c => negb (is_line_terminator c)).

Fixpoint alts (l : list regex) : regex :=
  match l with
  | [] => Fail
  | [r] => r
  | r :: l' => Alt r (alts l')
  end.

Fixpoint seqs (l : list regex) : regex :=
  match l with
  | [] => Eps
  | [r] => r
  | r :: l' => Seq r (seqs l')
  end.

(** [r{1,n}] *)
Fixpoint upto (n : nat) (r : regex) : regex :=
  match n with
  | O => Fail
  | S O => r
  | S n' => Seq r (opt (upto n' r))
  end.

End Regex.
Import Regex.

(** ** The scanner and the classifier: [src/utils/markdownToTipTap.ts] *)

Definition fence : str := Eval vm_compute in js "```".
Definition backtick : char := 96%N.

(** [interface MermaidBlock] *)
Record MermaidBlock : Type := mkMermaidBlock {
  content : str;
  startIndex : Z;
  endIndex : Z;
  diagramType : str
}.

(** The table [typePatterns] of [detectDiagramType], in its order. *)
Definition typePatterns : list (pattern * str) :=
  [ (Pattern true true
       (seqs [lit_i "graph"; plus ws;
              alts [lit_i "TD"; lit_i "LR"; lit_i "RL"; lit_i "BT"]]),
     js "flowchart");
    (Pattern true true (seqs [lit_i "graph"; plus ws]), js "flowchart");
    (Pattern true true (lit_i "flowchart"), js "flowchart");
    (Pattern true true (lit_i "sequenceDiagram"), js "sequence");
    (Pattern true true (lit_i "classDiagram"), js "class");
    (Pattern true true (lit_i "stateDiagram"), js "state");
    (Pattern true true (lit_i "gantt"), js "gantt");
    (Pattern true true (lit_i "pie"), js "pie");
    (Pattern true true (lit_i "mindmap"), js "mindmap");
    (Pattern true true (lit_i "erDiagram"), js "er");
    (Pattern true true (lit_i "gitGraph"), js "git");
    (Pattern true true (lit_i "timeline"), js "timeline");
    (Pattern true true (lit_i "journey"), js "journey");
    (Pattern true true (lit_i "quadrantChart"), js "quadrant");
    (Pattern true true (lit_i "C4Context"), js "c4");
    (Pattern true true (lit_i "requirementDiagram"), js "requirement") ].

(** The loop [for (const { regex, type } of typePatterns)]. *)
Fixpoint first_match (ps : list (pattern * str)) (s : str) : option str :=
  match ps with
  | [] => None
  | (regex, type) :: ps' =>
      if test regex s then Some type else first_match ps' s
  end.

Definition detectDiagramType (content : str) : str :=
  match first_match typePatterns content with
  | Some type => type
  | None => js "flowchart"
  end.

(** [type MermaidDiagramType] of [src/utils/mermaidRenderer.ts]. *)
Definition MermaidDiagramType : list str :=
  map js [ "flowchart"; "sequence"; "class"; "state"; "gantt"; "pie";
           "mindmap"; "er"; "git"; "timeline"; "journey"; "quadrant";
           "c4"; "requirement" ].

(** The first loop of [extractMermaidBlocks]: the offsets of the fences,
    [n] iterations left, searching from [searchPos]. *)
Fixpoint fencePositions (text : str) (n : nat) (searchPos : Z) : list Z :=
  match n with
  | O => []
  | S n' =>
      let pos := indexOf fence text searchPos in
      if (pos =? -1)%Z then fencePositions text n' searchPos
      else pos :: fencePositions text n' (pos + 3)
  end.

(** [content.trim().split('\n')[0].trim()]; the array of a split is
    never empty ([split_not_nil] below), so [[0]] is defined. *)
Definition firstLine (content : str) : str :=
  trim (hd [] (split nl (trim content))).

Definition isMermaidTag (content : str) : bool :=
  str_eqb (firstLine content) (js "mermaid").

(** [lines.slice(1).join('\n').trim()] *)
Definition mermaidContentOf (content : str) : str :=
  trim (join nl (tl (split nl content))).

(** The second loop, at index [i], with [rest] the parts from [i + 1]
    on.  [positions[i]] is never out of range (the first loop finds every
    fence, see [fencePositions_exact] below); [positions[i + 1]] is, for
    the text after the last fence. *)
Fixpoint scanParts (text : str) (positions : list Z) (i : nat)
    (rest : list str) : list MermaidBlock :=
  match rest with
  | [] => []
  | content :: rest' =>
      let later := scanParts text positions (S i) rest' in
      if isMermaidTag content then
        let mermaidContent := mermaidContentOf content in
        let diagramType := detectDiagramType mermaidContent in
        let startIndex := nth i positions 0%Z in
        let endIndex :=
          match nth_error positions (i + 1) with
          | Some p => (p + 3)%Z
          | None => Z.of_nat (length text)
          end in
        mkMermaidBlock mermaidContent startIndex endIndex diagramType
          :: later
      else later
  end.

Definition extractMermaidBlocks (text : str) : list MermaidBlock :=
  let parts := split fence text in
  let positions := fencePositions text (length parts - 1) 0 in
  scanParts text positions 0 (tl parts).

(** Where the fences stand, computed from the parts: the fence after a
    part starts where the part ends, and takes three code units. *)
Fixpoint fenceOffsets (acc : Z) (parts : list str) : list Z :=
  match parts with
  | p :: (_ :: _) as rest =>
      (acc + Z.of_nat (length p))%Z
        :: fenceOffsets (acc + Z.of_nat (length p) + 3) rest
  | _ => []
  end.

(** The ten expressions of [hasMarkdownSyntax], all with the [m] flag. *)
Definition markdownPatterns : list pattern :=
  [ Pattern true true (seqs [upto 6 (one "#"); ws]);
    Pattern false true (seqs [lit "**"; plus (none_of "*"); lit "**"]);
    Pattern false true (seqs [lit "*"; plus (none_of "*"); lit "*"]);
    Pattern true true (seqs [one_of "-*+"; ws]);
    Pattern true true (seqs [plus digit; one "."; ws]);
    Pattern true true (seqs [one ">"; ws]);
    Pattern false true (seqs [lit "`"; plus (none_of "`"); lit "`"]);
    Pattern true true (lit "```");
    Pattern false true
      (seqs [one "["; Star dot; lit "]("; Star dot; one ")"]);
    Pattern true true (seqs [one "|"; Star dot; one "|"]) ].

Definition hasMarkdownSyntax (text : str) : bool :=
  existsb (fun p => test p text) markdownPatterns.

(** ** The DOM, as far as the serializers look at it *)

Module Dom.

(** A node is a text node, an element (its tag in lower case, as
    [el.tagName.toLowerCase()] gives it, its attributes, its child
    nodes), or a node of another type (a comment). *)
#[warnings="-register-all"]
Inductive Node : Type :=
| Text : str -> Node
| Elem : str -> list (str * str) -> list Node -> Node
| Comment : str -> Node.

Definition childNodes (n : Node) : list Node :=
  match n with
  | Elem _ _ kids => kids
  | _ => []
  end.

Definition tagName (n : Node) : str :=
  match n with
  | Elem tag _ _ => tag
  | _ => []
  end.

Definition isElement (tag : string) (n : Node) : bool :=
  match n with
  | Elem t _ _ => str_eqb t (js tag)
  | _ => false
  end.

(** [el.getAttribute(name) || ''] *)
Fixpoint getAttribute (name : str) (attrs : list (str * str)) : str :=
  match attrs with
  | [] => []
  | (k, v) :: attrs' => if str_eqb k name then v else getAttribute name attrs'
  end.

Definition className (n : Node) : str :=
  match n with
  | Elem _ attrs _ => getAttribute (js "class") attrs
  | _ => []
  end.

(** [node.textContent]: the text of the text nodes below, in order. *)
Fixpoint textContent (n : Node) : str :=
  match n with
  | Text t => t
  | Elem _ _ kids => concat (map textContent kids)
  | Comment _ => []
  end.

(** The nodes strictly below [n], in document order. *)
Fixpoint descendants (n : Node) : list Node :=
  match n with
  | Elem _ _ kids => flat_map (fun k => k :: descendants k) kids
  | _ => []
  end.

(** [el.querySelectorAll(tag)] and [el.querySelector(tag)] *)
Definition querySelectorAll (tags : list string) (el : Node) : list Node :=
  filter (fun n => existsb (fun t => isElement t n) tags) (descendants el).

Definition querySelector (tag : string) (el : Node) : option Node :=
  hd_error (querySelectorAll [tag] el).

(** [className.match(/language-(\w+)/)?.[1] || '']: at the first place
    where [language-] is followed by a word character, the longest run of
    word characters. *)
Fixpoint takeWord (s : str) : str :=
  match s with
  | c :: s' => if is_word c then c :: takeWord s' else []
  | [] => []
  end.

Fixpoint languageOf (cls : str) : str :=
  let after := skipn 9 cls in
  if startsWith (js "language-") cls && negb (str_eqb (takeWord after) [])
  then takeWord after
  else match cls with
       | [] => []
       | _ :: cls' => languageOf cls'
       end.

(** The [case] labels of the two [switch (tag)] statements. *)
Inductive TagCase : Type :=
| H (level : nat) | Strong | Em | Code | Pre | Blockquote | Ul | Ol | Li
| A | P | Hr | Br | Table | Default.

Definition tagCases : list (string * TagCase) :=
  [ ("h1", H 1); ("h2", H 2); ("h3", H 3); ("h4", H 4); ("h5", H 5);
    ("h6", H 6); ("strong", Strong); ("b", Strong); ("em", Em); ("i", Em);
    ("code", Code); ("pre", Pre); ("blockquote", Blockquote); ("ul", Ul);
    ("ol", Ol); ("li", Li); ("a", A); ("p", P); ("hr", Hr); ("br", Br);
    ("table", Table) ].

Fixpoint lookupCase (l : list (string * TagCase)) (tag : str) : TagCase :=
  match l with
  | [] => Default
  | (name, k) :: l' => if str_eqb tag (js name) then k else lookupCase l' tag
  end.

Definition tagCase (tag : str) : TagCase := lookupCase tagCases tag.

(** [forEach((x, idx) => ...)] collecting what each call appends. *)
Fixpoint mapi_from {X Y : Type} (f : nat -> X -> Y) (i : nat) (l : list X)
  : list Y :=
  match l with
  | [] => []
  | x :: l' => f i x :: mapi_from f (S i) l'
  end.

Definition mapi {X Y : Type} (f : nat -> X -> Y) (l : list X) : list Y :=
  mapi_from f 0 l.

(** The cells of a table row ([row.querySelectorAll('td, th')]), each
    [cell.textContent?.trim() || ''], and the line [| a | b |] of the
    row. *)
Definition rowCells (row : Node) : list str :=
  map (fun cell => trim (textContent cell))
      (querySelectorAll ["td"; "th"] row).

Definition rowLine (row : Node) : str :=
  js "| " ++ join (js " | ") (rowCells row) ++ js " |".

(** *** The copy path: [domToMarkdown] of the copy extension

    [emit parentTag node] is what one call of the [forEach] callback
    appends to [markdown] for the child [node] of an element whose tag is
    [parentTag]; [domToMarkdown element] is the concatenation over
    [element.childNodes]. *)
Fixpoint emit (parentTag : str) (node : Node) {struct node} : str :=
  match node with
  | Text t => t
  | Comment _ => []
  | Elem tag attrs kids =>
      let el := node in
      let inner := concat (map (emit tag) kids) in
      let items :=
        flat_map (fun li =>
          match li with
          | Elem t _ liKids =>
              if str_eqb t (js "li")
              then [trim (concat (map (emit t) liKids))] else []
          | _ => []
          end) kids in
      match tagCase tag with
      | H n => repeat 35%N n ++ js " " ++ textContent el ++ nl ++ nl
      | Strong => js "**" ++ textContent el ++ js "**"
      | Em => js "*" ++ textContent el ++ js "*"
      | Code =>
          let codeText := textContent el in
          if str_eqb parentTag (js "pre")
          then fence ++ nl ++ codeText ++ nl ++ fence ++ nl ++ nl
          else js "`" ++ codeText ++ js "`"
      | Pre =>
          match querySelector "code" el with
          | Some codeEl =>
              let lang := languageOf (className codeEl) in
              fence ++ lang ++ nl ++ textContent codeEl ++ nl ++ fence
                ++ nl ++ nl
          | None => fence ++ nl ++ textContent el ++ nl ++ fence ++ nl ++ nl
          end
      | Blockquote =>
          let quoteContent := trim inner in
          concat (map (fun line => js "> " ++ line ++ nl)
                      (split nl quoteContent)) ++ nl
      | Ul =>
          concat (map (fun liContent => js "- " ++ liContent ++ nl) items)
            ++ nl
      | Ol =>
          concat (mapi (fun idx liContent =>
                          decimal (idx + 1) ++ js ". " ++ liContent ++ nl)
                       items) ++ nl
      | Li => trim inner
      | A =>
          js "[" ++ textContent el ++ js "](" ++ getAttribute (js "href") attrs
            ++ js ")"
      | P =>
          let pContent := trim inner in
          if str_eqb pContent [] then [] else pContent ++ nl ++ nl
      | Hr => js "---" ++ nl ++ nl
      | Br => nl
      | Table =>
          let rows := querySelectorAll ["tr"] el in
          concat (mapi (fun idx row =>
                          rowLine row ++ nl ++
                          (if Nat.eqb idx 0
                           then js "| " ++
                                join (js " | ")
                                  (map (fun _ => js "---")
                                       (querySelectorAll ["td"; "th"] row))
                                ++ js " |" ++ nl
                           else []))
                       rows) ++ nl
      | Default => inner
      end
  end.

Definition domToMarkdown (element : Node) : str :=
  concat (map (emit (tagName element)) (childNodes element)).

(** *** The save path: [processNode] inside [htmlToMarkdown] of
    [src/hooks/useTabs.ts] *)
Fixpoint processNode (parentTag : str) (node : Node) {struct node} : str :=
  match node with
  | Text t => t
  | Comment _ => []
  | Elem tag attrs kids =>
      let el := node in
      let inner := concat (map (processNode tag) kids) in
      let items :=
        flat_map (fun li =>
          match li with
          | Elem t _ liKids =>
              if str_eqb t (js "li")
              then [trim (concat (map (processNode t) liKids))] else []
          | _ => []
          end) kids in
      match tagCase tag with
      | H n => repeat 35%N n ++ js " " ++ textContent el ++ nl ++ nl
      | Strong => js "**" ++ textContent el ++ js "**"
      | Em => js "*" ++ textContent el ++ js "*"
      | Code =>
          let text := textContent el in
          if str_eqb parentTag (js "pre")
          then fence ++ text ++ fence ++ nl ++ nl
          else js "`" ++ text ++ js "`"
      | Pre =>
          match querySelector "code" el with
          | Some codeEl =>
              let lang := languageOf (className codeEl) in
              fence ++ lang ++ nl ++ textContent codeEl ++ fence ++ nl ++ nl
          | None => fence ++ nl ++ textContent el ++ fence ++ nl ++ nl
          end
      | Blockquote =>
          let quoteContent := trim inner in
          join nl (map (fun line => js "> " ++ line) (split nl quoteContent))
            ++ nl ++ nl
      | Ul =>
          join nl (map (fun liContent => js "- " ++ liContent) items)
            ++ nl ++ nl
      | Ol =>
          join nl (mapi (fun idx liContent =>
                           decimal (idx + 1) ++ js ". " ++ liContent) items)
            ++ nl ++ nl
      | Li => trim inner
      | A =>
          js "[" ++ textContent el ++ js "](" ++ getAttribute (js "href") attrs
            ++ js ")"
      | P => trim inner ++ nl ++ nl
      | Hr => js "---" ++ nl ++ nl
      | Br => nl
      | Table =>
          join nl (map rowLine (querySelectorAll ["tr"] el)) ++ nl ++ nl
      | Default => inner
      end
  end.

(** [htmlToMarkdown], from the child nodes that [div.innerHTML = html]
    gave the temporary [div]. *)
Definition htmlToMarkdown (divChildNodes : list Node) : str :=
  trim (concat (map (processNode (js "div")) divChildNodes)).

(** *** The blockquote rule, in words

    [quoted inner] is the Markdown of a blockquote whose children
    serialize to [inner], as both serializers compute it: [inner] is
    trimmed, and every line of it, an empty one too, is prefixed. *)
Definition quoted (inner : str) : str :=
  join nl (map (fun line => js "> " ++ line) (split nl (trim inner)))
    ++ nl ++ nl.

(** The rule as the table of the specification words it: the children's
    serialization is split on newlines, each non-empty line is prefixed
    (an empty line is not), and a newline follows. *)
Definition quotedAsSpecified (inner : str) : str :=
  join nl (map (fun line => if str_eqb line [] then line
                            else js "> " ++ line)
               (split nl inner))
    ++ nl.

End Dom.
Import Dom.

(** ** Exceptions *)

(** A computation returns a value or throws. *)
Inductive Result (X : Type) : Type :=
| Ok : X -> Result X
| Throw : str -> Result X.
Arguments Ok {X} _.
Arguments Throw {X} _.

Definition bind {X Y : Type} (m : Result X) (k : X -> Result Y) : Result Y :=
  match m with
  | Ok x => k x
  | Throw e => Throw e
  end.

Notation "x <- m ;; k" := (bind m (fun x => k))
  (at level 61, m at next level, right associativity).

(** [xs.map(f)] when [f] can throw: the first exception ends the loop. *)
Fixpoint mapM {X Y : Type} (f : X -> Result Y) (l : list X)
  : Result (list Y) :=
  match l with
  | [] => Ok []
  | x :: l' => y <- f x ;; ys <- mapM f l' ;; Ok (y :: ys)
  end.

(** ** ProseMirror nodes and the services of the libraries *)

(** A document node: a text node, or a node of a type of the schema with
    its attributes and content. *)
#[warnings="-register-all"]
Inductive PMNode : Type :=
| PMText : str -> PMNode
| PMElem : str -> list (str * str) -> list PMNode -> PMNode.

(** What the converter and the adapters call and do not define:
    [marked], the HTML import [div.innerHTML = html] followed by
    [domParser.parseSlice(div)], and the DOM form that the schema's
    [DOMSerializer] gives the nodes of the other extensions. *)
Record External : Type := mkExternal {
  marked : str -> Result str;
  parseSlice : str -> Result (list PMNode);
  renderOther : PMNode -> Dom.Node
}.

(** ** [MermaidBlock.renderHTML]: [src/extensions/MermaidBlock.ts] *)

Definition MermaidBlock_renderHTML (attrs : list (str * str))
    (contentDOM : list Dom.Node) : Dom.Node :=
  Elem (js "div")
    [ (js "data-type", js "mermaid-block");
      (js "data-diagram-type", getAttribute (js "diagramType") attrs);
      (js "data-view-mode", getAttribute (js "viewMode") attrs);
      (js "data-theme", getAttribute (js "theme") attrs);
      (js "class", js "mermaid-block") ]
    [ Elem (js "pre") [ (js "class", js "mermaid-source") ]
        [ Elem (js "code") [ (js "class", js "language-mermaid") ]
            contentDOM ] ].

(** [schema.text(text)]: a text node; the schema refuses the empty
    string and throws a [RangeError]. *)
Definition emptyTextNode : str :=
  js "RangeError: Empty text nodes are not allowed".

Definition schema_text (text : str) : Result PMNode :=
  match text with
  | [] => Throw emptyTextNode
  | _ :: _ => Ok (PMText text)
  end.

(** The diagram node of a segment, as
    [schema.nodes.mermaidBlock.create(attrs, [schema.text(content)])]
    builds it when [schema.text] returns. *)
Definition mermaidNode (block : MermaidBlock) : PMNode :=
  PMElem (js "mermaidBlock")
    [ (js "diagramType", diagramType block);
      (js "viewMode", js "preview");
      (js "theme", js "default") ]
    [ PMText (content block) ].

(** [schema.nodes.mermaidBlock.create({ diagramType: block.diagramType,
    viewMode: 'preview', theme: 'default' }, [schema.text(block.content)])]:
    the argument [schema.text(block.content)] is evaluated first, and
    its exception, for a segment with empty content, is the exception
    of the whole. *)
Definition createMermaidNode (block : MermaidBlock) : Result PMNode :=
  textNode <- schema_text (content block) ;;
  Ok (PMElem (js "mermaidBlock")
        [ (js "diagramType", diagramType block);
          (js "viewMode", js "preview");
          (js "theme", js "default") ]
        [ textNode ]).

(** [schema.nodes.paragraph.create()] *)
Definition paraNode : PMNode := PMElem (js "paragraph") [] [].

Section WithExternal.

Variable ext : External.

(** [DOMSerializer.serializeFragment]: a diagram node by its own
    [renderHTML], a text node as a DOM text node, the rest by the other
    extensions. *)
Fixpoint toDOM (n : PMNode) : Dom.Node :=
  match n with
  | PMText t => Text t
  | PMElem type attrs kids =>
      if str_eqb type (js "mermaidBlock")
      then MermaidBlock_renderHTML attrs (map toDOM kids)
      else renderOther ext n
  end.

(** The Markdown the copy handler computes for a list of nodes, before
    its final [trim]: [domToMarkdown(div)] on the [div] that holds the
    serialized fragment. *)
Definition copyMarkdown (nodes : list PMNode) : str :=
  domToMarkdown (Elem (js "div") [] (map toDOM nodes)).

(** ** The converter: [src/utils/markdownToTipTap.ts] *)

(** The six tests of [hasBlockSyntax], none with a flag. *)
Definition blockPatterns : list pattern :=
  [ Pattern true false (seqs [upto 6 (one "#"); ws]);
    Pattern true false (seqs [Star ws; one_of "-*+"; ws]);
    Pattern true false (seqs [Star ws; plus digit; one "."; ws]);
    Pattern true false (seqs [Star ws; one ">"; ws]);
    Pattern true false (seqs [Star ws; lit "```"]);
    Pattern true false (seqs [Star ws; one "|"; Star dot; one "|"]) ].

Definition nonBlankLines (text : str) : list str :=
  filter (fun line => negb (str_eqb (trim line) [])) (split nl text).

Definition hasBlockSyntax (lines : list str) : bool :=
  existsb (fun line => existsb (fun p => test p line) blockPatterns) lines.

Definition convertMarkdownToHTML (markdownText : str) : Result str :=
  let lines := nonBlankLines markdownText in
  let hasMultipleLines := Nat.ltb 1 (length lines) in
  if hasMultipleLines && negb (hasBlockSyntax lines)
  then htmls <- mapM (marked ext) lines ;; Ok (concat htmls)
  else marked ext markdownText.

(** The four lines that the converter repeats three times: Markdown to
    HTML, HTML into a [div], [parseSlice], the nodes of the slice. *)
Definition standardNodes (text : str) : Result (list PMNode) :=
  html <- convertMarkdownToHTML text ;;
  parseSlice ext html.

(** [if (text.trim()) { ...standardNodes... }] *)
Definition standardNodesIfNonBlank (text : str) : Result (list PMNode) :=
  if str_eqb (trim text) [] then Ok [] else standardNodes text.

(** The [for] loop of [convertMarkdownToTipTapNodes] at index [i] of the
    [n] blocks, [blocks] being the ones from [i] on, followed by the code
    after the loop; the result is what is pushed on [contentNodes] from
    there on. *)
Fixpoint convertFrom (markdownText : str) (n i : nat)
    (blocks : list MermaidBlock) (lastIndex : Z) : Result (list PMNode) :=
  let len := Z.of_nat (length markdownText) in
  match blocks with
  | [] =>
      if (lastIndex <? len)%Z
      then standardNodesIfNonBlank (substring_from markdownText lastIndex)
      else Ok []
  | block :: blocks' =>
      before <-
        (if (startIndex block >? lastIndex)%Z
         then standardNodesIfNonBlank
                (substring markdownText lastIndex (startIndex block))
         else Ok []) ;;
      mermaidNode <- createMermaidNode block ;;
      let separator :=
        if Nat.ltb i (n - 1) || (endIndex block <? len)%Z
        then [paraNode] else [] in
      later <- convertFrom markdownText n (S i) blocks' (endIndex block) ;;
      Ok (before ++ [mermaidNode] ++ separator ++ later)
  end.

Definition convertMarkdownToTipTapNodes (markdownText : str)
  : Result (list PMNode) :=
  let mermaidBlocks := extractMermaidBlocks markdownText in
  if Nat.eqb (length mermaidBlocks) 0
  then standardNodes markdownText
  else convertFrom markdownText (length mermaidBlocks) 0 mermaidBlocks 0.

(** The texts that [convertFrom] hands to the standard converter, in
    order. *)
Definition nonBlank (text : str) : list str :=
  if str_eqb (trim text) [] then [] else [text].

Fixpoint delegatedFrom (markdownText : str) (blocks : list MermaidBlock)
    (lastIndex : Z) : list str :=
  let len := Z.of_nat (length markdownText) in
  match blocks with
  | [] =>
      if (lastIndex <? len)%Z
      then nonBlank (substring_from markdownText lastIndex) else []
  | block :: blocks' =>
      (if (startIndex block >? lastIndex)%Z
       then nonBlank (substring markdownText lastIndex (startIndex block))
       else [])
      ++ delegatedFrom markdownText blocks' (endIndex block)
  end.

Definition delegated (markdownText : str) : list str :=
  delegatedFrom markdownText (extractMermaidBlocks markdownText) 0.

(** The texts around the segments, with the tests of [convertFrom]: one
    before each segment and one behind the last, empty where the
    converter has nothing to convert. *)
Fixpoint spansFrom (markdownText : str) (blocks : list MermaidBlock)
    (lastIndex : Z) : list str :=
  let len := Z.of_nat (length markdownText) in
  match blocks with
  | [] =>
      [ if (lastIndex <? len)%Z
        then substring_from markdownText lastIndex else [] ]
  | block :: blocks' =>
      (if (startIndex block >? lastIndex)%Z
       then substring markdownText lastIndex (startIndex block) else [])
      :: spansFrom markdownText blocks' (endIndex block)
  end.

Definition spans (markdownText : str) : list str :=
  spansFrom markdownText (extractMermaidBlocks markdownText) 0.

(** The Markdown that the copy path writes for the nodes that the
    converter makes of such a text. *)
Definition spanMarkdown (x : str) : Result str :=
  nodes <- standardNodesIfNonBlank x ;;
  Ok (copyMarkdown nodes).

(** ** The paste handler: [src/extensions/ClipboardTextParser.ts] *)

(** What the handler can change: the event ([preventDefault]), the
    editor (the transactions dispatched to the view) and the console. *)
Record World : Type := mkWorld {
  defaultPrevented : bool;
  dispatched : list (list PMNode);
  consoleErrors : list str
}.

Definition preventDefault (w : World) : World :=
  mkWorld true (dispatched w) (consoleErrors w).

(** [view.dispatch(view.state.tr.replaceSelection(slice))] *)
Definition dispatchReplaceSelection (slice : list PMNode) (w : World)
  : World :=
  mkWorld (defaultPrevented w) (dispatched w ++ [slice]) (consoleErrors w).

Definition consoleError (e : str) (w : World) : World :=
  mkWorld (defaultPrevented w) (dispatched w) (consoleErrors w ++ [e]).

(** Lines 51 to 81, the conversion step inside the [try]: [marked] on
    the whole text first, then line by line for several lines without
    block syntax, then the import of the HTML. *)
Definition pasteConversion (text : str) : Result (list PMNode) :=
  html <- marked ext text ;;
  let lines := nonBlankLines text in
  let hasMultipleLines := Nat.ltb 1 (length lines) in
  html' <-
    (if hasMultipleLines && negb (hasBlockSyntax lines)
     then htmls <- mapM (marked ext) lines ;; Ok (concat htmls)
     else Ok html) ;;
  parseSlice ext html'.

(** [handlePaste(view, event)], with [text] what
    [event.clipboardData?.getData('text/plain')] returns ([None] for
    [undefined]); the result is the handler's boolean and the world after
    it. *)
Definition tryBody (text : str) (w : World) : Result (bool * World) :=
  slice <- pasteConversion text ;;
  Ok (true, dispatchReplaceSelection slice w).

Definition handlePaste (text : option str) (w : World) : bool * World :=
  match text with
  | None => (false, w)
  | Some [] => (false, w)
  | Some text =>
      if negb (hasMarkdownSyntax text) then (false, w)
      else
        let w1 := preventDefault w in
        match tryBody text w1 with
        | Ok r => r
        | Throw error => (false, consoleError error w1)
        end
  end.

(** Modelled from the spec: the host of the handler, which is the
    editor library and not code of the repository.  The handler is the
    [handlePaste] prop of a plugin; the spec has it that a paste the
    handler reports as not handled is left to the host, whose default
    plain-text paste applies.  [plainTextSlice] is what the host makes
    of the clipboard text; its paste is a transaction of the editor, so
    the [preventDefault] of the handler, which concerns the browser,
    does not stop it.  Without a text on the clipboard the host has
    nothing to paste. *)
Definition hostPaste (plainTextSlice : str -> list PMNode)
    (text : option str) (w : World) : World :=
  let (handled, w') := handlePaste text w in
  if handled then w'
  else match text with
       | Some (c :: t) => dispatchReplaceSelection (plainTextSlice (c :: t)) w'
       | _ => w'
       end.

End WithExternal.

(** ** Notions for the round trip *)

(** The Markdown of a diagram node with source text [c]. *)
Definition fenced (c : str) : str :=
  fence ++ js "mermaid" ++ nl ++ c ++ nl ++ fence ++ nl ++ nl.

(** What stands between the two fences of [fenced c]. *)
Definition tagged (c : str) : str := js "mermaid" ++ nl ++ c ++ nl.

(** Diagram blocks with the texts [us] after them. *)
Fixpoint weave (cs us : list str) : str :=
  match cs, us with
  | c :: cs', u :: us' => fenced c ++ u ++ weave cs' us'
  | _, _ => []
  end.

Definition noBacktick (u : str) : bool :=
  forallb (fun c => negb (char_eqb backtick c)) u.

(** None of the parts has the tag as its first non-blank line. *)
Definition tagFree (parts : list str) : bool :=
  forallb (fun p => negb (isMermaidTag p)) parts.

(** The Markdown [g] holds no part that the scanner would take for a
    diagram when [g] stands behind a delimiter: no part between its
    delimiters, before the first or behind the last is tagged. *)
Definition untagged (g : str) : bool := tagFree (split fence g).

(** The same when [g] stands at the start of the text, where the
    scanner does not test what precedes the first delimiter. *)
Definition untaggedLeading (g : str) : bool :=
  tagFree (tl (split fence g)).

(** The Markdown written for the texts around the segments, the first
    one leading: none holds a part that scans as a diagram. *)
Definition gapsUntagged (gs : list str) : bool :=
  match gs with
  | [] => true
  | g :: gs' => untaggedLeading g && forallb untagged gs'
  end.

(** [g] can stand before a delimiter: what follows the last delimiter of
    [g] does not end in backticks that would form a delimiter with the
    first backticks of the next one, at an earlier place. *)
Definition openEnded (g : str) : bool :=
  negb (includes fence (last (split fence g) [] ++ removelast fence)).

(** The number of parts that scan as a diagram in the Markdown written
    for the texts behind the segments. *)
Fixpoint taggedBehind (gs : list str) : nat :=
  match gs with
  | [] => 0
  | g :: gs' => length (filter isMermaidTag (split fence g)) + taggedBehind gs'
  end.

(** The parts into which the delimiters cut [weave cs gs]. *)
Fixpoint weaveParts (cs gs : list str) : list str :=
  match cs, gs with
  | c :: cs', g :: gs' =>
      tagged c :: split fence (nl ++ nl ++ g) ++ weaveParts cs' gs'
  | _, _ => []
  end.

(** ** A stand-in for the libraries, for the examples

    Of Markdown it knows, line by line, the heading [# ...], the fenced
    code block written with tildes ([~~~lang], the code, [~~~]) and the
    one-line paragraph.  [marked] hands the text on, ended by a newline,
    and the import reads the blocks.  The nodes are rendered as the
    extensions of the editor render them: [<h1>], [<pre><code
    class="language-lang">] and [<p>]. *)

Definition toyCodeBlock (lang : str) (code : list str) : PMNode :=
  PMElem (js "codeBlock") [ (js "language", lang) ]
    [ PMText (concat (map (fun l => l ++ nl) code)) ].

Fixpoint toyBlocks (code : option (str * list str)) (ls : list str)
  : list PMNode :=
  match ls with
  | [] =>
      match code with
      | Some (lang, acc) => [toyCodeBlock lang (rev acc)]
      | None => []
      end
  | l :: ls' =>
      match code with
      | Some (lang, acc) =>
          if str_eqb l (js "~~~")
          then toyCodeBlock lang (rev acc) :: toyBlocks None ls'
          else toyBlocks (Some (lang, l :: acc)) ls'
      | None =>
          if startsWith (js "~~~") l
          then toyBlocks (Some (skipn 3 l, [])) ls'
          else if startsWith (js "# ") l
          then PMElem (js "heading") [] [PMText (skipn 2 l)]
                 :: toyBlocks None ls'
          else if str_eqb (trim l) [] then toyBlocks None ls'
          else PMElem (js "paragraph") [] [PMText (trim l)]
                 :: toyBlocks None ls'
      end
  end.

Definition toyParseSlice (html : str) : Result (list PMNode) :=
  Ok (toyBlocks None (split nl html)).

Definition toyRender (n : PMNode) : Dom.Node :=
  match n with
  | PMText t => Text t
  | PMElem type attrs kids =>
      let kidsDOM :=
        map (fun k => match k with PMText t => Text t | _ => Comment [] end)
            kids in
      if str_eqb type (js "codeBlock")
      then Elem (js "pre") []
             [ Elem (js "code")
                 [ (js "class",
                    js "language-" ++ getAttribute (js "language") attrs) ]
                 kidsDOM ]
      else if str_eqb type (js "heading")
      then Elem (js "h1") [] kidsDOM
      else Elem (js "p") [] kidsDOM
  end.

Definition toyExternal : External :=
  mkExternal (fun text => Ok (text ++ nl)) toyParseSlice toyRender.

(** A [marked] that throws. *)
Definition failingExternal : External :=
  mkExternal (fun _ => Throw (js "marked failed")) toyParseSlice toyRender.

(** A stand-in that shows what reaches the import: [marked] makes one
    paragraph of the text it is given, as it does of lines of plain
    text, and the import returns one node that holds the HTML it was
    given. *)
Definition probeExternal : External :=
  mkExternal (fun text => Ok (js "<p>" ++ text ++ js "</p>" ++ nl))
             (fun html => Ok [PMElem (js "html") [] [PMText html]])
             toyRender.

(* ===================================================================== *)
(** * Part I, continued: the rest of the code                             *)
(* ===================================================================== *)

From Stdlib Require Import Sorted.

(** ** What a segment of the scanner covers *)

(** The segment [b] of [text] starts at a fence delimiter, [w] is what
    follows that delimiter up to the next one, or up to the end of the
    text when there is none, and the segment ends behind that next
    delimiter, or at the end of the text. *)
Definition delimited (text : str) (b : MermaidBlock) : Prop :=
  exists u w v,
    text = u ++ fence ++ w ++ v /\
    startIndex b = Z.of_nat (length u) /\
    isMermaidTag w = true /\
    content b = mermaidContentOf w /\
    ((v = [] /\ includes fence w = false /\
      endIndex b = Z.of_nat (length text))
     \/
     (exists v', v = fence ++ v' /\
        includes fence (w ++ removelast fence) = false /\
        endIndex b = Z.of_nat (length u + 3 + length w + 3))).

(** Two segments in the order of the result: the second starts behind
    the start of the first, and the first ends at most three code units,
    one delimiter, behind the start of the second. *)
Definition precedes (b1 b2 : MermaidBlock) : Prop :=
  (startIndex b1 < startIndex b2)%Z /\
  (endIndex b1 <= startIndex b2 + 3)%Z.

(** ** The language of a regular expression *)

(** [Matches r w]: the word [w] is in the language of [r]. *)
Inductive Matches : regex -> str -> Prop :=
| MEps : Matches Eps []
| MChr (p : char -> bool) (c : char) : p c = true -> Matches (Chr p) [c]
| MSeq (a b : regex) (u v : str) :
    Matches a u -> Matches b v -> Matches (Seq a b) (u ++ v)
| MAltL (a b : regex) (u : str) : Matches a u -> Matches (Alt a b) u
| MAltR (a b : regex) (u : str) : Matches b u -> Matches (Alt a b) u
| MStarNil (a : regex) : Matches (Star a) []
| MStarApp (a : regex) (u v : str) :
    Matches a u -> Matches (Star a) v -> Matches (Star a) (u ++ v).

(** [Needs K r]: every word of [r] has a code unit of the class [K]. *)
Inductive Needs (K : char -> bool) : regex -> Prop :=
| NFail : Needs K Fail
| NChr (p : char -> bool) :
    (forall c, p c = true -> K c = true) -> Needs K (Chr p)
| NSeqL (a b : regex) : Needs K a -> Needs K (Seq a b)
| NSeqR (a b : regex) : Needs K b -> Needs K (Seq a b)
| NAlt (a b : regex) : Needs K a -> Needs K b -> Needs K (Alt a b).

(** The whole of [s] is in the language of [r], and: some suffix of [s]
    is (a match that ends at the end of the input). *)
Fixpoint matches_exact (r : regex) (s : str) : bool :=
  match s with
  | [] => nullable r
  | c :: s' => matches_exact (deriv c r) s'
  end.

Fixpoint search_exact (r : regex) (s : str) : bool :=
  matches_exact r s ||
  match s with
  | [] => false
  | _ :: s' => search_exact r s'
  end.

(** ** [hasMermaidBlocks]: [src/utils/markdownToTipTap.ts] *)

Definition chr (c : char) : regex := Chr (char_eqb c).
Definition anyChar : regex := Chr (fun _ => true).   (* [.] with the [s] flag *)

(** [```mermaid\r?\n(.*?)\r?\n```], the expression up to its last
    group; a lazy quantifier matches what a greedy one matches. *)
Definition mermaidFence : regex :=
  seqs [ lit "```mermaid"; opt (chr 13); chr 10; Star anyChar;
         opt (chr 13); chr 10; lit "```" ].

(** [/```mermaid\r?\n(.*?)\r?\n```(?:\r?\n|$)/gs.test(text)]: the
    expression is created by each call, so the search starts at index 0;
    it has no [m] flag, so [$] is the end of the text.  A match ends with
    a line break, or it ends where the text ends. *)
Definition hasMermaidBlocks (text : str) : bool :=
  test (Pattern false false (Seq mermaidFence (Seq (opt (chr 13)) (chr 10))))
       text
  || search_exact mermaidFence text.

(** The code units one of which every expression of [hasMarkdownSyntax]
    asks for. *)
Definition markupChar (c : char) : bool :=
  existsb (char_eqb c) (js "#*-+.>`[|").

(** ** The copy handler: [MarkdownCopy], the copy extension *)

(** What the handler writes: the event ([preventDefault]) and the two
    entries of the clipboard. *)
Record CopyWorld : Type := mkCopyWorld {
  copyPrevented : bool;
  textPlain : option str;
  textHtml : option str
}.

(** [copy: (view, event) => ...], with [selection] the selection of the
    state ([None] when there is none; else whether it is empty, and the
    nodes of [state.doc.slice(from, to).content]), [hasClipboard] whether
    [event.clipboardData] is there, and [innerHTML] the HTML of a list of
    DOM nodes ([div.innerHTML]).  In the model the serialization does not
    throw, so the [catch] is not entered. *)
Definition handleCopy (ext : External) (innerHTML : list Dom.Node -> str)
    (selection : option (bool * list PMNode)) (hasClipboard : bool)
    (w : CopyWorld) : bool * CopyWorld :=
  match selection with
  | None => (false, w)
  | Some (true, _) => (false, w)
  | Some (false, nodes) =>
      let markdown := trim (copyMarkdown ext nodes) in
      let html := innerHTML (map (toDOM ext) nodes) in
      (true,
       if hasClipboard
       then mkCopyWorld true (Some markdown) (Some html)
       else mkCopyWorld true (textPlain w) (textHtml w))
  end.

(** [subsequence l m]: the elements of [l] stand in [m], in the order
    of [l]. *)
Inductive subsequence {X : Type} : list X -> list X -> Prop :=
| subsequence_nil (m : list X) : subsequence [] m
| subsequence_skip (x : X) (l m : list X) :
    subsequence l m -> subsequence l (x :: m)
| subsequence_take (x : X) (l m : list X) :
    subsequence l m -> subsequence (x :: l) (x :: m).

(** The number of backticks of a string. *)
Definition ticks (s : str) : nat := count_occ N.eq_dec s backtick.

(** ** Where the two serializers part

    The places where [domToMarkdown] and [processNode] are written
    differently: a code block ([pre], and [code] right below one), a
    table, a list without items, and a paragraph whose content trims to
    nothing.  [alike parentTag node] says that [node], a child of an
    element [parentTag], has none of them, itself and below. *)
Fixpoint alike (parentTag : str) (node : Dom.Node) {struct node} : bool :=
  match node with
  | Elem tag _ kids =>
      forallb (alike tag) kids &&
      match tagCase tag with
      | Pre | Table => false
      | Code => negb (str_eqb parentTag (js "pre"))
      | Ul | Ol => existsb (isElement "li") kids
      | P => negb (str_eqb
                     (trim (concat (map (processNode tag) kids))) [])
      | _ => true
      end
  | _ => true
  end.

(** ** [MermaidBlock.parseHTML]: [src/extensions/MermaidBlock.ts] *)

(** [x || d] on strings: the empty string (and [null]: [getAttribute]
    above gives the empty string for a missing attribute) yields [d]. *)
Definition orElse (x d : str) : str :=
  match x with
  | [] => d
  | _ :: _ => x
  end.

(** The rule [div[data-type="mermaid-block"]] and its [getAttrs]:
    [None] when the rule does not match the node. *)
Definition MermaidBlock_parseHTML (el : Dom.Node)
  : option (list (str * str)) :=
  match el with
  | Elem tag attrs _ =>
      if str_eqb tag (js "div")
         && str_eqb (getAttribute (js "data-type") attrs) (js "mermaid-block")
      then Some
        [ (js "diagramType",
           orElse (getAttribute (js "data-diagram-type") attrs)
                  (js "flowchart"));
          (js "viewMode",
           orElse (getAttribute (js "data-view-mode") attrs) (js "source"));
          (js "theme",
           orElse (getAttribute (js "data-theme") attrs) (js "default")) ]
      else None
  | _ => None
  end.

(** ** File names: [src/utils/fileUtils.ts] *)

(** The literal ['未命名'], in UTF-16 code units. *)
Definition unnamed : str := [26410%N; 21629%N; 21517%N].

(** [s.split(/[/\\]/)], and in general a split at every code unit of a
    class: the pieces between them, in order. *)
Fixpoint splitWhere (p : char -> bool) (s : str) : list str :=
  match s with
  | [] => [[]]
  | c :: s' =>
      if p c then [] :: splitWhere p s'
      else match splitWhere p s' with
           | [] => [[c]]
           | piece :: pieces => (c :: piece) :: pieces
           end
  end.

Definition isPathSeparator (c : char) : bool :=
  char_eqb c 47 || char_eqb c 92.

(** A string without slash and backslash. *)
Definition noSeparator (s : str) : bool :=
  forallb (fun c => negb (isPathSeparator c)) s.

(** [filePath.split(/[/\\]/).pop() || '未命名'], as it stands in
    [extractFileName] and twice in [useTabs]. *)
Definition fileNameOf (filePath : str) : str :=
  orElse (last (splitWhere isPathSeparator filePath) []) unnamed.

(** [extractFileName(filePath)], [None] being [null]. *)
Definition extractFileName (filePath : option str) : str :=
  match filePath with
  | None => unnamed
  | Some [] => unnamed
  | Some p => fileNameOf p
  end.

(** [fileName.lastIndexOf('.')], [-1] when there is none. *)
Fixpoint lastIndexOfChar (c : char) (s : str) : Z :=
  match s with
  | [] => -1
  | x :: s' =>
      let later := lastIndexOfChar c s' in
      if (later =? -1)%Z
      then (if char_eqb x c then 0 else -1)
      else later + 1
  end.

(** [s.slice(i)] for an index that is not negative. *)
Definition slice_from (s : str) (i : Z) : str := skipn (Z.to_nat i) s.

Definition parseFileExtension (fileName : str) : str :=
  let lastDotIndex := lastIndexOfChar 46 fileName in
  if negb (lastDotIndex =? -1)%Z then slice_from fileName lastDotIndex
  else [].

(** ** The tabs: [src/hooks/useTabs.ts]

    The two state variables of the hook and the calls of [onTabChange],
    in order.  A handler reads the state of the render it was made in
    and queues its updates; here each handler runs on the current state
    and returns the state after its updates.  The handlers that wait for
    a file dialog are not modelled beyond the [createNewTab] they end
    with. *)
Module Tabs.

Record Tab : Type := mkTab {
  id : str;
  title : str;
  path : option str;
  content : str;
  isModified : bool
}.

Record State : Type := mkState {
  tabs : list Tab;
  activeTabId : str;
  tabChanges : list Tab
}.

(** [useState<Tab[]>([])] and [useState<string>('')] *)
Definition initial : State := mkState [] [] [].

Definition hasId (tabId : str) (tab : Tab) : bool := str_eqb (id tab) tabId.

(** [tabs.find(tab => tab.id === activeTabId)] *)
Definition activeTab (s : State) : option Tab :=
  find (hasId (activeTabId s)) (tabs s).

(** [createNewTab(title, content, path)], [now] being
    [Date.now().toString()]. *)
Definition createNewTab (now title content : str) (path : option str)
    (s : State) : Tab * State :=
  let newTab := mkTab now title path content false in
  (newTab,
   mkState (tabs s ++ [newTab]) (id newTab) (tabChanges s ++ [newTab])).

(** [prev.map(tab => ...)] with the calls of [onTabChange] made on the
    way; [seenActive] is the [activeTabId] of the render the callback
    was made in. *)
Definition updateWhere (seenActive tabId : str) (update : Tab -> Tab)
    (s : State) : State :=
  mkState
    (map (fun tab => if hasId tabId tab then update tab else tab) (tabs s))
    (activeTabId s)
    (tabChanges s ++
       flat_map (fun tab =>
                   if hasId tabId tab && str_eqb tabId seenActive
                   then [update tab] else [])
                (tabs s)).

Definition updateTabContent (seenActive tabId content : str) (s : State)
  : State :=
  updateWhere seenActive tabId
    (fun tab => mkTab (id tab) (title tab) (path tab) content true) s.

(** [{ ...tab, isModified: false, ...(path && { path }) }] *)
Definition markTabSaved (seenActive tabId : str) (newPath : option str)
    (s : State) : State :=
  updateWhere seenActive tabId
    (fun tab =>
       mkTab (id tab) (title tab)
         (match newPath with
          | Some (c :: p) => Some (c :: p)
          | _ => path tab
          end)
         (content tab) false) s.

(** [activeTab && activeTab.isModified], and then the answer [confirm]
    of [confirmUnsavedChanges]: whether the handler gives up. *)
Definition declined (tab : option Tab) (confirm : bool) : bool :=
  match tab with
  | Some t => isModified t && negb confirm
  | None => false
  end.

(** [handleNewFile()], [untitled] being [t.app.untitled]. *)
Definition handleNewFile (confirm : bool) (now untitled : str) (s : State)
  : State :=
  if declined (activeTab s) confirm then s
  else snd (createNewTab now (orElse untitled unnamed) [] None s).

(** [tabs.findIndex(...)], [-1] when there is none. *)
Fixpoint findIndex {X : Type} (p : X -> bool) (l : list X) : Z :=
  match l with
  | [] => -1
  | x :: l' =>
      if p x then 0
      else let later := findIndex p l' in
           if (later =? -1)%Z then -1 else later + 1
  end.

(** [l[i]] *)
Definition at_index {X : Type} (l : list X) (i : Z) : option X :=
  if (i <? 0)%Z then None else nth_error l (Z.to_nat i).

(** [handleCloseTab(tabId)] *)
Definition handleCloseTab (confirm : bool) (now untitled tabId : str)
    (s : State) : State :=
  match find (hasId tabId) (tabs s) with
  | None => s
  | Some tab =>
      if declined (Some tab) confirm then s
      else
        let newTabs := filter (fun t => negb (hasId tabId t)) (tabs s) in
        if str_eqb tabId (activeTabId s) then
          match newTabs with
          | first :: _ =>
              let currentIndex := findIndex (hasId tabId) (tabs s) in
              let nextTab :=
                match at_index newTabs currentIndex with
                | Some t => t
                | None => last newTabs first
                end in
              mkState newTabs (id nextTab) (tabChanges s ++ [nextTab])
          | [] =>
              let (newTab, s1) :=
                createNewTab now (orElse untitled unnamed) [] None s in
              mkState (tabs s1) (id newTab) (tabChanges s1 ++ [newTab])
          end
        else mkState newTabs (activeTabId s) (tabChanges s)
  end.

(** [handleTabClick(tabId)] *)
Definition handleTabClick (tabId : str) (s : State) : State :=
  match find (hasId tabId) (tabs s) with
  | Some tab => mkState (tabs s) tabId (tabChanges s ++ [tab])
  | None => s
  end.

(** What can happen to the tabs, with what the handler gets from
    outside: the answer to the question about unsaved changes, the
    clock and the translated title.  [Created] is the [createNewTab]
    that ends the opening of a file, [MarkSaved] the [markTabSaved] that
    ends a save, made in an earlier render. *)
Inductive Event : Type :=
| NewFile (confirm : bool) (now untitled : str)
| Created (now title content : str) (path : option str)
| CloseTab (confirm : bool) (now untitled tabId : str)
| TabClick (tabId : str)
| UpdateContent (tabId content : str)
| MarkSaved (seenActive tabId : str) (newPath : option str).

Definition step (s : State) (e : Event) : State :=
  match e with
  | NewFile confirm now untitled => handleNewFile confirm now untitled s
  | Created now title content path =>
      snd (createNewTab now title content path s)
  | CloseTab confirm now untitled tabId =>
      handleCloseTab confirm now untitled tabId s
  | TabClick tabId => handleTabClick tabId s
  | UpdateContent tabId content =>
      updateTabContent (activeTabId s) tabId content s
  | MarkSaved seenActive tabId newPath =>
      markTabSaved seenActive tabId newPath s
  end.

Definition run (events : list Event) : State := fold_left step events initial.

(** The clock values of the events that can make a tab. *)
Definition clock (e : Event) : list str :=
  match e with
  | NewFile _ now _ => [now]
  | Created now _ _ _ => [now]
  | CloseTab _ now _ _ => [now]
  | _ => []
  end.

(** The invariant of the tabs: there is none, or the active identifier
    is the identifier of one of them. *)
Definition hasActive (s : State) : Prop :=
  tabs s = [] \/ In (activeTabId s) (map id (tabs s)).

End Tabs.

(* ===================================================================== *)
(** * Part II: properties                                                 *)
(* ===================================================================== *)

(** ** Facts about the string built-ins *)

Lemma char_eqb_eq (a b : char) : char_eqb a b = true <-> a = b.
Proof. apply N.eqb_eq. Qed.

Lemma char_eqb_refl (a : char) : char_eqb a a = true.
Proof. apply N.eqb_refl. Qed.

Lemma str_eqb_eq (a b : str) : str_eqb a b = true <-> a = b.
Proof.
  revert b; induction a as [|x a IH]; intros [|y b]; simpl;
    try (split; (discriminate || reflexivity)).
  rewrite andb_true_iff, char_eqb_eq, IH.
  split; [intros [-> ->]; reflexivity | intros H; inversion H; auto].
Qed.

Lemma str_eqb_refl (a : str) : str_eqb a a = true.
Proof. apply str_eqb_eq; reflexivity. Qed.

Lemma str_eqb_neq (a b : str) : str_eqb a b = false <-> a <> b.
Proof.
  rewrite <- str_eqb_eq. destruct (str_eqb a b); split; congruence.
Qed.

Lemma startsWith_iff (p s : str) :
  startsWith p s = true <-> exists r, s = p ++ r.
Proof.
  revert s; induction p as [|a p IH]; intros s; simpl.
  - split; [exists s; reflexivity | reflexivity].
  - destruct s as [|b s].
    + split; [discriminate | intros [r H]; discriminate].
    + rewrite andb_true_iff, char_eqb_eq, IH. split.
      * intros [-> [r ->]]. exists r; reflexivity.
      * intros [r H]. inversion H; subst. split; [reflexivity | eauto].
Qed.

Lemma startsWith_app (p r : str) : startsWith p (p ++ r) = true.
Proof. apply startsWith_iff; eauto. Qed.

Lemma startsWith_long (p x y : str) :
  length p <= length x -> startsWith p (x ++ y) = startsWith p x.
Proof.
  revert x; induction p as [|a p IH]; intros x Hlen; simpl; [reflexivity|].
  destruct x as [|b x]; simpl in *; [lia|].
  rewrite IH by lia. reflexivity.
Qed.

Lemma includes_iff (p s : str) :
  includes p s = true <-> exists u v, s = u ++ p ++ v.
Proof.
  induction s as [|c s IH].
  - simpl. rewrite orb_false_r, startsWith_iff. split.
    + intros [r H]. exists [], r. exact H.
    + intros [u [v H]]. destruct u; [eauto | discriminate].
  - cbn [includes]. rewrite orb_true_iff, startsWith_iff, IH. split.
    + intros [[r H] | [u [v H]]].
      * exists [], r. exact H.
      * exists (c :: u), v. rewrite H. reflexivity.
    + intros [[|d u] [v H]].
      * left. exists v. exact H.
      * right. inversion H; subst. eauto.
Qed.

Lemma includes_infix (p u s v : str) :
  includes p (u ++ s ++ v) = false -> includes p s = false.
Proof.
  intros H. destruct (includes p s) eqn:E; [|reflexivity].
  apply includes_iff in E. destruct E as [a [b ->]].
  assert (includes p (u ++ (a ++ p ++ b) ++ v) = true) as H'.
  { apply includes_iff. exists (u ++ a), (b ++ v).
    repeat rewrite <- app_assoc. reflexivity. }
  congruence.
Qed.

Lemma includes_startsWith (p s : str) :
  includes p s = false -> startsWith p s = false.
Proof.
  destruct s; cbn [includes]; intros H; apply orb_false_iff in H; tauto.
Qed.

Lemma includes_tail (p : str) (c : char) (s : str) :
  includes p (c :: s) = false -> includes p s = false.
Proof. cbn [includes]. intros H; apply orb_false_iff in H; tauto. Qed.

(** *** [split] *)

Lemma split_from_skip (sep l r : str) :
  split_from sep (length l) (l ++ r) = split_from sep 0 r.
Proof. induction l as [|c l IH]; simpl; auto. Qed.

Lemma split_nil (sep : str) : split sep [] = [[]].
Proof. reflexivity. Qed.

Lemma split_sep (sep r : str) :
  sep <> [] -> split sep (sep ++ r) = [] :: split sep r.
Proof.
  intros Hsep. destruct sep as [|c sep']; [congruence|].
  unfold split. cbn [app split_from].
  change (c :: sep' ++ r) with ((c :: sep') ++ r).
  rewrite startsWith_app. f_equal.
  replace (length (c :: sep') - 1) with (length sep') by (simpl; lia).
  apply split_from_skip.
Qed.

Lemma split_cons (sep : str) (c : char) (s : str) :
  startsWith sep (c :: s) = false ->
  split sep (c :: s) = cons_head c (split sep s).
Proof. intros H. unfold split. cbn [split_from]. rewrite H. reflexivity. Qed.

Lemma split_from_not_nil (sep : str) (k : nat) (s : str) :
  split_from sep k s <> [].
Proof.
  revert k; induction s as [|c s IH]; intros k; simpl; [discriminate|].
  destruct k; [|apply IH].
  destruct (startsWith sep (c :: s)); [discriminate|].
  specialize (IH 0). destruct (split_from sep 0 s); [congruence|discriminate].
Qed.

Lemma split_not_nil (sep s : str) : split sep s <> [].
Proof. apply split_from_not_nil. Qed.

(** Induction along the way [split] reads its argument. *)
Lemma split_ind (sep : str) (Hsep : sep <> []) (P : str -> Prop) :
  P [] ->
  (forall r, P r -> P (sep ++ r)) ->
  (forall c s, startsWith sep (c :: s) = false -> P s -> P (c :: s)) ->
  forall s, P s.
Proof.
  intros Hnil Hsepr Hcons s.
  remember (length s) as n eqn:Hn. revert s Hn.
  induction n as [n IH] using lt_wf_ind. intros s Hn.
  destruct s as [|c s]; [exact Hnil|].
  destruct (startsWith sep (c :: s)) eqn:E.
  - apply startsWith_iff in E. destruct E as [r E]. rewrite E.
    apply Hsepr. apply (IH (length r)); [|reflexivity].
    subst n. rewrite E, length_app. destruct sep; [congruence|simpl; lia].
  - apply Hcons; [exact E|]. apply (IH (length s)); [|reflexivity].
    subst n; simpl; lia.
Qed.

Lemma join_cons_head (sep : str) (c : char) (l : list str) :
  l <> [] -> join sep (cons_head c l) = c :: join sep l.
Proof.
  destruct l as [|h t]; [congruence|]. intros _. simpl.
  destruct t; reflexivity.
Qed.

Lemma join_cons (sep x : str) (l : list str) :
  l <> [] -> join sep (x :: l) = x ++ sep ++ join sep l.
Proof. destruct l; [congruence | reflexivity]. Qed.

Lemma join_split (sep s : str) : sep <> [] -> join sep (split sep s) = s.
Proof.
  intros Hsep. induction s as [|r IH|c s E IH] using (split_ind sep Hsep).
  - reflexivity.
  - rewrite split_sep by assumption.
    rewrite join_cons by apply split_not_nil. rewrite IH. reflexivity.
  - rewrite split_cons by assumption.
    rewrite join_cons_head by apply split_not_nil. rewrite IH. reflexivity.
Qed.

Lemma split_hd_prefix (sep s h : str) (t : list str) :
  sep <> [] -> split sep s = h :: t -> exists r, s = h ++ r.
Proof.
  intros Hsep H. pose proof (join_split sep s Hsep) as J. rewrite H in J.
  destruct t as [|x t].
  - exists []. simpl in J. rewrite app_nil_r. congruence.
  - rewrite join_cons in J by discriminate. eauto.
Qed.

Lemma split_tl_suffix (sep s : str) :
  sep <> [] -> exists u, s = u ++ join sep (tl (split sep s)).
Proof.
  intros Hsep. pose proof (join_split sep s Hsep) as J.
  destruct (split sep s) as [|h t] eqn:E; [destruct (split_not_nil _ _ E)|].
  destruct t as [|x t]; simpl tl.
  - exists s. simpl. rewrite app_nil_r. reflexivity.
  - rewrite join_cons in J by discriminate.
    exists (h ++ sep). rewrite <- app_assoc. congruence.
Qed.

Lemma includes_nil_sep (sep : str) : sep <> [] -> includes sep [] = false.
Proof. destruct sep; [congruence | reflexivity]. Qed.

(** No part of a split contains the separator. *)
Lemma split_parts_free (sep s : str) :
  sep <> [] -> Forall (fun p => includes sep p = false) (split sep s).
Proof.
  intros Hsep. induction s as [|r IH|c s E IH] using (split_ind sep Hsep).
  - repeat constructor. apply includes_nil_sep; assumption.
  - rewrite split_sep by assumption. constructor; [|exact IH].
    apply includes_nil_sep; assumption.
  - rewrite split_cons by assumption.
    destruct (split sep s) as [|h t] eqn:Es; [destruct (split_not_nil _ _ Es)|].
    inversion IH as [|? ? Hh Ht]; subst. simpl. constructor; [|exact Ht].
    cbn [includes]. rewrite Hh, orb_false_r.
    destruct (startsWith sep (c :: h)) eqn:F; [|reflexivity].
    apply startsWith_iff in F. destruct F as [x F].
    destruct (split_hd_prefix sep s h t Hsep Es) as [y Hy].
    assert (startsWith sep (c :: s) = true) as G.
    { apply startsWith_iff. exists (x ++ y). rewrite Hy.
      change (c :: h ++ y) with ((c :: h) ++ y). rewrite F.
      rewrite <- app_assoc. reflexivity. }
    congruence.
Qed.

Lemma split_free (sep s : str) :
  includes sep s = false -> split sep s = [s].
Proof.
  induction s as [|c s IH]; intros H; [reflexivity|].
  rewrite split_cons by (apply includes_startsWith; exact H).
  rewrite IH by (eapply includes_tail; exact H). reflexivity.
Qed.

Lemma length_removelast_str (sep : str) :
  sep <> [] -> length (removelast sep) = length sep - 1.
Proof.
  intros H. pose proof (app_removelast_last 0%N H) as E.
  apply (f_equal (@length _)) in E. rewrite length_app in E.
  simpl in E. lia.
Qed.

Lemma includes_short (p x : str) :
  length x < length p -> includes p x = false.
Proof.
  intros H. destruct (includes p x) eqn:E; [|reflexivity].
  apply includes_iff in E. destruct E as [u [v ->]].
  rewrite !length_app in H. lia.
Qed.

(** Whether a separator starts at the head of a non-empty [a] followed
    by a separator is decided within [a] and all but the last code unit of
    that separator. *)
Lemma startsWith_cut (sep : str) (c : char) (a r : str) :
  sep <> [] ->
  startsWith sep ((c :: a) ++ sep ++ r) =
  startsWith sep ((c :: a) ++ removelast sep).
Proof.
  intros Hsep.
  rewrite (app_removelast_last 0%N Hsep) at 2.
  rewrite <- app_assoc, app_assoc.
  apply startsWith_long.
  rewrite length_app, length_removelast_str by assumption.
  simpl. lia.
Qed.

Lemma no_earlier_sep (sep : str) (c : char) (a r : str) :
  sep <> [] ->
  includes sep ((c :: a) ++ removelast sep) = false ->
  startsWith sep ((c :: a) ++ sep ++ r) = false.
Proof.
  intros Hsep H. rewrite startsWith_cut by assumption.
  apply includes_startsWith. exact H.
Qed.

(** A separator that is the first one of the text cuts it there. *)
Lemma split_app_sep (sep a r : str) :
  sep <> [] ->
  includes sep (a ++ removelast sep) = false ->
  split sep (a ++ sep ++ r) = a :: split sep r.
Proof.
  intros Hsep. induction a as [|c a IH]; intros H.
  - cbn [app]. apply split_sep; assumption.
  - change ((c :: a) ++ sep ++ r) with (c :: a ++ sep ++ r).
    rewrite split_cons by (apply no_earlier_sep; assumption).
    rewrite IH by (eapply includes_tail; exact H). reflexivity.
Qed.

(** Conversely, a split in two parts or more starts with such a cut. *)
Lemma split_two (sep s a p : str) (t : list str) :
  sep <> [] ->
  split sep s = a :: p :: t ->
  exists r, s = a ++ sep ++ r /\ split sep r = p :: t /\
            includes sep (a ++ removelast sep) = false.
Proof.
  intros Hsep. revert a.
  induction s as [|r IH|c s E IH] using (split_ind sep Hsep); intros a H.
  - discriminate.
  - rewrite split_sep in H by assumption. inversion H as [[Ha Hr]].
    exists r. split; [reflexivity | split; [reflexivity|]].
    apply includes_short. cbn [app].
    rewrite length_removelast_str by assumption.
    destruct sep; [congruence | simpl; lia].
  - rewrite split_cons in H by assumption.
    destruct (split sep s) as [|h t'] eqn:Es; [discriminate|].
    cbn [cons_head] in H. inversion H; subst.
    destruct (IH h eq_refl) as [r [-> [Hr Hf]]].
    exists r. split; [reflexivity | split; [exact Hr|]].
    change ((c :: h) ++ removelast sep) with (c :: h ++ removelast sep).
    cbn [includes]. rewrite Hf, orb_false_r.
    change (c :: h ++ removelast sep) with ((c :: h) ++ removelast sep).
    rewrite <- (startsWith_cut sep c h r Hsep). exact E.
Qed.

(** *** [trim] *)

Lemma trimStart_blank (w s : str) :
  blank w = true -> trimStart (w ++ s) = trimStart s.
Proof.
  induction w as [|c w IH]; simpl; [reflexivity|].
  intros H. apply andb_true_iff in H. destruct H as [Hc Hw].
  rewrite Hc. auto.
Qed.

Lemma trimStart_split (s : str) :
  exists w, blank w = true /\ s = w ++ trimStart s.
Proof.
  induction s as [|c s [w [Hw E]]].
  - exists []. split; reflexivity.
  - simpl. destruct (is_ws c) eqn:Hc.
    + exists (c :: w). simpl. rewrite Hc, Hw. split; [reflexivity|].
      f_equal. exact E.
    + exists []. split; reflexivity.
Qed.

Lemma trimStart_head (s : str) (c : char) (x : str) :
  trimStart s = c :: x -> is_ws c = false.
Proof.
  induction s as [|d s IH]; simpl; [discriminate|].
  destruct (is_ws d) eqn:Hd; [exact IH|].
  intros H. inversion H; subst. exact Hd.
Qed.

Lemma trimStart_fix (c : char) (s : str) :
  is_ws c = false -> trimStart (c :: s) = c :: s.
Proof. intros H. simpl. rewrite H. reflexivity. Qed.

Lemma trimStart_idem (s : str) : trimStart (trimStart s) = trimStart s.
Proof.
  destruct (trimStart s) as [|c x] eqn:E; [reflexivity|].
  apply trimStart_fix. eapply trimStart_head; exact E.
Qed.

(** [trimStart] of a concatenation. *)
Lemma trimStart_app (u v : str) :
  trimStart (u ++ v) =
  match trimStart u with
  | [] => trimStart v
  | _ :: _ => trimStart u ++ v
  end.
Proof.
  induction u as [|c u IH]; simpl; [reflexivity|].
  destruct (is_ws c); [exact IH | reflexivity].
Qed.

Lemma blank_rev (w : str) : blank (rev w) = blank w.
Proof.
  unfold blank. induction w as [|c w IH]; simpl; [reflexivity|].
  rewrite forallb_app. simpl. rewrite IH, andb_true_r. apply andb_comm.
Qed.

Lemma trimEnd_blank (s w : str) :
  blank w = true -> trimEnd (s ++ w) = trimEnd s.
Proof.
  intros H. unfold trimEnd. rewrite rev_app_distr.
  rewrite trimStart_blank by (rewrite blank_rev; exact H). reflexivity.
Qed.

Lemma trimEnd_split (s : str) :
  exists w, blank w = true /\ s = trimEnd s ++ w.
Proof.
  destruct (trimStart_split (rev s)) as [w [Hw E]].
  exists (rev w). rewrite blank_rev. split; [exact Hw|].
  unfold trimEnd. rewrite <- rev_app_distr, <- E. symmetry.
  apply rev_involutive.
Qed.

(** [trimEnd] of a concatenation. *)
Lemma trimEnd_app (x y : str) :
  trimEnd (x ++ y) =
  match trimEnd y with
  | [] => trimEnd x
  | _ :: _ => x ++ trimEnd y
  end.
Proof.
  unfold trimEnd. rewrite rev_app_distr, trimStart_app.
  destruct (trimStart (rev y)) as [|c t] eqn:E; [reflexivity|].
  rewrite rev_app_distr, rev_involutive.
  destruct (rev (c :: t)) eqn:F; [|reflexivity].
  apply (f_equal (@length _)) in F. rewrite length_rev in F. discriminate.
Qed.

Lemma trimEnd_last (s : str) :
  trimEnd s = [] \/ exists x c, trimEnd s = x ++ [c] /\ is_ws c = false.
Proof.
  unfold trimEnd. destruct (trimStart (rev s)) as [|c t] eqn:E.
  - left. reflexivity.
  - right. exists (rev t), c. split; [reflexivity|].
    eapply trimStart_head; exact E.
Qed.

Lemma trimEnd_fix (x : str) (c : char) :
  is_ws c = false -> trimEnd (x ++ [c]) = x ++ [c].
Proof.
  intros H. unfold trimEnd. rewrite rev_app_distr. simpl. rewrite H.
  simpl. rewrite rev_involutive. reflexivity.
Qed.

Lemma trimEnd_idem (s : str) : trimEnd (trimEnd s) = trimEnd s.
Proof.
  destruct (trimEnd_last s) as [E | [x [c [E Hc]]]]; rewrite E.
  - reflexivity.
  - apply trimEnd_fix. exact Hc.
Qed.

(** The text is its trimmed middle between two blank ends. *)
Lemma trim_split (s : str) :
  exists w1 w2, blank w1 = true /\ blank w2 = true /\ s = w1 ++ trim s ++ w2.
Proof.
  destruct (trimStart_split s) as [w1 [H1 E1]].
  destruct (trimEnd_split (trimStart s)) as [w2 [H2 E2]].
  exists w1, w2. repeat split; try assumption.
  unfold trim. rewrite <- E2. exact E1.
Qed.

Lemma trim_head (s : str) (c : char) (x : str) :
  trim s = c :: x -> is_ws c = false.
Proof.
  unfold trim. intros H.
  destruct (trimEnd_split (trimStart s)) as [w [_ E]]. rewrite H in E.
  eapply trimStart_head. exact E.
Qed.

Lemma trim_idem (s : str) : trim (trim s) = trim s.
Proof.
  destruct (trim s) as [|c x] eqn:E; [reflexivity|].
  unfold trim at 1. rewrite trimStart_fix by (eapply trim_head; exact E).
  rewrite <- E. unfold trim. apply trimEnd_idem.
Qed.

Lemma trim_blank_l (w s : str) : blank w = true -> trim (w ++ s) = trim s.
Proof.
  intros H. unfold trim. rewrite trimStart_blank by exact H. reflexivity.
Qed.

Lemma trim_fixed_blank_r (m w : str) :
  trim m = m -> blank w = true -> trim (m ++ w) = m.
Proof.
  intros Hm Hw. destruct m as [|c x].
  - simpl. unfold trim.
    destruct (trimStart_split w) as [u [Hu E]].
    assert (trimStart w = []) as ->.
    { destruct (trimStart w) as [|d t] eqn:F; [reflexivity|].
      apply trimStart_head in F. rewrite E in Hw. unfold blank in Hw.
      rewrite forallb_app in Hw. simpl in Hw. rewrite F in Hw.
      rewrite andb_false_r in Hw. discriminate. }
    reflexivity.
  - assert (is_ws c = false) as Hc by (eapply trim_head; exact Hm).
    unfold trim. cbn [app]. rewrite trimStart_fix by exact Hc.
    change (c :: x ++ w) with ((c :: x) ++ w).
    rewrite trimEnd_blank by exact Hw.
    unfold trim in Hm. rewrite trimStart_fix in Hm by exact Hc. exact Hm.
Qed.

Lemma trim_blank_r (s w : str) : blank w = true -> trim (s ++ w) = trim s.
Proof.
  intros Hw. destruct (trim_split s) as [w1 [w2 [H1 [H2 E]]]].
  rewrite E at 1. rewrite <- !app_assoc. rewrite trim_blank_l by exact H1.
  apply trim_fixed_blank_r; [apply trim_idem|].
  unfold blank. rewrite forallb_app. unfold blank in H2, Hw.
  rewrite H2, Hw. reflexivity.
Qed.

Lemma trim_infix (s : str) : exists u v, s = u ++ trim s ++ v.
Proof. destruct (trim_split s) as [u [v [_ [_ E]]]]. eauto. Qed.

(** ** Facts about the scanner *)

Lemma fence_not_nil : fence <> [].
Proof. discriminate. Qed.

Lemma nl_not_nil : nl <> [].
Proof. discriminate. Qed.

(** The first loop pushes at most one offset per iteration. *)
Lemma fencePositions_length (text : str) (n : nat) (searchPos : Z) :
  length (fencePositions text n searchPos) <= n.
Proof.
  revert searchPos; induction n as [|n IH]; intros searchPos; simpl; [lia|].
  destruct (indexOf fence text searchPos =? -1)%Z; simpl.
  - specialize (IH searchPos). lia.
  - specialize (IH (indexOf fence text searchPos + 3)%Z). lia.
Qed.

Lemma scanParts_app (text : str) (positions : list Z) (i : nat)
    (l1 l2 : list str) :
  scanParts text positions i (l1 ++ l2) =
  scanParts text positions i l1 ++
  scanParts text positions (i + length l1) l2.
Proof.
  revert i; induction l1 as [|p l1 IH]; intros i; simpl.
  - rewrite Nat.add_0_r. reflexivity.
  - rewrite IH. replace (S i + length l1) with (i + S (length l1)) by lia.
    destruct (isMermaidTag p); reflexivity.
Qed.

(** The contents of the segments: one per part after a fence whose first
    non-blank line is the tag, whatever the parity of the part. *)
Lemma scanParts_contents (text : str) (positions : list Z) (i : nat)
    (rest : list str) :
  map content (scanParts text positions i rest) =
  map mermaidContentOf (filter isMermaidTag rest).
Proof.
  revert i; induction rest as [|p rest IH]; intros i; simpl; [reflexivity|].
  destruct (isMermaidTag p); simpl; rewrite IH; reflexivity.
Qed.

Lemma extract_contents (text : str) :
  map content (extractMermaidBlocks text) =
  map mermaidContentOf (filter isMermaidTag (tl (split fence text))).
Proof. apply scanParts_contents. Qed.

Lemma mermaidContentOf_infix (p : str) :
  exists u v, p = u ++ mermaidContentOf p ++ v.
Proof.
  unfold mermaidContentOf.
  destruct (split_tl_suffix nl p nl_not_nil) as [u E].
  destruct (trim_infix (join nl (tl (split nl p)))) as [a [b F]].
  exists (u ++ a), b. rewrite <- app_assoc, <- F. exact E.
Qed.

Lemma mermaidContentOf_trimmed (p : str) :
  trim (mermaidContentOf p) = mermaidContentOf p.
Proof. apply trim_idem. Qed.

(** A part that starts with the tag line. *)
Lemma firstLine_tagged (tag rest : str) :
  tag <> [] -> trim tag = tag -> includes nl tag = false ->
  firstLine (tag ++ nl ++ rest) = tag.
Proof.
  intros Hne Htrim Hnl. unfold firstLine.
  destruct tag as [|c tag']; [congruence|]. clear Hne.
  assert (is_ws c = false) as Hc by (eapply trim_head; exact Htrim).
  assert (trimEnd (c :: tag') = c :: tag') as Hend.
  { unfold trim in Htrim. rewrite trimStart_fix in Htrim by exact Hc.
    exact Htrim. }
  unfold trim at 2. cbn [app]. rewrite trimStart_fix by exact Hc.
  change (c :: tag' ++ nl ++ rest) with ((c :: tag') ++ nl ++ rest).
  rewrite trimEnd_app.
  destruct (trimEnd (nl ++ rest)) as [|d t] eqn:E.
  - rewrite Hend, split_free by exact Hnl. exact Htrim.
  - destruct (trimEnd_split (nl ++ rest)) as [w [_ F]]. rewrite E in F.
    inversion F; subst d.
    change (10%N :: t) with (nl ++ t).
    rewrite split_app_sep.
    + exact Htrim.
    + exact nl_not_nil.
    + simpl removelast. rewrite app_nil_r. exact Hnl.
Qed.

Lemma mermaidContentOf_tagged (tag rest : str) :
  includes nl tag = false ->
  mermaidContentOf (tag ++ nl ++ rest) = trim rest.
Proof.
  intros Hnl. unfold mermaidContentOf.
  rewrite split_app_sep.
  - simpl tl. rewrite join_split by exact nl_not_nil. reflexivity.
  - exact nl_not_nil.
  - simpl removelast. rewrite app_nil_r. exact Hnl.
Qed.

(** ** The classifier *)

Lemma first_match_spec (ps : list (pattern * str)) (s : str) :
  match first_match ps s with
  | Some ty =>
      exists before p after,
        ps = before ++ (p, ty) :: after /\
        Forall (fun q => test (fst q) s = false) before /\
        test p s = true
  | None => Forall (fun q => test (fst q) s = false) ps
  end.
Proof.
  induction ps as [|[p ty] ps IH]; simpl; [constructor|].
  destruct (test p s) eqn:E.
  - exists [], p, ps. repeat split; [constructor | exact E].
  - destruct (first_match ps s) as [ty'|].
    + destruct IH as [before [p' [after [-> [Hb Hp]]]]].
      exists ((p, ty) :: before), p', after.
      repeat split; [constructor; assumption | exact Hp].
    + constructor; assumption.
Qed.

Lemma typePatterns_kinds :
  forallb (fun q => existsb (str_eqb (snd q)) MermaidDiagramType)
          typePatterns = true.
Proof. vm_compute. reflexivity. Qed.

(** C7.  [detectDiagramType] is a total function of its argument: for
    every string it returns one of the fourteen kinds of
    [MermaidDiagramType]; the result is the kind of the first pattern of
    [typePatterns], in the order of the table, that matches, and
    ['flowchart'] when none does; equal arguments give equal results. *)
Theorem detectDiagramType_total_first_match (s : str) :
  In (detectDiagramType s) MermaidDiagramType /\
  length MermaidDiagramType = 14 /\ NoDup MermaidDiagramType /\
  ((exists before p after,
       typePatterns = before ++ (p, detectDiagramType s) :: after /\
       Forall (fun q => test (fst q) s = false) before /\
       test p s = true)
   \/
   (Forall (fun q => test (fst q) s = false) typePatterns /\
    detectDiagramType s = js "flowchart")) /\
  (forall s', s' = s -> detectDiagramType s' = detectDiagramType s).
Proof.
  split; [|split; [reflexivity|split; [|split]]].
  - unfold detectDiagramType.
    pose proof (first_match_spec typePatterns s) as H.
    destruct (first_match typePatterns s) as [ty|].
    + destruct H as [before [p [after [E _]]]].
      pose proof typePatterns_kinds as K. rewrite forallb_forall in K.
      specialize (K (p, ty)). rewrite E in K.
      specialize (K (in_elt _ _ _)). cbn [snd] in K.
      apply existsb_exists in K. destruct K as [k [Hk Ek]].
      apply str_eqb_eq in Ek. subst k. exact Hk.
    + left. reflexivity.
  - unfold MermaidDiagramType.
    repeat (constructor; [simpl; intros H;
      repeat (destruct H as [H|H]; [discriminate H|]); exact H|]).
    constructor.
  - unfold detectDiagramType.
    pose proof (first_match_spec typePatterns s) as H.
    destruct (first_match typePatterns s) as [ty|].
    + left. exact H.
    + right. split; [exact H | reflexivity].
  - intros s' ->. reflexivity.
Qed.

(** ** The scanner *)

(** The contents of the segments are trimmed and free of fences. *)
Lemma contents_trimmed_fence_free (text : str) :
  Forall (fun c => includes fence c = false /\ trim c = c)
         (map content (extractMermaidBlocks text)).
Proof.
  rewrite extract_contents. apply Forall_forall. intros c Hc.
  apply in_map_iff in Hc. destruct Hc as [p [E Hp]].
  apply filter_In in Hp. destruct Hp as [Hp _].
  assert (In p (split fence text)) as Hin.
  { destruct (split fence text); [destruct Hp | right; exact Hp]. }
  pose proof (split_parts_free fence text fence_not_nil) as F.
  rewrite Forall_forall in F. specialize (F p Hin).
  destruct (mermaidContentOf_infix p) as [u [v G]].
  subst c. split; [|apply mermaidContentOf_trimmed].
  rewrite G in F. eapply includes_infix. exact F.
Qed.

(** C6.  When the text after the last fence delimiter has the tag
    [mermaid] as its first non-blank line (a fence opened and never
    closed; nothing is asked of the number of delimiters before it),
    [extractMermaidBlocks] returns, and its last segment ends at
    [text.length]. *)
Theorem unterminated_fence_ends_at_length (text : str)
    (parts : list str) (last : str) :
  split fence text = parts ++ [last] ->
  parts <> [] ->
  isMermaidTag last = true ->
  exists blocks b,
    extractMermaidBlocks text = blocks ++ [b] /\
    endIndex b = Z.of_nat (length text) /\
    content b = mermaidContentOf last.
Proof.
  intros Hsplit Hparts Htag. unfold extractMermaidBlocks.
  rewrite Hsplit.
  destruct parts as [|p0 parts]; [congruence|]. cbn [app tl].
  rewrite scanParts_app. cbn [scanParts]. rewrite Htag.
  eexists _, _. split; [reflexivity|]. cbn [endIndex content].
  split; [|reflexivity].
  set (n := length (p0 :: parts ++ [last]) - 1).
  pose proof (fencePositions_length text n 0) as L.
  assert (n = length parts + 1) as Hn.
  { unfold n. simpl. rewrite length_app. simpl. lia. }
  destruct (nth_error (fencePositions text n 0) (0 + length parts + 1))
    eqn:E; [|reflexivity].
  assert (nth_error (fencePositions text n 0) (0 + length parts + 1) <> None)
    as H by congruence.
  apply nth_error_Some in H. lia.
Qed.

Lemma unterminated_fence_witness :
  exists blocks b,
    extractMermaidBlocks (lines ["```mermaid"; "sequenceDiagram"; "A"])
      = blocks ++ [b] /\
    endIndex b = 28%Z /\
    content b = mermaidContentOf (lines ["mermaid"; "sequenceDiagram"; "A"]).
Proof.
  apply (unterminated_fence_ends_at_length
           (lines ["```mermaid"; "sequenceDiagram"; "A"]) [[]]
           (lines ["mermaid"; "sequenceDiagram"; "A"])).
  - reflexivity.
  - discriminate.
  - reflexivity.
Defined.

(** C4 (as the code behaves).  The text after a closing fence is a
    candidate too: here the code block is tagged [js], the line
    [mermaid] stands outside of it, and the scanner returns the text
    from the closing fence to the end as a diagram segment. *)
Theorem outside_span_returned_as_segment :
  let text := lines ["```js"; "x"; "```"; "mermaid"; "B"] in
  split fence text = [ []; lines ["js"; "x"; ""]; lines [""; "mermaid"; "B"] ]
  /\ extractMermaidBlocks text =
     [ mkMermaidBlock (lines ["mermaid"; "B"]) 8 21 (js "flowchart") ].
Proof. vm_compute. split; reflexivity. Qed.

(** ** The serializers *)

Lemma concat_lines (f : str -> str) (ls : list str) :
  ls <> [] ->
  concat (map (fun line => f line ++ nl) ls) = join nl (map f ls) ++ nl.
Proof.
  induction ls as [|l ls IH]; [congruence|]. intros _.
  destruct ls as [|l' ls].
  - simpl. rewrite app_nil_r. reflexivity.
  - change (concat (map (fun line => f line ++ nl) (l :: l' :: ls)))
      with ((f l ++ nl) ++ concat (map (fun line => f line ++ nl) (l' :: ls))).
    rewrite IH by discriminate.
    change (map f (l :: l' :: ls)) with (f l :: map f (l' :: ls)).
    rewrite join_cons by discriminate.
    rewrite <- !app_assoc. reflexivity.
Qed.

Lemma emit_blockquote (parentTag : str) (attrs : list (str * str))
    (kids : list Dom.Node) :
  emit parentTag (Elem (js "blockquote") attrs kids) =
  concat (map (fun line => js "> " ++ line ++ nl)
              (split nl (trim (concat (map (emit (js "blockquote")) kids)))))
    ++ nl.
Proof. reflexivity. Qed.

Lemma processNode_blockquote (parentTag : str) (attrs : list (str * str))
    (kids : list Dom.Node) :
  processNode parentTag (Elem (js "blockquote") attrs kids) =
  join nl (map (fun line => js "> " ++ line)
             (split nl
                (trim (concat (map (processNode (js "blockquote")) kids)))))
    ++ nl ++ nl.
Proof. reflexivity. Qed.

(** C8, as the code has it.  For every blockquote element, both
    serializers produce the trimmed serialization of its children, split
    on newlines, with every line prefixed by ["> "], the empty lines
    too, the lines joined by newlines and followed by two newlines. *)
Theorem blockquote_every_line_prefixed (parentTag : str)
    (attrs : list (str * str)) (kids : list Dom.Node) :
  let el := Elem (js "blockquote") attrs kids in
  emit parentTag el = quoted (domToMarkdown el) /\
  processNode parentTag el =
    quoted (concat (map (processNode (js "blockquote")) kids)).
Proof.
  cbv zeta. split.
  - rewrite emit_blockquote. unfold quoted, domToMarkdown.
    cbn [tagName childNodes].
    rewrite (concat_lines (fun line => js "> " ++ line))
      by apply split_not_nil.
    rewrite <- app_assoc. reflexivity.
  - apply processNode_blockquote.
Qed.

(** C8 as stated fails: in a blockquote of two paragraphs the empty
    line between them is prefixed, by both serializers: the output has
    the line ["> "], and is not what the rule of the table gives. *)
Lemma blockquote_empty_line_is_prefixed :
  let el := Elem (js "blockquote") []
              [ Elem (js "p") [] [Text (js "a")];
                Elem (js "p") [] [Text (js "b")] ] in
  domToMarkdown el = lines ["a"; ""; "b"; ""; ""] /\
  emit (js "div") el = lines ["> a"; "> "; "> b"; ""; ""] /\
  processNode (js "div") el = lines ["> a"; "> "; "> b"; ""; ""] /\
  In (js "> ") (split nl (emit (js "div") el)) /\
  In (js "> ") (split nl (processNode (js "div") el)) /\
  emit (js "div") el <> quotedAsSpecified (domToMarkdown el) /\
  processNode (js "div") el <>
    quotedAsSpecified (concat (map (processNode (js "blockquote"))
                                   (childNodes el))).
Proof.
  cbv zeta.
  split; [vm_compute; reflexivity|].
  split; [vm_compute; reflexivity|].
  split; [vm_compute; reflexivity|].
  split; [vm_compute; right; left; reflexivity|].
  split; [vm_compute; right; left; reflexivity|].
  split; vm_compute; discriminate.
Qed.

(** The code-block rule of the two serializers, for a [pre] element that
    contains a [code] element: the copy path puts a newline between the
    code and the closing fence, the save path does not. *)
Lemma emit_pre (parentTag : str) (attrs : list (str * str))
    (kids : list Dom.Node) (codeEl : Dom.Node) :
  querySelector "code" (Elem (js "pre") attrs kids) = Some codeEl ->
  emit parentTag (Elem (js "pre") attrs kids) =
  fence ++ languageOf (className codeEl) ++ nl ++ textContent codeEl ++ nl
    ++ fence ++ nl ++ nl.
Proof.
  intros H.
  change (emit parentTag (Elem (js "pre") attrs kids)) with
    (match querySelector "code" (Elem (js "pre") attrs kids) with
     | Some codeEl =>
         fence ++ languageOf (className codeEl) ++ nl ++ textContent codeEl
           ++ nl ++ fence ++ nl ++ nl
     | None =>
         fence ++ nl ++ textContent (Elem (js "pre") attrs kids) ++ nl
           ++ fence ++ nl ++ nl
     end).
  rewrite H. reflexivity.
Qed.

Lemma processNode_pre (parentTag : str) (attrs : list (str * str))
    (kids : list Dom.Node) (codeEl : Dom.Node) :
  querySelector "code" (Elem (js "pre") attrs kids) = Some codeEl ->
  processNode parentTag (Elem (js "pre") attrs kids) =
  fence ++ languageOf (className codeEl) ++ nl ++ textContent codeEl
    ++ fence ++ nl ++ nl.
Proof.
  intros H.
  change (processNode parentTag (Elem (js "pre") attrs kids)) with
    (match querySelector "code" (Elem (js "pre") attrs kids) with
     | Some codeEl =>
         fence ++ languageOf (className codeEl) ++ nl ++ textContent codeEl
           ++ fence ++ nl ++ nl
     | None =>
         fence ++ nl ++ textContent (Elem (js "pre") attrs kids)
           ++ fence ++ nl ++ nl
     end).
  rewrite H. reflexivity.
Qed.

(** C5 (as the code behaves).  For [<pre><code class="language-js">x
    </code></pre>] the copy path emits the fence, the tag, the code, a
    newline and the closing fence; the save path emits the closing fence
    right after the code, with no newline between them. *)
Theorem save_path_code_block_lacks_newline :
  let pre := Elem (js "pre") []
               [ Elem (js "code") [ (js "class", js "language-js") ]
                   [ Text (js "x") ] ] in
  emit (js "div") pre = lines ["```js"; "x"; "```"; ""; ""] /\
  processNode (js "div") pre = lines ["```js"; "x```"; ""; ""] /\
  htmlToMarkdown [pre] = lines ["```js"; "x```"].
Proof. vm_compute. repeat split; reflexivity. Qed.

(** ** The converter *)

Lemma extract_no_fence (text : str) :
  includes fence text = false -> extractMermaidBlocks text = [].
Proof.
  intros H. unfold extractMermaidBlocks.
  rewrite split_free by exact H. reflexivity.
Qed.

(** C3, as the code has it.  A text without the fence delimiter has no
    diagram segment, and the converter returns what the import
    [parseSlice] makes of the HTML of the text, adding no node of its
    own.  The HTML is [marked] of the whole text when the text has at
    most one non-blank line or a non-blank line with block syntax;
    otherwise the text is not handed to [marked] as a whole: its
    non-blank lines are, one by one, and the results are joined. *)
Theorem no_fence_standard_conversion (ext : External) (text : str) :
  includes fence text = false ->
  extractMermaidBlocks text = [] /\
  convertMarkdownToTipTapNodes ext text =
    (if Nat.ltb 1 (length (nonBlankLines text))
        && negb (hasBlockSyntax (nonBlankLines text))
     then htmls <- mapM (marked ext) (nonBlankLines text) ;;
          parseSlice ext (concat htmls)
     else html <- marked ext text ;; parseSlice ext html).
Proof.
  intros H. pose proof (extract_no_fence text H) as E.
  split; [exact E|].
  unfold convertMarkdownToTipTapNodes. rewrite E. cbn [length Nat.eqb].
  unfold standardNodes, convertMarkdownToHTML.
  destruct (Nat.ltb 1 (length (nonBlankLines text))
            && negb (hasBlockSyntax (nonBlankLines text)));
    [|reflexivity].
  destruct (mapM (marked ext) (nonBlankLines text)); reflexivity.
Qed.

Lemma no_fence_standard_conversion_witness :
  extractMermaidBlocks (lines ["first line"; ""; "second line"]) = [] /\
  convertMarkdownToTipTapNodes toyExternal
    (lines ["first line"; ""; "second line"]) =
    (if Nat.ltb 1 (length (nonBlankLines
                             (lines ["first line"; ""; "second line"])))
        && negb (hasBlockSyntax
                   (nonBlankLines (lines ["first line"; ""; "second line"])))
     then htmls <- mapM (marked toyExternal)
                     (nonBlankLines
                        (lines ["first line"; ""; "second line"])) ;;
          parseSlice toyExternal (concat htmls)
     else html <- marked toyExternal
                    (lines ["first line"; ""; "second line"]) ;;
          parseSlice toyExternal html).
Proof.
  apply (no_fence_standard_conversion toyExternal
           (lines ["first line"; ""; "second line"])).
  reflexivity.
Defined.

(** C3 as stated fails.  The text is the two lines [a] and [b]: no fence
    delimiter, two non-blank lines, no block syntax.  The converter
    hands [a] and [b] to [marked] one after the other and imports the
    two results joined, two paragraphs, which is not what the import
    makes of [marked] applied to the whole text, one paragraph. *)
Lemma two_plain_lines_not_delegated_whole :
  includes fence (lines ["a"; "b"]) = false /\
  convertMarkdownToTipTapNodes probeExternal (lines ["a"; "b"]) =
    Ok [ PMElem (js "html") []
           [ PMText (js "<p>a</p>" ++ nl ++ js "<p>b</p>" ++ nl) ] ] /\
  (html <- marked probeExternal (lines ["a"; "b"]) ;;
   parseSlice probeExternal html) =
    Ok [ PMElem (js "html") []
           [ PMText (js "<p>a" ++ nl ++ js "b</p>" ++ nl) ] ] /\
  convertMarkdownToTipTapNodes probeExternal (lines ["a"; "b"]) <>
    (html <- marked probeExternal (lines ["a"; "b"]) ;;
     parseSlice probeExternal html).
Proof.
  split; [reflexivity|]. split; [reflexivity|]. split; [reflexivity|].
  vm_compute. discriminate.
Qed.

(** C2 (as the code behaves).  The text holds one fence, tagged
    [mermaid], with content [A]; after it come the lines [mermaid] and
    [B].  Whatever the libraries do, the converter returns two diagram
    nodes, and hands the text after the fence to no converter: the second
    node holds it. *)
Theorem text_after_fence_becomes_second_diagram (ext : External) :
  let text := lines ["```mermaid"; "A"; "```"; "mermaid"; "B"] in
  split fence text =
    [ []; lines ["mermaid"; "A"; ""]; lines [""; "mermaid"; "B"] ]
  /\ convertMarkdownToTipTapNodes ext text =
     Ok [ mermaidNode (mkMermaidBlock (js "A") 0 16 (js "flowchart"));
          paraNode;
          mermaidNode (mkMermaidBlock (lines ["mermaid"; "B"]) 13 26
                         (js "flowchart")) ].
Proof. cbv zeta. split; vm_compute; reflexivity. Qed.

(** ** The paste handler *)

Lemma hasMarkdownSyntax_nonempty (text : str) :
  hasMarkdownSyntax text = true -> text <> [].
Proof. intros H ->. vm_compute in H. discriminate. Qed.

(** C9.  When the gate passes and the conversion step throws, the
    handler returns [false] and has dispatched nothing: the transactions
    of the view are those from before the paste.  The exception is
    logged, and [preventDefault] has been called before the [try].  The
    paste is then the host's: the one transaction of the paste is its
    plain-text paste of the clipboard text, so the text is in the
    document, unconverted. *)
Theorem paste_conversion_failure_not_handled (ext : External)
    (plainTextSlice : str -> list PMNode) (text : str) (w : World)
    (e : str) :
  hasMarkdownSyntax text = true ->
  pasteConversion ext text = Throw e ->
  handlePaste ext (Some text) w =
    (false, mkWorld true (dispatched w) (consoleErrors w ++ [e])) /\
  hostPaste ext plainTextSlice (Some text) w =
    mkWorld true (dispatched w ++ [plainTextSlice text])
      (consoleErrors w ++ [e]).
Proof.
  intros Hgate Hconv.
  pose proof (hasMarkdownSyntax_nonempty text Hgate) as Hne.
  assert (handlePaste ext (Some text) w =
          (false, mkWorld true (dispatched w) (consoleErrors w ++ [e])))
    as Hh.
  { unfold handlePaste. destruct text as [|c text]; [congruence|].
    rewrite Hgate. cbn [negb]. unfold tryBody. rewrite Hconv.
    reflexivity. }
  split; [exact Hh|].
  unfold hostPaste. rewrite Hh.
  destruct text as [|c text]; [congruence|]. reflexivity.
Qed.

Lemma paste_conversion_failure_witness :
  handlePaste failingExternal (Some (js "# Heading")) (mkWorld false [] []) =
    (false, mkWorld true [] ([] ++ [js "marked failed"])) /\
  hostPaste failingExternal
    (fun t => [PMElem (js "paragraph") [] [PMText t]])
    (Some (js "# Heading")) (mkWorld false [] []) =
    mkWorld true
      ([] ++ [(fun t => [PMElem (js "paragraph") [] [PMText t]])
                (js "# Heading")])
      ([] ++ [js "marked failed"]).
Proof.
  apply (paste_conversion_failure_not_handled failingExternal
           (fun t => [PMElem (js "paragraph") [] [PMText t]])
           (js "# Heading") (mkWorld false [] []) (js "marked failed")).
  - reflexivity.
  - reflexivity.
Defined.

(** ** The round trip through the copy path *)

(** *** The Markdown of a node list *)

Lemma copyMarkdown_app (ext : External) (a b : list PMNode) :
  copyMarkdown ext (a ++ b) = copyMarkdown ext a ++ copyMarkdown ext b.
Proof.
  unfold copyMarkdown, domToMarkdown. cbn [tagName childNodes].
  rewrite !map_app, concat_app. reflexivity.
Qed.

Lemma copyMarkdown_nil (ext : External) : copyMarkdown ext [] = [].
Proof. reflexivity. Qed.

Lemma copyMarkdown_one (ext : External) (n : PMNode) :
  copyMarkdown ext [n] = emit (js "div") (toDOM ext n).
Proof.
  unfold copyMarkdown, domToMarkdown. cbn [tagName childNodes map concat].
  apply app_nil_r.
Qed.

(** A diagram node goes out as a fence tagged [mermaid] around its
    source text. *)
Lemma copyMarkdown_mermaidNode (ext : External) (block : MermaidBlock) :
  copyMarkdown ext [mermaidNode block] = fenced (content block).
Proof.
  rewrite copyMarkdown_one. unfold mermaidNode.
  change (toDOM ext
            (PMElem (js "mermaidBlock")
               [ (js "diagramType", diagramType block);
                 (js "viewMode", js "preview");
                 (js "theme", js "default") ]
               [ PMText (content block) ]))
    with (MermaidBlock_renderHTML
            [ (js "diagramType", diagramType block);
              (js "viewMode", js "preview");
              (js "theme", js "default") ]
            [ Text (content block) ]).
  unfold MermaidBlock_renderHTML.
  set (attrs := [(js "data-type", js "mermaid-block"); _; _; _; _]).
  set (pre := Elem (js "pre") _ _).
  change (emit (js "div") (Elem (js "div") attrs [pre]))
    with (emit (js "div") pre ++ []).
  rewrite app_nil_r. unfold pre.
  rewrite (emit_pre _ _ _
             (Elem (js "code") [ (js "class", js "language-mermaid") ]
                [ Text (content block) ])) by reflexivity.
  change (languageOf _) with (js "mermaid").
  change (textContent _) with (content block ++ []).
  rewrite app_nil_r. reflexivity.
Qed.

Lemma copyMarkdown_paraNode (ext : External) :
  renderOther ext paraNode = Elem (js "p") [] [] ->
  copyMarkdown ext [paraNode] = [].
Proof.
  intros H. rewrite copyMarkdown_one.
  change (toDOM ext paraNode) with (renderOther ext paraNode).
  rewrite H. reflexivity.
Qed.

(** *** Fences in a text with few backticks *)

Lemma includes_fence_sep (x : str) (ch : char) (y : str) :
  ch <> backtick ->
  includes fence (x ++ ch :: y) = includes fence x || includes fence y.
Proof.
  intros Hch. unfold backtick in Hch.
  assert (char_eqb 96%N ch = false) as E.
  { apply N.eqb_neq. congruence. }
  induction x as [|a x IH].
  - cbn [app includes]. unfold fence at 1. cbn [startsWith].
    rewrite E. reflexivity.
  - cbn [app includes]. rewrite IH.
    replace (startsWith fence (a :: x ++ ch :: y))
      with (startsWith fence (a :: x)).
    + destruct (startsWith fence (a :: x)); reflexivity.
    + unfold fence. destruct x as [|b [|d x]]; cbn [app startsWith];
        rewrite ?E, ?andb_false_r; reflexivity.
Qed.

Lemma noBacktick_fence_free (u : str) :
  noBacktick u = true -> includes fence (u ++ removelast fence) = false.
Proof.
  induction u as [|c u IH]; [reflexivity|].
  cbn [noBacktick forallb]. intros H. apply andb_true_iff in H.
  destruct H as [Hc Hu]. cbn [app includes].
  rewrite (IH Hu), orb_false_r.
  unfold fence at 1. cbn [startsWith].
  apply negb_true_iff in Hc. unfold backtick in Hc. rewrite Hc. reflexivity.
Qed.

Lemma noBacktick_includes (u : str) :
  noBacktick u = true -> includes fence u = false.
Proof.
  intros H. apply (includes_infix fence [] u (removelast fence)).
  apply noBacktick_fence_free. exact H.
Qed.

Lemma noBacktick_app (u v : str) :
  noBacktick (u ++ v) = noBacktick u && noBacktick v.
Proof. apply forallb_app. Qed.

(** *** Scanning one re-emitted diagram block *)

Lemma fenced_tagged (c rest : str) :
  fenced c ++ rest = fence ++ tagged c ++ fence ++ (nl ++ nl ++ rest).
Proof. unfold fenced, tagged. rewrite <- !app_assoc. reflexivity. Qed.

Lemma tagged_fence_free (c : str) :
  includes fence c = false ->
  includes fence (tagged c ++ removelast fence) = false.
Proof.
  intros H. unfold tagged. rewrite <- !app_assoc. cbn [app nl].
  rewrite includes_fence_sep by discriminate.
  rewrite includes_fence_sep by discriminate.
  rewrite H. reflexivity.
Qed.

Lemma isMermaidTag_tagged (c : str) : isMermaidTag (tagged c) = true.
Proof.
  unfold isMermaidTag, tagged.
  rewrite firstLine_tagged; [reflexivity | discriminate | reflexivity..].
Qed.

Lemma mermaidContentOf_of_tagged (c : str) :
  trim c = c -> mermaidContentOf (tagged c) = c.
Proof.
  intros H. unfold tagged.
  rewrite mermaidContentOf_tagged by reflexivity.
  rewrite trim_blank_r by reflexivity. exact H.
Qed.

Lemma isMermaidTag_blank_l (w s : str) :
  blank w = true -> isMermaidTag (w ++ s) = isMermaidTag s.
Proof.
  intros H. unfold isMermaidTag, firstLine.
  rewrite trim_blank_l by exact H. reflexivity.
Qed.

(** *** Delimiters of a text followed by a delimiter *)

(** A text that can stand before a delimiter is cut as it is cut alone,
    and what follows the delimiter as it is cut alone. *)
Lemma split_parts_app (parts : list str) :
  forall g r,
    split fence g = parts ->
    includes fence (last parts [] ++ removelast fence) = false ->
    split fence (g ++ fence ++ r) = parts ++ split fence r.
Proof.
  induction parts as [|a t IH]; intros g r E H.
  - destruct (split_not_nil _ _ E).
  - destruct t as [|p t].
    + pose proof (join_split fence g fence_not_nil) as J.
      rewrite E in J. cbn in J. rewrite ?app_nil_r in J. subst a.
      cbn [last] in H. cbn [app].
      apply split_app_sep; [exact fence_not_nil | exact H].
    + destruct (split_two fence g a p t fence_not_nil E)
        as [g' [-> [E' Ha]]].
      rewrite <- !app_assoc.
      rewrite split_app_sep by (exact fence_not_nil || exact Ha).
      rewrite (IH g' r E') by exact H. reflexivity.
Qed.

Lemma split_app_fence (g r : str) :
  openEnded g = true ->
  split fence (g ++ fence ++ r) = split fence g ++ split fence r.
Proof.
  intros H. apply split_parts_app; [reflexivity|].
  unfold openEnded in H. apply negb_true_iff in H. exact H.
Qed.

(** Two newlines before a text add nothing to what the scanner sees in
    it. *)
Lemma split_after_blank_line (g : str) :
  split fence (nl ++ nl ++ g) =
  match split fence g with
  | h :: t => (nl ++ nl ++ h) :: t
  | [] => []
  end.
Proof.
  cbn [app nl]. rewrite !split_cons by reflexivity.
  destruct (split fence g) as [|h t] eqn:E; [|reflexivity].
  destruct (split_not_nil _ _ E).
Qed.

Lemma filter_after_blank_line (g : str) :
  length (filter isMermaidTag (split fence (nl ++ nl ++ g))) =
  length (filter isMermaidTag (split fence g)).
Proof.
  rewrite split_after_blank_line.
  destruct (split fence g) as [|h t]; [reflexivity|].
  cbn [filter]. rewrite app_assoc.
  rewrite (isMermaidTag_blank_l (nl ++ nl) h) by reflexivity.
  destruct (isMermaidTag h); reflexivity.
Qed.

Lemma openEnded_after_blank_line (g : str) :
  openEnded (nl ++ nl ++ g) = openEnded g.
Proof.
  unfold openEnded. rewrite split_after_blank_line.
  destruct (split fence g) as [|h t] eqn:E;
    [destruct (split_not_nil _ _ E)|].
  destruct t as [|p t]; reflexivity.
Qed.

Lemma tagFree_filter (parts : list str) :
  tagFree parts = true <-> length (filter isMermaidTag parts) = 0.
Proof.
  unfold tagFree. induction parts as [|p parts IH]; cbn [forallb filter].
  - split; reflexivity.
  - destruct (isMermaidTag p); cbn [negb andb length].
    + split; discriminate.
    + exact IH.
Qed.

Lemma taggedBehind_zero (gs : list str) :
  taggedBehind gs = 0 <-> forallb untagged gs = true.
Proof.
  induction gs as [|g gs IH]; cbn [taggedBehind forallb];
    [split; reflexivity|].
  rewrite andb_true_iff, <- IH. unfold untagged. rewrite tagFree_filter.
  lia.
Qed.

(** A Markdown that is empty or ends with a newline, as every block
    that the serializer writes does, can stand before a delimiter. *)
Lemma startsWith_fence_snoc (x : str) (ch : char) :
  ch <> backtick -> startsWith fence (x ++ [ch]) = startsWith fence x.
Proof.
  intros Hch. unfold backtick in Hch.
  assert (char_eqb 96%N ch = false) as E by (apply N.eqb_neq; congruence).
  unfold fence.
  destruct x as [|a [|b [|c x]]]; cbn [app startsWith];
    rewrite ?E, ?andb_false_r; reflexivity.
Qed.

Lemma split_last_snoc (g : str) (ch : char) :
  ch <> backtick ->
  exists p, last (split fence (g ++ [ch])) [] = p ++ [ch].
Proof.
  intros Hch.
  induction g as [|r IH|c s E IH] using (split_ind fence fence_not_nil).
  - exists []. cbn [app]. rewrite split_cons.
    + reflexivity.
    + rewrite <- (app_nil_l [ch]), startsWith_fence_snoc by exact Hch.
      reflexivity.
  - rewrite <- app_assoc, split_sep by exact fence_not_nil.
    destruct IH as [p Hp]. exists p. rewrite <- Hp.
    pose proof (split_not_nil fence (r ++ [ch])) as Hne.
    destruct (split fence (r ++ [ch])); [congruence|reflexivity].
  - cbn [app]. rewrite split_cons.
    + destruct IH as [p Hp].
      pose proof (split_not_nil fence (s ++ [ch])) as Hne.
      destruct (split fence (s ++ [ch])) as [|h t]; [congruence|].
      cbn [cons_head]. destruct t as [|q t].
      * cbn [last] in *. exists (c :: p). rewrite Hp. reflexivity.
      * exists p. rewrite <- Hp. reflexivity.
    + change (c :: s ++ [ch]) with ((c :: s) ++ [ch]).
      rewrite startsWith_fence_snoc by exact Hch. exact E.
Qed.

Lemma openEnded_nil : openEnded [] = true.
Proof. reflexivity. Qed.

Lemma openEnded_newline (g : str) : openEnded (g ++ nl) = true.
Proof.
  unfold openEnded. apply negb_true_iff.
  destruct (split_last_snoc g 10%N) as [p Hp]; [discriminate|].
  pose proof (split_parts_free fence (g ++ nl) fence_not_nil) as Hfree.
  rewrite Forall_forall in Hfree.
  assert (includes fence (p ++ [10%N]) = false) as Hp'.
  { apply Hfree. unfold nl. rewrite <- Hp.
    pose proof (split_not_nil fence (g ++ [10%N])) as Hne.
    destruct (split fence (g ++ [10%N])) as [|h t]; [congruence|].
    apply (@exists_last _ (h :: t)) in Hne as [l' [z E]].
    rewrite E, last_last. apply in_or_app. right. left. reflexivity. }
  unfold nl. rewrite Hp, <- app_assoc. cbn [app].
  rewrite includes_fence_sep by discriminate.
  rewrite includes_fence_sep in Hp' by discriminate.
  apply orb_false_iff in Hp'. destruct Hp' as [-> _]. reflexivity.
Qed.

(** Without that, the diagram can be lost: behind a Markdown that ends
    in a backtick the opening fence is read one place early, and the
    scanner finds no segment, although no part has the tag. *)
Example backtick_before_fence_hides_diagram :
  gapsUntagged [js "`x`"; []] = true /\
  openEnded (js "`x`") = false /\
  map content (extractMermaidBlocks (js "`x`" ++ weave [js "A"] [[]])) = [].
Proof. vm_compute. repeat split. Qed.

(** *** Scanning the Markdown of a converted text *)

(** The delimiters cut a text made of a leading Markdown [g], re-emitted
    diagram blocks and a Markdown behind each of them into the parts of
    [g], the tagged contents and the parts of the others, provided each
    Markdown that is followed by a block can stand before a delimiter. *)
Lemma split_weave (cs : list str) :
  forall (gs : list str) (g : str),
    length gs = length cs ->
    Forall (fun c => includes fence c = false /\ trim c = c) cs ->
    forallb openEnded (removelast (g :: gs)) = true ->
    split fence (g ++ weave cs gs) = split fence g ++ weaveParts cs gs.
Proof.
  induction cs as [|c cs IH]; intros gs g Hlen Hcs Hopen.
  - destruct gs; [|discriminate]. cbn [weave weaveParts].
    rewrite !app_nil_r. reflexivity.
  - destruct gs as [|g1 gs]; [discriminate|]. cbn [weave weaveParts].
    inversion Hcs as [|? ? [Hc1 Hc2] Hcs']; subst.
    change (removelast (g :: g1 :: gs)) with (g :: removelast (g1 :: gs))
      in Hopen.
    cbn [forallb] in Hopen. apply andb_true_iff in Hopen.
    destruct Hopen as [Hg Hopen].
    rewrite fenced_tagged.
    rewrite split_app_fence by exact Hg.
    rewrite split_app_sep;
      [|exact fence_not_nil | apply tagged_fence_free; exact Hc1].
    replace (nl ++ nl ++ g1 ++ weave cs gs)
      with ((nl ++ nl ++ g1) ++ weave cs gs)
      by (rewrite <- !app_assoc; reflexivity).
    rewrite (IH gs (nl ++ nl ++ g1)).
    + reflexivity.
    + simpl in Hlen. lia.
    + exact Hcs'.
    + destruct gs as [|g2 gs]; [reflexivity|].
      change (removelast ((nl ++ nl ++ g1) :: g2 :: gs))
        with ((nl ++ nl ++ g1) :: removelast (g2 :: gs)).
      change (removelast (g1 :: g2 :: gs))
        with (g1 :: removelast (g2 :: gs)) in Hopen.
      cbn [forallb] in *. rewrite openEnded_after_blank_line. exact Hopen.
Qed.

(** What the scanner finds in these parts: the contents, and one
    segment more for each part of the Markdown behind a block that has
    the tag. *)
Lemma weaveParts_untagged (cs gs : list str) :
  length gs = length cs ->
  Forall (fun c => includes fence c = false /\ trim c = c) cs ->
  forallb untagged gs = true ->
  map mermaidContentOf (filter isMermaidTag (weaveParts cs gs)) = cs.
Proof.
  revert gs. induction cs as [|c cs IH]; intros gs Hlen Hcs Hgs.
  - destruct gs; [reflexivity|discriminate].
  - destruct gs as [|g gs]; [discriminate|]. cbn [weaveParts].
    inversion Hcs as [|? ? [Hc1 Hc2] Hcs']; subst.
    cbn [forallb] in Hgs. apply andb_true_iff in Hgs.
    destruct Hgs as [Hg Hgs].
    cbn [filter]. rewrite isMermaidTag_tagged. cbn [map].
    rewrite mermaidContentOf_of_tagged by exact Hc2.
    rewrite filter_app, map_app.
    assert (filter isMermaidTag (split fence (nl ++ nl ++ g)) = []) as ->.
    { apply length_zero_iff_nil. rewrite filter_after_blank_line.
      apply tagFree_filter. exact Hg. }
    cbn [map app]. rewrite IH; [reflexivity| |exact Hcs'|exact Hgs].
    simpl in Hlen. lia.
Qed.

Lemma weaveParts_count (cs gs : list str) :
  length gs = length cs ->
  length (filter isMermaidTag (weaveParts cs gs)) =
  length cs + taggedBehind gs.
Proof.
  revert gs. induction cs as [|c cs IH]; intros gs Hlen.
  - destruct gs; [reflexivity|discriminate].
  - destruct gs as [|g gs]; [discriminate|].
    cbn [weaveParts filter taggedBehind length].
    rewrite isMermaidTag_tagged. cbn [length].
    rewrite filter_app, length_app, filter_after_blank_line.
    rewrite IH by (simpl in Hlen; lia). lia.
Qed.

(** Scanning such a text finds the contents of the blocks, in order and
    nothing else, exactly when no part of the Markdown around them that
    the scanner tests has the tag. *)
Lemma rescan_weave (cs gs : list str) (g : str) :
  length gs = length cs ->
  Forall (fun c => includes fence c = false /\ trim c = c) cs ->
  forallb openEnded (removelast (g :: gs)) = true ->
  (map content (extractMermaidBlocks (g ++ weave cs gs)) = cs
   <-> gapsUntagged (g :: gs) = true).
Proof.
  intros Hlen Hcs Hopen. rewrite extract_contents.
  rewrite (split_weave cs gs g Hlen Hcs Hopen).
  destruct (split fence g) as [|h t] eqn:E;
    [destruct (split_not_nil _ _ E)|].
  cbn [app tl]. rewrite filter_app, map_app.
  cbn [gapsUntagged]. unfold untaggedLeading. rewrite E. cbn [tl].
  split.
  - intros H. apply (f_equal (@length _)) in H.
    rewrite length_app, !length_map, weaveParts_count in H by exact Hlen.
    apply andb_true_iff. split.
    + apply tagFree_filter. lia.
    + apply taggedBehind_zero. lia.
  - intros H. apply andb_true_iff in H. destruct H as [H1 H2].
    apply tagFree_filter, length_zero_iff_nil in H1. rewrite H1.
    cbn [map app]. apply weaveParts_untagged; assumption.
Qed.

(** C10.  No segment that [extractMermaidBlocks] returns has the fence
    delimiter in its content; so the content can be wrapped in a fence
    again: scanning the fence tagged [mermaid] around it finds this one
    segment, with the same content. *)
Theorem content_has_no_fence (text : str) :
  Forall (fun b =>
            includes fence (content b) = false /\
            (forall u v, content b <> u ++ fence ++ v) /\
            map content (extractMermaidBlocks (fenced (content b))) =
              [content b])
         (extractMermaidBlocks text).
Proof.
  pose proof (contents_trimmed_fence_free text) as H.
  rewrite Forall_map in H. eapply Forall_impl; [|exact H].
  intros b [Hb Ht]. split; [exact Hb | split].
  - intros u v E.
    assert (includes fence (content b) = true) as F
      by (apply includes_iff; eauto).
    congruence.
  - pose proof (rescan_weave [content b] [[]] []) as R.
    cbn [weave app] in R. rewrite !app_nil_r in R. apply R.
    + reflexivity.
    + constructor; [split; assumption | constructor].
    + reflexivity.
    + reflexivity.
Qed.

(** *** The shape of the converter's result *)

Lemma createMermaidNode_Ok (block : MermaidBlock) (node : PMNode) :
  createMermaidNode block = Ok node ->
  node = mermaidNode block /\ content block <> [].
Proof.
  unfold createMermaidNode, mermaidNode, schema_text.
  destruct (content block) as [|c t]; cbn [bind]; [discriminate|].
  intros [= <-]. split; [reflexivity|discriminate].
Qed.

Lemma createMermaidNode_content (block : MermaidBlock) :
  createMermaidNode block =
  if str_eqb (content block) [] then Throw emptyTextNode
  else Ok (mermaidNode block).
Proof.
  unfold createMermaidNode, mermaidNode, schema_text.
  destruct (content block); reflexivity.
Qed.

Lemma standardNodesIfNonBlank_nil (ext : External) :
  standardNodesIfNonBlank ext [] = Ok [].
Proof. reflexivity. Qed.

(** The Markdown of the nodes pushed from a point of the loop on: the
    Markdown of the text before the next segment, then one re-emitted
    block per remaining segment, each followed by the Markdown of the
    text behind it. *)
Lemma convertFrom_shape (ext : External) (text : str) (n : nat)
    (blocks : list MermaidBlock) :
  renderOther ext paraNode = Elem (js "p") [] [] ->
  forall (i : nat) (lastIndex : Z) (nodes : list PMNode),
  convertFrom ext text n i blocks lastIndex = Ok nodes ->
  exists g gs,
    mapM (spanMarkdown ext) (spansFrom text blocks lastIndex) = Ok (g :: gs) /\
    length gs = length blocks /\
    copyMarkdown ext nodes = g ++ weave (map content blocks) gs.
Proof.
  intros Hpara. induction blocks as [|block blocks IH];
    intros i lastIndex nodes Hconv.
  - cbn [convertFrom spansFrom mapM] in *.
    exists (copyMarkdown ext nodes), []. cbn [weave map].
    rewrite app_nil_r. split; [|split; reflexivity].
    unfold spanMarkdown.
    destruct (lastIndex <? Z.of_nat (length text))%Z.
    + rewrite Hconv. reflexivity.
    + inversion Hconv; subst. reflexivity.
  - cbn [convertFrom spansFrom mapM] in *.
    assert ((if (startIndex block >? lastIndex)%Z
             then standardNodesIfNonBlank ext
                    (substring text lastIndex (startIndex block))
             else Ok []) =
            standardNodesIfNonBlank ext
              (if (startIndex block >? lastIndex)%Z
               then substring text lastIndex (startIndex block) else []))
      as Eq by (destruct (startIndex block >? lastIndex)%Z; reflexivity).
    rewrite Eq in Hconv. clear Eq.
    set (x := if (startIndex block >? lastIndex)%Z
              then substring text lastIndex (startIndex block) else []) in *.
    unfold spanMarkdown at 1.
    destruct (standardNodesIfNonBlank ext x) as [before|e];
      [|discriminate Hconv].
    cbn [bind] in Hconv |- *.
    destruct (createMermaidNode block) as [node|e] eqn:En;
      [|discriminate Hconv].
    apply createMermaidNode_Ok in En. destruct En as [-> _].
    cbn [bind] in Hconv.
    destruct (convertFrom ext text n (S i) blocks (endIndex block))
      as [later|e] eqn:El; [|discriminate Hconv].
    cbn [bind] in Hconv. inversion Hconv; subst nodes; clear Hconv.
    destruct (IH (S i) (endIndex block) later El) as [g [gs [E [L C]]]].
    rewrite E. cbn [bind].
    exists (copyMarkdown ext before), (g :: gs). cbn [map weave length].
    split; [reflexivity|]. split; [lia|].
    match goal with
    | |- copyMarkdown _ (_ ++ ?d :: ?sep ++ _) = _ =>
        change (d :: sep ++ later) with ([d] ++ sep ++ later)
    end.
    rewrite !copyMarkdown_app, copyMarkdown_mermaidNode, C.
    destruct (Nat.ltb i (n - 1)
              || (endIndex block <? Z.of_nat (length text))%Z).
    + rewrite copyMarkdown_paraNode by exact Hpara. reflexivity.
    + rewrite copyMarkdown_nil. reflexivity.
Qed.

(** C1, as far as it holds.  Take a text with diagram segments that the
    converter converts, and libraries for which the empty separator
    paragraph is rendered as an empty [<p>].  The standard converter
    then returns for each text around the segments, and the copy path
    writes a Markdown for each: [gs], the first for the text before the
    first segment.  Provided each of them that is followed by a diagram
    can stand before a delimiter ([openEnded]), scanning the Markdown
    that [domToMarkdown] gives for the converted nodes finds as many
    segments as the text had, with the same contents in the same order,
    exactly when none of these Markdowns holds a part that scans as a
    diagram ([gapsUntagged]).  And each diagram node goes out as a fence
    tagged [mermaid] around its source text. *)
Theorem copy_path_round_trip (ext : External) (text : str)
    (nodes : list PMNode) :
  extractMermaidBlocks text <> [] ->
  renderOther ext paraNode = Elem (js "p") [] [] ->
  convertMarkdownToTipTapNodes ext text = Ok nodes ->
  exists gs,
    mapM (spanMarkdown ext) (spans text) = Ok gs /\
    (forallb openEnded (removelast gs) = true ->
     (map content (extractMermaidBlocks (copyMarkdown ext nodes)) =
        map content (extractMermaidBlocks text)
      <-> gapsUntagged gs = true)) /\
    Forall (fun b => copyMarkdown ext [mermaidNode b] =
                       lines ["```mermaid"] ++ nl ++ content b ++ nl
                         ++ lines ["```"; ""; ""])
           (extractMermaidBlocks text).
Proof.
  intros Hne Hpara Hconv.
  unfold convertMarkdownToTipTapNodes in Hconv.
  destruct (extractMermaidBlocks text) as [|b bs] eqn:Eb; [congruence|].
  cbn [length Nat.eqb] in Hconv. rewrite <- Eb in *.
  destruct (convertFrom_shape ext text (S (length bs))
              (extractMermaidBlocks text) Hpara 0 0%Z nodes Hconv)
    as [g [gs [E [L C]]]].
  exists (g :: gs). split; [exact E|]. split.
  - intros Hopen. rewrite C. apply rescan_weave.
    + rewrite length_map. exact L.
    + apply contents_trimmed_fence_free.
    + exact Hopen.
  - apply Forall_forall. intros b' _.
    rewrite copyMarkdown_mermaidNode. reflexivity.
Qed.

(** The text before the diagram holds a code block: its Markdown,
    written by the copy path, has the fence delimiter twice and no part
    with the tag. *)
Lemma copy_path_round_trip_witness :
  let text := lines ["~~~js"; "x"; "~~~"; ""; "```mermaid"; "flowchart TD";
                     "A-->B"; "```"; ""; "World"] in
  let nodes :=
    [ toyCodeBlock (js "js") [js "x"];
      mermaidNode (mkMermaidBlock (lines ["flowchart TD"; "A-->B"]) 13 46
                     (js "flowchart"));
      paraNode;
      PMElem (js "paragraph") [] [PMText (js "World")] ] in
  map content (extractMermaidBlocks (copyMarkdown toyExternal nodes)) =
    map content (extractMermaidBlocks text)
  /\ Forall (fun b => copyMarkdown toyExternal [mermaidNode b] =
                        lines ["```mermaid"] ++ nl ++ content b ++ nl
                          ++ lines ["```"; ""; ""])
            (extractMermaidBlocks text).
Proof.
  cbv zeta.
  destruct (copy_path_round_trip toyExternal
              (lines ["~~~js"; "x"; "~~~"; ""; "```mermaid"; "flowchart TD";
                      "A-->B"; "```"; ""; "World"])
              [ toyCodeBlock (js "js") [js "x"];
                mermaidNode
                  (mkMermaidBlock (lines ["flowchart TD"; "A-->B"]) 13 46
                     (js "flowchart"));
                paraNode;
                PMElem (js "paragraph") [] [PMText (js "World")] ])
    as [gs [E [Hiff Hemit]]].
  - vm_compute. discriminate.
  - reflexivity.
  - vm_compute. reflexivity.
  - vm_compute in E. injection E as <-.
    split; [|exact Hemit].
    apply Hiff; vm_compute; reflexivity.
Defined.

(** C1 as stated fails.  The text holds a code block fenced with tildes
    and tagged [mermaid], which the scanner does not take for a diagram,
    and one diagram fence.  The code block comes back from the standard
    converter as a code block of language [mermaid], the copy path
    writes it with backticks, and scanning the result finds two diagram
    segments where the text had one. *)
Lemma round_trip_gains_a_segment :
  let text := lines ["# Doc"; ""; "~~~mermaid"; "X"; "~~~"; "";
                     "```mermaid"; "A"; "```"] in
  exists nodes,
    convertMarkdownToTipTapNodes toyExternal text = Ok nodes /\
    copyMarkdown toyExternal nodes =
      lines ["# Doc"; ""; "```mermaid"; "X"; ""; "```"; "";
             "```mermaid"; "A"; "```"; ""; ""] /\
    map content (extractMermaidBlocks text) = [js "A"] /\
    map content (extractMermaidBlocks (copyMarkdown toyExternal nodes)) =
      [js "X"; js "A"] /\
    map content (extractMermaidBlocks (copyMarkdown toyExternal nodes)) <>
      map content (extractMermaidBlocks text).
Proof.
  cbv zeta. eexists. split; [vm_compute; reflexivity|].
  repeat split; try (vm_compute; reflexivity). vm_compute. discriminate.
Qed.

(** ** Where the fences stand *)

Lemma find_at_eq (p s : str) (pos : Z) :
  find_at p s pos =
  if startsWith p s then pos
  else match s with
       | [] => (-1)%Z
       | _ :: s' => find_at p s' (pos + 1)
       end.
Proof. destruct s; reflexivity. Qed.

Lemma find_at_first (sep a r : str) (pos : Z) :
  sep <> [] ->
  includes sep (a ++ removelast sep) = false ->
  find_at sep (a ++ sep ++ r) pos = (pos + Z.of_nat (length a))%Z.
Proof.
  intros Hsep. revert pos. induction a as [|c a IH]; intros pos H.
  - cbn [app length]. rewrite find_at_eq, startsWith_app. simpl. lia.
  - rewrite find_at_eq.
    rewrite no_earlier_sep by assumption.
    cbn [app]. rewrite IH by (eapply includes_tail; exact H).
    cbn [length]. lia.
Qed.

Lemma indexOf_first (sep pre a r : str) :
  sep <> [] ->
  includes sep (a ++ removelast sep) = false ->
  indexOf sep (pre ++ a ++ sep ++ r) (Z.of_nat (length pre)) =
  Z.of_nat (length pre + length a).
Proof.
  intros Hsep H. unfold indexOf, clamp.
  rewrite Z.min_r by (rewrite !length_app; lia).
  rewrite Z.max_r by lia. rewrite Nat2Z.id.
  rewrite skipn_app, skipn_all, Nat.sub_diag. cbn [app skipn].
  rewrite find_at_first by assumption. lia.
Qed.

Lemma fenceOffsets_cons (acc : Z) (a p : str) (t : list str) :
  fenceOffsets acc (a :: p :: t) =
  (acc + Z.of_nat (length a))%Z
    :: fenceOffsets (acc + Z.of_nat (length a) + 3) (p :: t).
Proof. reflexivity. Qed.

(** The first loop finds every fence: the offsets it pushes are those
    of the separators of the split, one per part but the last. *)
Lemma fencePositions_from (parts : list str) :
  forall (pre s : str),
    split fence s = parts ->
    fencePositions (pre ++ s) (length parts - 1) (Z.of_nat (length pre)) =
    fenceOffsets (Z.of_nat (length pre)) parts.
Proof.
  induction parts as [|a parts IH]; intros pre s Hs; [reflexivity|].
  destruct parts as [|p t]; [reflexivity|].
  destruct (split_two fence s a p t fence_not_nil Hs) as [r [-> [Hr Hf]]].
  replace (length (a :: p :: t) - 1) with (S (length (p :: t) - 1))
    by (simpl; lia).
  rewrite fenceOffsets_cons. cbn [fencePositions].
  rewrite indexOf_first by (exact fence_not_nil || exact Hf).
  destruct (Z.of_nat (length pre + length a) =? -1)%Z eqn:E;
    [apply Z.eqb_eq in E; lia|].
  specialize (IH (pre ++ a ++ fence) r Hr).
  rewrite <- !app_assoc in IH.
  replace (Z.of_nat (length (pre ++ a ++ fence)))
    with (Z.of_nat (length pre + length a) + 3)%Z in IH
    by (rewrite !length_app; change (length fence) with 3; lia).
  rewrite IH.
  replace (Z.of_nat (length pre + length a))
    with (Z.of_nat (length pre) + Z.of_nat (length a))%Z by lia.
  reflexivity.
Qed.

Lemma fencePositions_offsets (text : str) :
  fencePositions text (length (split fence text) - 1) 0 =
  fenceOffsets 0 (split fence text).
Proof. apply (fencePositions_from (split fence text) [] text). reflexivity. Qed.

Lemma fenceOffsets_length (acc : Z) (parts : list str) :
  length (fenceOffsets acc parts) = length parts - 1.
Proof.
  revert acc. induction parts as [|p parts IH]; intros acc; [reflexivity|].
  destruct parts as [|q parts]; [reflexivity|].
  rewrite fenceOffsets_cons. cbn [length]. rewrite IH. simpl. lia.
Qed.

(** So [positions[i]] is defined for every index of the second loop. *)
Lemma fencePositions_exact (text : str) :
  length (fencePositions text (length (split fence text) - 1) 0) =
  length (tl (split fence text)).
Proof.
  rewrite fencePositions_offsets, fenceOffsets_length.
  destruct (split fence text); simpl; lia.
Qed.

(** *** One well-formed diagram fence *)

Lemma substring_prefix (a r : str) :
  substring (a ++ r) 0 (Z.of_nat (length a)) = a.
Proof.
  unfold substring, clamp. rewrite length_app.
  rewrite (Z.min_r _ 0) by lia. rewrite (Z.max_l 0 0) by lia.
  rewrite (Z.min_r _ (Z.of_nat (length a))) by lia.
  rewrite (Z.max_r 0 (Z.of_nat (length a))) by lia.
  rewrite Z.min_l, Z.max_r by lia.
  rewrite Z.sub_0_r, Nat2Z.id. cbn [Z.to_nat skipn].
  rewrite firstn_app, firstn_all, Nat.sub_diag. cbn [firstn].
  apply app_nil_r.
Qed.

Lemma substring_from_suffix (a r : str) :
  substring_from (a ++ r) (Z.of_nat (length a)) = r.
Proof.
  unfold substring_from, substring, clamp. rewrite length_app.
  rewrite (Z.min_r _ (Z.of_nat (length a))) by lia.
  rewrite (Z.max_r 0 (Z.of_nat (length a))) by lia.
  rewrite Z.min_l by lia. rewrite (Z.max_r 0) by lia.
  rewrite Z.min_l, Z.max_r by lia.
  rewrite Nat2Z.id, skipn_app, skipn_all, Nat.sub_diag. cbn [app skipn].
  apply firstn_all2. lia.
Qed.

(** X4.  Apart from the defect shown for C2 and C4, the converter does
    what C2 says.  The text is [before], a fence tagged [mermaid] around
    [C], and [after]; the two delimiters are the only ones, and the tag
    is not the first non-blank line of [after].  Then the scanner returns
    one segment.  The converter converts [before] first (nothing when it
    is blank); when [C] is blank it then throws the [RangeError] of the
    empty text node; otherwise it converts [after] and returns the nodes
    of [before], one diagram node with source text [C.trim()], an empty
    paragraph when [after] is not empty, and the nodes of [after]. *)
Theorem single_fence_conversion (ext : External) (before C after : str) :
  includes fence (before ++ removelast fence) = false ->
  includes fence C = false ->
  includes fence after = false ->
  isMermaidTag after = false ->
  let text := before ++ fence ++ tagged C ++ fence ++ after in
  let block :=
    mkMermaidBlock (trim C) (Z.of_nat (length before))
      (Z.of_nat (length before + 3 + length (tagged C) + 3))
      (detectDiagramType (trim C)) in
  extractMermaidBlocks text = [block] /\
  convertMarkdownToTipTapNodes ext text =
    (nodesBefore <- standardNodesIfNonBlank ext before ;;
     if str_eqb (trim C) [] then Throw emptyTextNode
     else
       nodesAfter <- standardNodesIfNonBlank ext after ;;
       Ok (nodesBefore ++ [mermaidNode block]
             ++ (if str_eqb after [] then [] else [paraNode])
             ++ nodesAfter)).
Proof.
  intros Hb HC Ha Htag. cbv zeta.
  set (text := before ++ fence ++ tagged C ++ fence ++ after).
  assert (split fence text = [before; tagged C; after]) as Hsplit.
  { unfold text.
    rewrite split_app_sep by (exact fence_not_nil || exact Hb).
    rewrite split_app_sep
      by (exact fence_not_nil || (apply tagged_fence_free; exact HC)).
    rewrite split_free by exact Ha. reflexivity. }
  assert (extractMermaidBlocks text =
          [mkMermaidBlock (trim C) (Z.of_nat (length before))
             (Z.of_nat (length before + 3 + length (tagged C) + 3))
             (detectDiagramType (trim C))]) as Hblocks.
  { unfold extractMermaidBlocks.
    rewrite fencePositions_offsets, Hsplit.
    cbn [fenceOffsets tl scanParts]. rewrite isMermaidTag_tagged, Htag.
    cbn [nth nth_error Nat.add].
    assert (mermaidContentOf (tagged C) = trim C) as ->.
    { unfold tagged. rewrite mermaidContentOf_tagged by reflexivity.
      apply trim_blank_r. reflexivity. }
    apply f_equal2; [|reflexivity]. f_equal; lia. }
  split; [exact Hblocks|].
  unfold convertMarkdownToTipTapNodes. rewrite Hblocks.
  cbn [length Nat.eqb convertFrom startIndex endIndex Nat.sub Nat.ltb
       Nat.leb orb].
  assert (Z.of_nat (length text) =
          Z.of_nat (length before + 3 + length (tagged C) + 3)
          + Z.of_nat (length after))%Z as Hlen.
  { unfold text. rewrite !length_app. simpl length. lia. }
  assert (standardNodesIfNonBlank ext [] = Ok []) as Hnil by reflexivity.
  (* the text before the fence *)
  replace (if (Z.of_nat (length before) >? 0)%Z
           then standardNodesIfNonBlank ext
                  (substring text 0 (Z.of_nat (length before)))
           else Ok [])
    with (standardNodesIfNonBlank ext before).
  2:{ destruct (Z.of_nat (length before) >? 0)%Z eqn:E.
      - unfold text. rewrite substring_prefix. reflexivity.
      - rewrite Z.gtb_ltb in E. apply Z.ltb_ge in E.
        destruct before; [exact Hnil | simpl length in E; lia]. }
  destruct (standardNodesIfNonBlank ext before) as [nodesBefore|e];
    [|reflexivity].
  cbn [bind].
  (* the diagram node *)
  rewrite createMermaidNode_content. cbn [content].
  destruct (str_eqb (trim C) []); [reflexivity|]. cbn [bind].
  (* the text after it *)
  replace (if (Z.of_nat (length before + 3 + length (tagged C) + 3)
               <? Z.of_nat (length text))%Z
           then standardNodesIfNonBlank ext
                  (substring_from text
                     (Z.of_nat (length before + 3 + length (tagged C) + 3)))
           else Ok [])
    with (standardNodesIfNonBlank ext after).
  2:{ destruct (Z.of_nat (length before + 3 + length (tagged C) + 3)
                <? Z.of_nat (length text))%Z eqn:E.
      - unfold text.
        replace (before ++ fence ++ tagged C ++ fence ++ after)
          with ((before ++ fence ++ tagged C ++ fence) ++ after)
          by (rewrite <- !app_assoc; reflexivity).
        replace (length before + 3 + length (tagged C) + 3)
          with (length (before ++ fence ++ tagged C ++ fence))
          by (rewrite !length_app; simpl length; lia).
        rewrite substring_from_suffix. reflexivity.
      - apply Z.ltb_ge in E.
        assert (length after = 0) as Hn by lia.
        destruct after; [exact Hnil | discriminate Hn]. }
  destruct (standardNodesIfNonBlank ext after) as [nodesAfter|e];
    [|reflexivity].
  cbn [bind].
  assert ((if str_eqb after [] then [] else [paraNode]) =
          (if (Z.of_nat (length before + 3 + length (tagged C) + 3)
               <? Z.of_nat (length text))%Z
           then [paraNode] else [])) as ->.
  { destruct (Z.of_nat (length before + 3 + length (tagged C) + 3)
              <? Z.of_nat (length text))%Z eqn:E.
    - apply Z.ltb_lt in E. assert (length after <> 0) as Hn by lia.
      destruct after; [exfalso; apply Hn; reflexivity | reflexivity].
    - apply Z.ltb_ge in E. assert (length after = 0) as Hn by lia.
      destruct after; [reflexivity | discriminate Hn]. }
  reflexivity.
Qed.

(** ** The scenarios of the specification *)

Example sniffer_plain :
  hasMarkdownSyntax (js "plain sentence with no markup") = false.
Proof. vm_compute. reflexivity. Qed.

Example sniffer_heading : hasMarkdownSyntax (js "# Heading") = true.
Proof. vm_compute. reflexivity. Qed.

Example sniffer_bold : hasMarkdownSyntax (js "**bold**") = true.
Proof. vm_compute. reflexivity. Qed.

Example scenario_A :
  convertMarkdownToTipTapNodes toyExternal
    (lines ["Hello"; ""; "```mermaid"; "flowchart TD"; "A-->B"; "```"; "";
            "World"]) =
  Ok [ PMElem (js "paragraph") [] [PMText (js "Hello")];
       mermaidNode (mkMermaidBlock (lines ["flowchart TD"; "A-->B"]) 7 40
                      (js "flowchart"));
       paraNode;
       PMElem (js "paragraph") [] [PMText (js "World")] ].
Proof. vm_compute. reflexivity. Qed.

Example scenario_B :
  extractMermaidBlocks (lines ["text"; "```python"; "print(1)"; "```"]) = [].
Proof. vm_compute. reflexivity. Qed.

Example scenario_C :
  domToMarkdown (Elem (js "div") [] [Elem (js "h2") [] [Text (js "Title")]])
  = lines ["## Title"; ""; ""].
Proof. vm_compute. reflexivity. Qed.

Example scenario_D :
  domToMarkdown
    (Elem (js "div") []
       [ Elem (js "ul") []
           [ Elem (js "li") [] [Elem (js "p") [] [Text (js "a")]];
             Elem (js "li") [] [Elem (js "p") [] [Text (js "b")]] ] ])
  = lines ["- a"; "- b"; ""; ""].
Proof. vm_compute. reflexivity. Qed.

Example scenario_E :
  map endIndex (extractMermaidBlocks (lines ["```mermaid"; "graph TD"])) =
  [ Z.of_nat (length (lines ["```mermaid"; "graph TD"])) ].
Proof. vm_compute. reflexivity. Qed.

(* ===================================================================== *)
(** * Part II, continued: the rest of the code                            *)
(* ===================================================================== *)

(** ** The scanner: what a segment covers *)

Lemma scanParts_shift (text : str) (x : Z) (positions : list Z) (i : nat)
    (rest : list str) :
  scanParts text (x :: positions) (S i) rest =
  scanParts text positions i rest.
Proof.
  revert i. induction rest as [|p rest IH]; intros i; [reflexivity|].
  cbn [scanParts]. rewrite IH. reflexivity.
Qed.

Lemma split_one (s p : str) : split fence s = [p] -> s = p.
Proof.
  intros H. pose proof (join_split fence s fence_not_nil) as J.
  rewrite H in J. simpl in J. congruence.
Qed.

Lemma scan_delimited (parts : list str) :
  forall (pre s : str),
    split fence s = parts ->
    let blocks :=
      scanParts (pre ++ s) (fenceOffsets (Z.of_nat (length pre)) parts) 0
        (tl parts) in
    Forall (fun b =>
              delimited (pre ++ s) b /\
              (Z.of_nat (length pre + length (hd [] parts))
               <= startIndex b)%Z) blocks /\
    StronglySorted precedes blocks.
Proof.
  induction parts as [|a parts IH]; intros pre s Hs; cbv zeta.
  { split; constructor. }
  destruct parts as [|p t].
  { split; constructor. }
  destruct (split_two fence s a p t fence_not_nil Hs) as [r [-> [Hr Hf]]].
  rewrite fenceOffsets_cons. cbn [tl hd].
  specialize (IH (pre ++ a ++ fence) r Hr). cbv zeta in IH.
  replace (Z.of_nat (length (pre ++ a ++ fence)))
    with (Z.of_nat (length pre) + Z.of_nat (length a) + 3)%Z in IH
    by (rewrite !length_app; change (length fence) with 3; lia).
  rewrite <- !app_assoc in IH. cbn [tl hd] in IH.
  destruct IH as [IHf IHs].
  set (text := pre ++ a ++ fence ++ r) in *.
  set (offs := fenceOffsets
                 (Z.of_nat (length pre) + Z.of_nat (length a) + 3)
                 (p :: t)) in *.
  cbn [scanParts]. rewrite scanParts_shift.
  assert (Forall (fun b =>
            delimited text b /\
            (Z.of_nat (length pre + length a) <= startIndex b)%Z)
            (scanParts text offs 0 t)) as Hrest.
  { eapply Forall_impl; [|exact IHf]. cbv beta. intros b [Hd Hl].
    split; [exact Hd|]. rewrite !length_app in Hl.
    change (length fence) with 3 in Hl. lia. }
  destruct (isMermaidTag p) eqn:Htag; [|split; assumption].
  split.
  - constructor; [|exact Hrest]. cbn [startIndex nth]. split; [|lia].
    destruct t as [|q t'].
    + (* the last part *)
      pose proof (split_parts_free fence r fence_not_nil) as F.
      rewrite Hr in F. inversion F as [|? ? Fp _]; subst.
      apply split_one in Hr. subst r.
      exists (pre ++ a), p, []. cbn [startIndex endIndex content].
      split; [unfold text; rewrite <- !app_assoc, app_nil_r; reflexivity|].
      split; [rewrite length_app; lia|].
      split; [exact Htag|]. split; [reflexivity|].
      left. split; [reflexivity|]. split; [exact Fp | reflexivity].
    + destruct (split_two fence r p q t' fence_not_nil Hr)
        as [r' [-> [Hr' Hf']]].
      exists (pre ++ a), p, (fence ++ r').
      cbn [startIndex endIndex content].
      unfold offs. rewrite fenceOffsets_cons. cbn [nth_error Nat.add].
      split; [unfold text; rewrite <- !app_assoc; reflexivity|].
      split; [rewrite length_app; lia|].
      split; [exact Htag|]. split; [reflexivity|].
      right. exists r'. split; [reflexivity|]. split; [exact Hf'|].
      rewrite length_app. lia.
  - constructor; [exact IHs|].
    destruct t as [|q t']; [constructor|].
    eapply Forall_impl; [|exact IHf]. cbv beta. intros b [Hd Hl].
    unfold precedes. cbn [startIndex endIndex nth].
    rewrite !length_app in Hl. change (length fence) with 3 in Hl.
    cbn [hd] in Hl.
    unfold offs. rewrite fenceOffsets_cons. cbn [nth_error Nat.add]. lia.
Qed.

Lemma extract_offsets (text : str) :
  extractMermaidBlocks text =
  scanParts text (fenceOffsets 0 (split fence text)) 0
    (tl (split fence text)).
Proof. unfold extractMermaidBlocks. rewrite fencePositions_offsets. reflexivity. Qed.

Lemma substring_middle (u w v : str) :
  substring (u ++ w ++ v) (Z.of_nat (length u))
    (Z.of_nat (length u + length w)) = w.
Proof.
  unfold substring, clamp. rewrite !length_app.
  rewrite (Z.min_r _ (Z.of_nat (length u))) by lia.
  rewrite (Z.max_r 0 (Z.of_nat (length u))) by lia.
  rewrite (Z.min_r _ (Z.of_nat (length u + length w))) by lia.
  rewrite (Z.max_r 0 (Z.of_nat (length u + length w))) by lia.
  rewrite Z.min_l, Z.max_r by lia.
  rewrite Nat2Z.id.
  replace (Z.to_nat (Z.of_nat (length u + length w) - Z.of_nat (length u)))
    with (length w) by lia.
  rewrite skipn_app, skipn_all, Nat.sub_diag. cbn [app skipn].
  rewrite firstn_app, firstn_all, Nat.sub_diag. cbn [firstn].
  apply app_nil_r.
Qed.

Lemma extract_delimited (text : str) :
  Forall (delimited text) (extractMermaidBlocks text).
Proof.
  rewrite extract_offsets.
  pose proof (scan_delimited (split fence text) [] text eq_refl) as [H _].
  cbn [app length] in H. eapply Forall_impl; [|exact H].
  cbv beta. intros b [Hd _]. exact Hd.
Qed.

(** X1.  Every segment starts at a fence delimiter of the text and ends
    behind the next delimiter, or at the end of the text when no
    delimiter follows; so its offsets are within the text, at least three
    apart, and the text has the delimiter at [startIndex]. *)
Theorem segments_are_delimited (text : str) :
  Forall (fun b =>
            delimited text b /\
            (0 <= startIndex b)%Z /\
            (startIndex b + 3 <= endIndex b)%Z /\
            (endIndex b <= Z.of_nat (length text))%Z /\
            substring text (startIndex b) (startIndex b + 3) = fence)
         (extractMermaidBlocks text).
Proof.
  pose proof (extract_delimited text) as H.
  eapply Forall_impl; [|exact H].
  cbv beta. intros b Hd. split; [exact Hd|].
  destruct Hd as [u [w [v [Et [Es [_ [_ He]]]]]]].
  assert (Z.of_nat (length text) =
          Z.of_nat (length u + 3 + length w + length v)) as Hlen.
  { rewrite Et, !length_app. change (length fence) with 3. lia. }
  split; [lia|]. split; [|split].
  - destruct He as [[_ [_ He]] | [v' [_ [_ He]]]]; lia.
  - destruct He as [[_ [_ He]] | [v' [Ev [_ He]]]]; [lia|].
    subst v. rewrite length_app in Hlen. change (length fence) with 3 in Hlen.
    lia.
  - rewrite Es, Et.
    replace (Z.of_nat (length u) + 3)%Z
      with (Z.of_nat (length u + length fence))
      by (change (length fence) with 3; lia).
    rewrite (app_assoc fence w v). rewrite <- (app_assoc fence w v).
    apply substring_middle.
Qed.

(** X2.  The segments come in the order of the text: each starts behind
    the start of every earlier one, and an earlier one ends at most three
    code units (the shared delimiter) behind the start of a later one. *)
Theorem segments_in_order (text : str) :
  StronglySorted precedes (extractMermaidBlocks text).
Proof.
  rewrite extract_offsets.
  pose proof (scan_delimited (split fence text) [] text eq_refl) as [_ H].
  exact H.
Qed.

(** X3.  The content of a segment is text of the document: it is
    trimmed, and it is a contiguous piece of the text that lies inside
    the segment, behind its opening delimiter. *)
Theorem segment_content_from_text (text : str) :
  Forall (fun b =>
            trim (content b) = content b /\
            exists x y,
              text = x ++ content b ++ y /\
              (startIndex b + 3 <= Z.of_nat (length x))%Z /\
              (Z.of_nat (length x + length (content b)) <= endIndex b)%Z)
         (extractMermaidBlocks text).
Proof.
  pose proof (extract_delimited text) as H.
  eapply Forall_impl; [|exact H]. cbv beta.
  intros b [u [w [v [Et [Es [_ [Ec He]]]]]]].
  split; [rewrite Ec; apply mermaidContentOf_trimmed|].
  destruct (mermaidContentOf_infix w) as [x [y Ew]]. rewrite <- Ec in Ew.
  exists (u ++ fence ++ x), (y ++ v). split; [|split].
  - rewrite Et, Ew. rewrite <- !app_assoc. reflexivity.
  - rewrite !length_app. change (length fence) with 3. lia.
  - apply (f_equal (@length _)) in Ew. rewrite !length_app in Ew.
    rewrite !length_app. change (length fence) with 3.
    destruct He as [[Ev [_ He]] | [v' [_ [_ He]]]].
    + rewrite He, Et, !length_app. change (length fence) with 3. lia.
    + lia.
Qed.

(** A text to which [single_fence_conversion] applies: a line and a
    closed fence tagged [mermaid] behind it. *)
Lemma single_fence_conversion_witness :
  extractMermaidBlocks
    (js "Intro" ++ nl ++ fence ++ tagged (js "graph TD") ++ fence ++ []) =
  [ mkMermaidBlock (trim (js "graph TD")) (Z.of_nat (length (js "Intro" ++ nl)))
      (Z.of_nat (length (js "Intro" ++ nl) + 3
                 + length (tagged (js "graph TD")) + 3))
      (detectDiagramType (trim (js "graph TD"))) ] /\
  convertMarkdownToTipTapNodes toyExternal
    ((js "Intro" ++ nl) ++ fence ++ tagged (js "graph TD") ++ fence ++ []) =
    (nodesBefore <- standardNodesIfNonBlank toyExternal (js "Intro" ++ nl) ;;
     if str_eqb (trim (js "graph TD")) [] then Throw emptyTextNode
     else
       nodesAfter <- standardNodesIfNonBlank toyExternal [] ;;
       Ok (nodesBefore
             ++ [mermaidNode
                   (mkMermaidBlock (trim (js "graph TD"))
                      (Z.of_nat (length (js "Intro" ++ nl)))
                      (Z.of_nat (length (js "Intro" ++ nl) + 3
                                 + length (tagged (js "graph TD")) + 3))
                      (detectDiagramType (trim (js "graph TD"))))]
             ++ (if str_eqb [] [] then [] else [paraNode])
             ++ nodesAfter)).
Proof.
  apply (single_fence_conversion toyExternal (js "Intro" ++ nl)
           (js "graph TD") []); reflexivity.
Defined.

(** ** The converter: where an exception comes from *)

Lemma standardNodesIfNonBlank_throw (ext : External) (x e : str) :
  standardNodesIfNonBlank ext x = Throw e ->
  In x (nonBlank x) /\ standardNodes ext x = Throw e.
Proof.
  unfold standardNodesIfNonBlank, nonBlank.
  destruct (str_eqb (trim x) []); [discriminate|].
  intros H. split; [left; reflexivity | exact H].
Qed.

Lemma convertFrom_throw (ext : External) (text : str) (n : nat)
    (blocks : list MermaidBlock) :
  forall (i : nat) (lastIndex : Z) (e : str),
    convertFrom ext text n i blocks lastIndex = Throw e ->
    (exists x, In x (delegatedFrom text blocks lastIndex) /\
               standardNodes ext x = Throw e) \/
    (e = emptyTextNode /\ exists b, In b blocks /\ content b = []).
Proof.
  induction blocks as [|block blocks IH]; intros i lastIndex e H;
    cbn [convertFrom delegatedFrom] in *.
  - left. destruct (lastIndex <? Z.of_nat (length text))%Z; [|discriminate].
    apply standardNodesIfNonBlank_throw in H. eauto.
  - destruct (startIndex block >? lastIndex)%Z.
    + destruct (standardNodesIfNonBlank ext
                  (substring text lastIndex (startIndex block)))
        as [before|e'] eqn:Eb; cbn [bind] in H.
      * destruct (createMermaidNode block) as [node|e'] eqn:En;
          cbn [bind] in H.
        -- destruct (convertFrom ext text n (S i) blocks (endIndex block))
             as [later|e''] eqn:El; cbn [bind] in H; [discriminate|].
           inversion H; subst e''.
           destruct (IH _ _ _ El) as [[x [Hx Hs]]|[He [b [Hb Hc]]]].
           ++ left. exists x.
              split; [apply in_or_app; right; exact Hx | exact Hs].
           ++ right. split; [exact He|]. exists b.
              split; [right; exact Hb | exact Hc].
        -- inversion H; subst e'. right.
           rewrite createMermaidNode_content in En.
           destruct (str_eqb (content block) []) eqn:Ec; [|discriminate].
           apply str_eqb_eq in Ec. inversion En. split; [reflexivity|].
           exists block. split; [left; reflexivity | exact Ec].
      * inversion H; subst e'. left.
        apply standardNodesIfNonBlank_throw in Eb. destruct Eb as [Hx Hs].
        eexists. split; [apply in_or_app; left; exact Hx | exact Hs].
    + cbn [bind] in H.
      destruct (createMermaidNode block) as [node|e'] eqn:En;
        cbn [bind] in H.
      * destruct (convertFrom ext text n (S i) blocks (endIndex block))
          as [later|e''] eqn:El; cbn [bind] in H; [discriminate|].
        inversion H; subst e''.
        destruct (IH _ _ _ El) as [[x [Hx Hs]]|[He [b [Hb Hc]]]].
        -- left. exists x. split; [exact Hx | exact Hs].
        -- right. split; [exact He|]. exists b.
           split; [right; exact Hb | exact Hc].
      * inversion H; subst e'. right.
        rewrite createMermaidNode_content in En.
        destruct (str_eqb (content block) []) eqn:Ec; [|discriminate].
        apply str_eqb_eq in Ec. inversion En. split; [reflexivity|].
        exists block. split; [left; reflexivity | exact Ec].
Qed.

(** A fence tagged [mermaid] with nothing in it is a segment with empty
    content, and the converter throws the [RangeError] of the empty text
    node, whatever the libraries do. *)
Example empty_diagram_throws (ext : External) :
  convertMarkdownToTipTapNodes ext (lines ["```mermaid"; "```"]) =
  Throw emptyTextNode.
Proof. reflexivity. Qed.

(** X5.  For a text with diagram segments the converter throws only
    what the standard converter throws on one of the texts handed to it
    (the exception of [convertMarkdownToHTML] or [parseSlice]), or the
    [RangeError] of the empty text node, and this only when a segment
    has empty content.  When every text handed to the standard converter
    converts and no segment has empty content, the converter returns. *)
Theorem converter_exceptions (ext : External) (text : str) :
  extractMermaidBlocks text <> [] ->
  (forall e, convertMarkdownToTipTapNodes ext text = Throw e ->
             (exists x, In x (delegated text) /\
                        standardNodes ext x = Throw e) \/
             (e = emptyTextNode /\
              exists b, In b (extractMermaidBlocks text) /\
                        content b = [])) /\
  ((forall x, In x (delegated text) ->
              exists ns, standardNodes ext x = Ok ns) ->
   (forall b, In b (extractMermaidBlocks text) -> content b <> []) ->
   exists nodes, convertMarkdownToTipTapNodes ext text = Ok nodes).
Proof.
  intros Hne.
  assert (forall e, convertMarkdownToTipTapNodes ext text = Throw e ->
             (exists x, In x (delegated text) /\
                        standardNodes ext x = Throw e) \/
             (e = emptyTextNode /\
              exists b, In b (extractMermaidBlocks text) /\
                        content b = [])) as H1.
  { intros e H. unfold convertMarkdownToTipTapNodes in H.
    destruct (extractMermaidBlocks text) as [|b bs] eqn:Eb; [congruence|].
    cbn [length Nat.eqb] in H. unfold delegated. rewrite Eb.
    eapply convertFrom_throw. exact H. }
  split; [exact H1|]. intros Hall Hcontent.
  destruct (convertMarkdownToTipTapNodes ext text) as [nodes|e] eqn:E.
  - exists nodes. reflexivity.
  - destruct (H1 e eq_refl) as [[x [Hx Hs]]|[_ [b [Hb Hc]]]].
    + destruct (Hall x Hx) as [ns Hns]. congruence.
    + destruct (Hcontent b Hb Hc).
Qed.

Lemma converter_exceptions_witness :
  (forall e,
     convertMarkdownToTipTapNodes failingExternal
       (lines ["text"; "```mermaid"; "A"; "```"]) = Throw e ->
     (exists x, In x (delegated (lines ["text"; "```mermaid"; "A"; "```"])) /\
                standardNodes failingExternal x = Throw e) \/
     (e = emptyTextNode /\
      exists b,
        In b (extractMermaidBlocks
                (lines ["text"; "```mermaid"; "A"; "```"])) /\
        content b = [])) /\
  ((forall x, In x (delegated (lines ["text"; "```mermaid"; "A"; "```"])) ->
              exists ns, standardNodes failingExternal x = Ok ns) ->
   (forall b,
      In b (extractMermaidBlocks
              (lines ["text"; "```mermaid"; "A"; "```"])) ->
      content b <> []) ->
   exists nodes,
     convertMarkdownToTipTapNodes failingExternal
       (lines ["text"; "```mermaid"; "A"; "```"]) = Ok nodes).
Proof.
  apply (converter_exceptions failingExternal
           (lines ["text"; "```mermaid"; "A"; "```"])).
  vm_compute. discriminate.
Defined.

(** ** The paste handler *)

(** X6.  The conversion step of the paste handler is the HTML path of
    the converter, behind one call of [marked] on the whole text: when
    that call throws the step throws, otherwise the step gives what
    [convertMarkdownToHTML] followed by [parseSlice] gives. *)
Theorem paste_conversion_is_standard_path (ext : External) (text : str) :
  pasteConversion ext text =
  (_ <- marked ext text ;; standardNodes ext text).
Proof.
  unfold pasteConversion, standardNodes, convertMarkdownToHTML.
  destruct (marked ext text) as [html|e] eqn:E; cbn [bind]; [|reflexivity].
  destruct (Nat.ltb 1 (length (nonBlankLines text))
            && negb (hasBlockSyntax (nonBlankLines text)));
    reflexivity.
Qed.

(** X7.  A paste is one atomic edit or none: the handler dispatches
    exactly one transaction when it returns [true], and none when it
    returns [false]; it calls [preventDefault] exactly when the text
    passes the gate, and logs exactly when the conversion throws. *)
Theorem paste_dispatches_once_iff_handled (ext : External)
    (text : option str) (w : World) :
  let r := handlePaste ext text w in
  (exists l, dispatched (snd r) = dispatched w ++ l /\
             length l = if fst r then 1 else 0) /\
  (defaultPrevented (snd r) =
     match text with
     | Some t => if hasMarkdownSyntax t then true else defaultPrevented w
     | None => defaultPrevented w
     end) /\
  (exists l, consoleErrors (snd r) = consoleErrors w ++ l /\
             length l =
               match text with
               | Some t =>
                   if hasMarkdownSyntax t
                   then match pasteConversion ext t with
                        | Ok _ => 0
                        | Throw _ => 1
                        end
                   else 0
               | None => 0
               end).
Proof.
  cbv zeta.
  assert (hasMarkdownSyntax [] = false) as Hnil by (vm_compute; reflexivity).
  destruct text as [[|c t]|]; cbn [handlePaste].
  - rewrite Hnil. repeat split; exists []; rewrite app_nil_r; split; reflexivity.
  - destruct (hasMarkdownSyntax (c :: t)); cbn [negb].
    + unfold tryBody. destruct (pasteConversion ext (c :: t)) as [slice|e];
        cbn [bind fst snd dispatched defaultPrevented consoleErrors
             preventDefault dispatchReplaceSelection consoleError].
      * repeat split; [exists [slice] | exists []; rewrite app_nil_r];
          split; reflexivity.
      * repeat split; [exists []; rewrite app_nil_r | exists [e]];
          split; reflexivity.
    + repeat split; exists []; rewrite app_nil_r; split; reflexivity.
  - repeat split; exists []; rewrite app_nil_r; split; reflexivity.
Qed.

(** ** Regular expressions: the matcher decides the language *)

Lemma nullable_Matches (r : regex) : nullable r = true <-> Matches r [].
Proof.
  split.
  - induction r; simpl; intros H; try discriminate.
    + constructor.
    + apply andb_true_iff in H. destruct H as [H1 H2].
      change (@nil N) with (@nil N ++ []). constructor; auto.
    + apply orb_true_iff in H. destruct H; [apply MAltL | apply MAltR]; auto.
    + constructor.
  - intros H. remember [] as w eqn:Hw. induction H; simpl; try reflexivity;
      try discriminate.
    + apply app_eq_nil in Hw. destruct Hw. rewrite IHMatches1, IHMatches2; auto.
    + rewrite IHMatches; auto.
    + rewrite IHMatches, orb_true_r; auto.
Qed.

Lemma deriv_Matches_intro (r : regex) (s : str) :
  Matches r s -> forall c w, s = c :: w -> Matches (deriv c r) w.
Proof.
  induction 1 as [|p d Hp|a b u v Ha IHa Hb IHb|a b u Ha IHa|a b u Hb IHb
                  |a|a u v Ha IHa Hs IHs]; intros c w E; simpl.
  - discriminate.
  - inversion E; subst. rewrite Hp. constructor.
  - destruct u as [|x u].
    + simpl in E. subst v.
      assert (nullable a = true) as -> by (apply nullable_Matches; exact Ha).
      apply MAltR. apply IHb. reflexivity.
    + inversion E; subst.
      destruct (nullable a).
      * apply MAltL. constructor; [apply IHa; reflexivity | exact Hb].
      * constructor; [apply IHa; reflexivity | exact Hb].
  - apply MAltL. apply IHa. exact E.
  - apply MAltR. apply IHb. exact E.
  - discriminate.
  - destruct u as [|x u].
    + simpl in E. apply IHs in E. simpl in E. exact E.
    + inversion E; subst. constructor; [apply IHa; reflexivity | exact Hs].
Qed.

Lemma deriv_Matches_elim (r : regex) :
  forall c w, Matches (deriv c r) w -> Matches r (c :: w).
Proof.
  induction r as [| |p|a IHa b IHb|a IHa b IHb|a IHa]; intros c w H;
    simpl in H.
  - inversion H.
  - inversion H.
  - destruct (p c) eqn:Hp; inversion H; subst. constructor. exact Hp.
  - destruct (nullable a) eqn:Na.
    + inversion H; subst.
      * match goal with
        | M : Matches (Seq _ _) _ |- _ => inversion M; subst
        end.
        change (c :: ?x ++ ?y) with ((c :: x) ++ y).
        constructor; [apply IHa; assumption | assumption].
      * change (c :: w) with ([] ++ c :: w).
        constructor; [apply nullable_Matches; exact Na | apply IHb; assumption].
    + inversion H; subst.
      change (c :: ?x ++ ?y) with ((c :: x) ++ y).
      constructor; [apply IHa; assumption | assumption].
  - inversion H; subst; [apply MAltL; apply IHa | apply MAltR; apply IHb];
      assumption.
  - inversion H; subst.
    change (c :: ?x ++ ?y) with ((c :: x) ++ y).
    constructor; [apply IHa; assumption | assumption].
Qed.

Lemma matches_prefix_complete (w : str) :
  forall r t, Matches r w -> matches_prefix r (w ++ t) = true.
Proof.
  induction w as [|c w IH]; intros r t H.
  - apply nullable_Matches in H. destruct t; simpl; rewrite H; reflexivity.
  - cbn [app matches_prefix]. rewrite (IH (deriv c r) t).
    + apply orb_true_r.
    + eapply deriv_Matches_intro; [exact H | reflexivity].
Qed.

Lemma matches_prefix_sound (s : str) :
  forall r, matches_prefix r s = true ->
            exists w t, s = w ++ t /\ Matches r w.
Proof.
  induction s as [|c s IH]; intros r H.
  - simpl in H. rewrite orb_false_r in H. exists [], [].
    split; [reflexivity | apply nullable_Matches; exact H].
  - cbn [matches_prefix] in H. apply orb_true_iff in H. destruct H as [H|H].
    + exists [], (c :: s). split; [reflexivity | apply nullable_Matches; exact H].
    + destruct (IH _ H) as [w [t [-> M]]].
      exists (c :: w), t. split; [reflexivity|].
      apply deriv_Matches_elim. exact M.
Qed.

Lemma matches_exact_iff (s : str) :
  forall r, matches_exact r s = true <-> Matches r s.
Proof.
  induction s as [|c s IH]; intros r; cbn [matches_exact].
  - apply nullable_Matches.
  - rewrite IH. split.
    + apply deriv_Matches_elim.
    + intros H. eapply deriv_Matches_intro; [exact H | reflexivity].
Qed.

(** [test] finds a match wherever it starts, when the expression is not
    anchored; and whatever it finds is a word of the language inside the
    text. *)
Lemma search_complete (p : pattern) (u v : str) :
  anchored p = false ->
  matches_prefix (body p) v = true ->
  forall bol, search p bol (u ++ v) = true.
Proof.
  intros Ha Hm. induction u as [|c u IH]; intros bol.
  - cbn [app]. destruct v; cbn [search]; rewrite Ha, Hm; reflexivity.
  - cbn [app search]. rewrite IH. apply orb_true_r.
Qed.

Lemma search_sound (p : pattern) (s : str) :
  forall bol, search p bol s = true ->
              exists u w v, s = u ++ w ++ v /\ Matches (body p) w.
Proof.
  induction s as [|c s IH]; intros bol H.
  - cbn [search] in H. rewrite orb_false_r in H.
    apply andb_true_iff in H. destruct H as [_ H].
    apply matches_prefix_sound in H. destruct H as [w [t [E M]]].
    exists [], w, t. split; [exact E | exact M].
  - cbn [search] in H. apply orb_true_iff in H. destruct H as [H|H].
    + apply andb_true_iff in H. destruct H as [_ H].
      apply matches_prefix_sound in H. destruct H as [w [t [E M]]].
      exists [], w, t. split; [exact E | exact M].
    + destruct (IH _ H) as [u [w [v [-> M]]]].
      exists (c :: u), w, v. split; [reflexivity | exact M].
Qed.

Lemma search_exact_complete (r : regex) (u v : str) :
  Matches r v -> search_exact r (u ++ v) = true.
Proof.
  intros M. induction u as [|c u IH].
  - cbn [app]. destruct v; cbn [search_exact];
      rewrite (proj2 (matches_exact_iff _ _) M); reflexivity.
  - cbn [app search_exact]. rewrite IH. apply orb_true_r.
Qed.

Lemma search_exact_sound (r : regex) (s : str) :
  search_exact r s = true -> exists u w, s = u ++ w /\ Matches r w.
Proof.
  induction s as [|c s IH]; intros H; cbn [search_exact] in H.
  - rewrite orb_false_r in H. exists [], [].
    split; [reflexivity | apply matches_exact_iff; exact H].
  - apply orb_true_iff in H. destruct H as [H|H].
    + exists [], (c :: s). split; [reflexivity | apply matches_exact_iff; exact H].
    + destruct (IH H) as [u [w [-> M]]].
      exists (c :: u), w. split; [reflexivity | exact M].
Qed.

(** A word of an expression that needs the class [K] has a code unit of
    [K]. *)
Lemma Needs_Matches (K : char -> bool) (r : regex) (w : str) :
  Matches r w -> Needs K r -> existsb K w = true.
Proof.
  induction 1 as [|p d Hp|a b u v Ha IHa Hb IHb|a b u Ha IHa|a b u Hb IHb
                  |a|a u v Ha IHa Hs IHs]; intros N; inversion N; subst.
  - simpl. rewrite orb_false_r. auto.
  - rewrite existsb_app, IHa by assumption. reflexivity.
  - rewrite existsb_app, IHb by assumption. apply orb_true_r.
  - auto.
  - auto.
Qed.

Lemma Matches_lit_chars (f : char -> regex) (g : char -> char -> bool)
    (s w : str) :
  (forall c, f c = Chr (g c)) ->
  Matches (seq_chars f s) w ->
  length w = length s /\
  forall i, i < length s -> g (nth i s 0%N) (nth i w 0%N) = true.
Proof.
  intros Hf. revert w. induction s as [|c s IH]; intros w M; cbn [seq_chars] in M.
  - inversion M; subst. split; [reflexivity | intros i Hi; simpl in Hi; lia].
  - inversion M as [| |a b u v Ma Mb| | | |]; subst.
    rewrite Hf in Ma. inversion Ma; subst.
    destruct (IH _ Mb) as [L H]. split; [simpl; lia|].
    intros [|i] Hi; [assumption|]. apply H. simpl in Hi. lia.
Qed.

Lemma Matches_lit (s : string) (w : str) : Matches (lit s) w -> w = js s.
Proof.
  unfold lit. intros M.
  destruct (Matches_lit_chars (fun c => Chr (char_eqb c)) char_eqb (js s) w
              (fun c => eq_refl) M) as [L H].
  apply (nth_ext _ _ 0%N 0%N L). intros i Hi. rewrite L in Hi.
  specialize (H i Hi). apply char_eqb_eq in H. symmetry. exact H.
Qed.

Lemma lit_Matches (s : string) : Matches (lit s) (js s).
Proof.
  unfold lit. induction (js s) as [|c l IH]; cbn [seq_chars].
  - constructor.
  - change (c :: l) with ([c] ++ l). constructor; [|exact IH].
    constructor. apply char_eqb_refl.
Qed.

Lemma anyChar_star (w : str) : Matches (Star anyChar) w.
Proof.
  induction w as [|c w IH]; [constructor|].
  change (c :: w) with ([c] ++ w). constructor; [|exact IH].
  constructor. reflexivity.
Qed.

(** ** [hasMermaidBlocks] *)

Lemma mermaidFence_word (w : str) :
  Matches mermaidFence w -> exists b, w = js "```mermaid" ++ b.
Proof.
  unfold mermaidFence. cbn [seqs]. intros M.
  inversion M as [| |a b u v Ma Mb| | | |]; subst.
  apply Matches_lit in Ma. subst u. exists v. reflexivity.
Qed.

(** X8.  [hasMermaidBlocks] reports a diagram only in a text that has
    the opening fence [```mermaid] in it; in particular not in a text
    without the fence delimiter, where the scanner finds no segment
    either. *)
Theorem hasMermaidBlocks_needs_opening_fence (text : str) :
  hasMermaidBlocks text = true ->
  includes (js "```mermaid") text = true /\ includes fence text = true.
Proof.
  intros H.
  assert (exists u b v, text = u ++ (js "```mermaid" ++ b) ++ v) as
    [u [b [v E]]].
  { unfold hasMermaidBlocks in H. apply orb_true_iff in H.
    destruct H as [H|H].
    - apply search_sound in H. destruct H as [u [w [v [E M]]]].
      cbn [body] in M.
      inversion M as [| |a b' w1 w2 Ma Mb| | | |]; subst.
      apply mermaidFence_word in Ma. destruct Ma as [b ->].
      exists u, (b ++ w2), v. rewrite <- !app_assoc. reflexivity.
    - apply search_exact_sound in H. destruct H as [u [w [E M]]].
      apply mermaidFence_word in M. destruct M as [b ->].
      exists u, b, []. rewrite app_nil_r. exact E. }
  split; apply includes_iff.
  - exists u, (b ++ v). rewrite E, <- !app_assoc. reflexivity.
  - exists u, (js "mermaid" ++ b ++ v). rewrite E, <- !app_assoc. reflexivity.
Qed.

Lemma hasMermaidBlocks_needs_witness :
  includes (js "```mermaid") (lines ["```mermaid"; "A"; "```"]) = true /\
  includes fence (lines ["```mermaid"; "A"; "```"]) = true.
Proof.
  apply (hasMermaidBlocks_needs_opening_fence
           (lines ["```mermaid"; "A"; "```"])).
  vm_compute. reflexivity.
Defined.

Lemma mermaidFence_closed (C : str) :
  Matches mermaidFence (fence ++ tagged C ++ fence).
Proof.
  assert (fence ++ tagged C ++ fence =
          js "```mermaid" ++ [] ++ [10%N] ++ C ++ [] ++ [10%N] ++ js "```")
    as ->.
  { unfold tagged. rewrite <- !app_assoc. reflexivity. }
  unfold mermaidFence. cbn [seqs].
  constructor; [apply lit_Matches|].
  constructor; [apply MAltL; constructor|].
  constructor; [constructor; reflexivity|].
  constructor; [apply anyChar_star|].
  constructor; [apply MAltL; constructor|].
  constructor; [constructor; reflexivity | apply lit_Matches].
Qed.

(** X9.  A fence tagged [mermaid] on the first line, closed by a fence
    on a line of its own that ends the text or is followed by a line
    break, is reported by [hasMermaidBlocks], wherever it stands in the
    text. *)
Theorem hasMermaidBlocks_finds_closed_fence (before C after : str) :
  after = [] \/ startsWith nl after = true
    \/ startsWith (13%N :: nl) after = true ->
  hasMermaidBlocks (before ++ fence ++ tagged C ++ fence ++ after) = true.
Proof.
  intros H. unfold hasMermaidBlocks. apply orb_true_iff.
  pose proof (mermaidFence_closed C) as M.
  destruct H as [-> | [H|H]].
  - right. rewrite app_nil_r.
    apply search_exact_complete. exact M.
  - left. apply startsWith_iff in H. destruct H as [r ->].
    unfold test.
    replace (before ++ fence ++ tagged C ++ fence ++ nl ++ r)
      with (before ++ ((fence ++ tagged C ++ fence) ++ [] ++ nl) ++ r)
      by (rewrite <- !app_assoc; reflexivity).
    apply search_complete; [reflexivity|].
    apply matches_prefix_complete. cbn [body].
    constructor; [exact M|].
    constructor; [apply MAltL; constructor | constructor; reflexivity].
  - left. apply startsWith_iff in H. destruct H as [r ->].
    unfold test.
    replace (before ++ fence ++ tagged C ++ fence ++ (13%N :: nl) ++ r)
      with (before ++ ((fence ++ tagged C ++ fence) ++ [13%N] ++ nl) ++ r)
      by (rewrite <- !app_assoc; reflexivity).
    apply search_complete; [reflexivity|].
    apply matches_prefix_complete. cbn [body].
    constructor; [exact M|].
    constructor; [apply MAltR; constructor; reflexivity
                 | constructor; reflexivity].
Qed.

Lemma hasMermaidBlocks_finds_witness :
  hasMermaidBlocks
    (js "Intro" ++ fence ++ tagged (js "graph TD") ++ fence ++ []) = true.
Proof.
  apply (hasMermaidBlocks_finds_closed_fence (js "Intro") (js "graph TD") []).
  left. reflexivity.
Defined.

(** ** The gate of the paste handler *)

Lemma needs_one (K : char -> bool) (s : string) :
  forallb K (js s) = true -> Needs K (one s).
Proof.
  intros H. unfold one. constructor. intros c E.
  apply str_eqb_eq in E. rewrite <- E in H. simpl in H.
  rewrite andb_true_r in H. exact H.
Qed.

Lemma needs_one_of (K : char -> bool) (s : string) :
  forallb K (js s) = true -> Needs K (one_of s).
Proof.
  intros H. unfold one_of. constructor. intros c E.
  apply existsb_exists in E. destruct E as [y [Hy E]].
  apply char_eqb_eq in E. subst y.
  rewrite forallb_forall in H. apply H. exact Hy.
Qed.

Lemma needs_lit (K : char -> bool) (s : string) :
  K (hd 0%N (js s)) = true -> js s <> [] -> Needs K (lit s).
Proof.
  unfold lit. destruct (js s) as [|c l]; [congruence|]. intros H _.
  cbn [seq_chars]. apply NSeqL. constructor. intros x E.
  apply char_eqb_eq in E. subst x. exact H.
Qed.

Lemma needs_upto (K : char -> bool) (n : nat) (r : regex) :
  Needs K r -> Needs K (upto (S n) r).
Proof.
  intros H. destruct n; cbn [upto]; [exact H | apply NSeqL; exact H].
Qed.

Lemma needs_seqs_hd (K : char -> bool) (r : regex) (l : list regex) :
  Needs K r -> Needs K (seqs (r :: l)).
Proof.
  intros H. destruct l; cbn [seqs]; [exact H | apply NSeqL; exact H].
Qed.

Lemma needs_seqs_tl (K : char -> bool) (r : regex) (l : list regex) :
  l <> [] -> Needs K (seqs l) -> Needs K (seqs (r :: l)).
Proof.
  intros Hl H. destruct l; [congruence|]. apply NSeqR. exact H.
Qed.

Lemma markdownPatterns_need_markup :
  Forall (fun p => Needs markupChar (body p)) markdownPatterns.
Proof.
  unfold markdownPatterns.
  repeat apply Forall_cons; try apply Forall_nil; cbn [body].
  - apply needs_seqs_hd, needs_upto, needs_one. reflexivity.
  - apply needs_seqs_hd, needs_lit; [reflexivity | discriminate].
  - apply needs_seqs_hd, needs_lit; [reflexivity | discriminate].
  - apply needs_seqs_hd, needs_one_of. reflexivity.
  - apply needs_seqs_tl; [discriminate|].
    apply needs_seqs_hd, needs_one. reflexivity.
  - apply needs_seqs_hd, needs_one. reflexivity.
  - apply needs_seqs_hd, needs_lit; [reflexivity | discriminate].
  - apply needs_lit; [reflexivity | discriminate].
  - apply needs_seqs_hd, needs_one. reflexivity.
  - apply needs_seqs_hd, needs_one. reflexivity.
Qed.

Lemma hasMarkdownSyntax_markup (text : str) :
  hasMarkdownSyntax text = true -> existsb markupChar text = true.
Proof.
  unfold hasMarkdownSyntax. intros H.
  apply existsb_exists in H. destruct H as [p [Hp H]].
  pose proof markdownPatterns_need_markup as N.
  rewrite Forall_forall in N. specialize (N p Hp).
  apply search_sound in H. destruct H as [u [w [v [-> M]]]].
  rewrite !existsb_app, (Needs_Matches markupChar _ _ M N).
  apply orb_true_r.
Qed.

(** X10.  A text without any of the code units [# * - + . > ` [ |] does
    not pass the gate: the paste handler returns [false] for it and
    leaves the event, the editor and the console as they are. *)
Theorem plain_text_is_not_intercepted (ext : External) (text : str)
    (w : World) :
  existsb markupChar text = false ->
  hasMarkdownSyntax text = false /\
  handlePaste ext (Some text) w = (false, w).
Proof.
  intros H.
  assert (hasMarkdownSyntax text = false) as G.
  { destruct (hasMarkdownSyntax text) eqn:E; [|reflexivity].
    apply hasMarkdownSyntax_markup in E. congruence. }
  split; [exact G|].
  unfold handlePaste. destruct text; [reflexivity|]. rewrite G. reflexivity.
Qed.

Lemma plain_text_witness :
  hasMarkdownSyntax (js "plain sentence with no markup") = false /\
  handlePaste toyExternal (Some (js "plain sentence with no markup"))
    (mkWorld false [] []) = (false, mkWorld false [] []).
Proof.
  apply (plain_text_is_not_intercepted toyExternal
           (js "plain sentence with no markup") (mkWorld false [] [])).
  reflexivity.
Defined.

(** ** From the copy handler to the gate of the paste handler *)

Lemma first_backtick (s t : str) :
  exists x r, s ++ backtick :: t = x ++ backtick :: r /\ noBacktick x = true.
Proof.
  induction s as [|c s [x [r [E H]]]].
  - exists [], t. split; reflexivity.
  - destruct (char_eqb backtick c) eqn:Ec.
    + apply char_eqb_eq in Ec. subst c. exists [], (s ++ backtick :: t).
      split; reflexivity.
    + exists (c :: x), r. split.
      * cbn [app]. rewrite E. reflexivity.
      * cbn [noBacktick forallb]. rewrite Ec. exact H.
Qed.

(** [trim] does not cut into a piece of the text that starts and ends
    with code units that are not white space. *)
Lemma trim_keeps_infix (u v m : str) (a z : char) :
  is_ws a = false -> is_ws z = false ->
  exists u' v', trim (u ++ (a :: m ++ [z]) ++ v) = u' ++ (a :: m ++ [z]) ++ v'.
Proof.
  intros Ha Hz. set (w := a :: m ++ [z]).
  assert (exists u', trimStart (u ++ w ++ v) = u' ++ w ++ v) as [u' Eu].
  { rewrite trimStart_app. destruct (trimStart u) as [|c t] eqn:E.
    - exists []. unfold w. cbn [app]. apply trimStart_fix. exact Ha.
    - exists (c :: t). reflexivity. }
  unfold trim. rewrite Eu.
  replace (u' ++ w ++ v) with ((u' ++ w) ++ v) by (rewrite <- app_assoc; reflexivity).
  rewrite trimEnd_app. destruct (trimEnd v) as [|c t] eqn:E.
  - exists u', []. rewrite app_nil_r.
    unfold w. change (a :: m ++ [z]) with ((a :: m) ++ [z]).
    rewrite app_assoc. apply trimEnd_fix. exact Hz.
  - exists u', (c :: t). rewrite <- app_assoc. reflexivity.
Qed.

Lemma noBacktick_star (m : str) :
  noBacktick m = true -> Matches (Star (none_of "`")) m.
Proof.
  induction m as [|c m IH]; intros H; [constructor|].
  cbn [noBacktick forallb] in H. apply andb_true_iff in H.
  destruct H as [Hc Hm]. change (c :: m) with ([c] ++ m).
  constructor; [|apply IH; exact Hm].
  unfold none_of. constructor. simpl. rewrite orb_false_r.
  unfold backtick, char_eqb in *. rewrite N.eqb_sym. exact Hc.
Qed.

Lemma inline_code_word (m : str) :
  m <> [] -> noBacktick m = true ->
  Matches (seqs [lit "`"; plus (none_of "`"); lit "`"])
          ([backtick] ++ m ++ [backtick]).
Proof.
  intros Hne H. cbn [seqs].
  constructor; [apply (lit_Matches "`")|].
  constructor; [|apply (lit_Matches "`")].
  destruct m as [|c m]; [congruence|].
  unfold plus. change (c :: m) with ([c] ++ m).
  cbn [noBacktick forallb] in H. apply andb_true_iff in H.
  destruct H as [Hc Hm].
  constructor; [|apply noBacktick_star; exact Hm].
  unfold none_of. constructor. simpl. rewrite orb_false_r.
  unfold backtick, char_eqb in *. rewrite N.eqb_sym. exact Hc.
Qed.

Lemma inline_code_passes_gate (u m v : str) :
  m <> [] -> noBacktick m = true ->
  hasMarkdownSyntax (u ++ ([backtick] ++ m ++ [backtick]) ++ v) = true.
Proof.
  intros Hne H. unfold hasMarkdownSyntax. apply existsb_exists.
  exists (Pattern false true
            (seqs [lit "`"; plus (none_of "`"); lit "`"])).
  split.
  - unfold markdownPatterns. do 6 right. left. reflexivity.
  - unfold test. apply search_complete; [reflexivity|].
    apply matches_prefix_complete. cbn [body].
    apply inline_code_word; assumption.
Qed.

Lemma copied_diagram_has_markup (ext : External) (nodes : list PMNode)
    (b : MermaidBlock) :
  In (mermaidNode b) nodes ->
  hasMarkdownSyntax (trim (copyMarkdown ext nodes)) = true.
Proof.
  intros Hin. apply in_split in Hin. destruct Hin as [l1 [l2 ->]].
  change (mermaidNode b :: l2) with ([mermaidNode b] ++ l2).
  rewrite !copyMarkdown_app, copyMarkdown_mermaidNode.
  set (U := copyMarkdown ext l1). set (V := copyMarkdown ext l2).
  destruct (first_backtick (content b ++ nl)
              ([backtick; backtick] ++ nl ++ nl)) as [x [r [E Hx]]].
  assert (U ++ fenced (content b) ++ V =
          (U ++ [backtick; backtick])
            ++ (backtick :: (js "mermaid" ++ nl ++ x) ++ [backtick])
            ++ (r ++ V)) as ->.
  { assert (content b ++ nl ++ fence ++ nl ++ nl ++ V =
            x ++ backtick :: r ++ V) as E'.
    { transitivity (((content b ++ nl)
                       ++ backtick :: [backtick; backtick] ++ nl ++ nl) ++ V).
      - rewrite <- !app_assoc. reflexivity.
      - rewrite E, <- app_assoc. reflexivity. }
    unfold fenced. rewrite <- !app_assoc. rewrite E'.
    cbn [app]. rewrite <- !app_assoc. reflexivity. }
  destruct (trim_keeps_infix (U ++ [backtick; backtick]) (r ++ V)
              (js "mermaid" ++ nl ++ x) backtick backtick eq_refl eq_refl)
    as [u' [v' ->]].
  apply (inline_code_passes_gate u' (js "mermaid" ++ nl ++ x) v').
  - discriminate.
  - rewrite !noBacktick_app, Hx. reflexivity.
Qed.

(** X11.  Copying a selection that holds a diagram node built by the
    converter is handled: the handler returns [true], puts the trimmed
    Markdown of the selection and its HTML on the clipboard, and this
    Markdown passes the gate of the paste handler, whatever else is
    selected. *)
Theorem copied_diagram_passes_gate (ext : External)
    (innerHTML : list Dom.Node -> str) (nodes : list PMNode)
    (b : MermaidBlock) (w : CopyWorld) :
  In (mermaidNode b) nodes ->
  handleCopy ext innerHTML (Some (false, nodes)) true w =
    (true, mkCopyWorld true (Some (trim (copyMarkdown ext nodes)))
             (Some (innerHTML (map (toDOM ext) nodes)))) /\
  hasMarkdownSyntax (trim (copyMarkdown ext nodes)) = true.
Proof.
  intros Hin. split; [reflexivity|].
  eapply copied_diagram_has_markup. exact Hin.
Qed.

Lemma copied_diagram_witness :
  handleCopy toyExternal (fun _ => [])
    (Some (false,
           [mermaidNode (mkMermaidBlock (js "graph TD") 0 0 (js "flowchart"))]))
    true (mkCopyWorld false None None) =
    (true,
     mkCopyWorld true
       (Some (trim (copyMarkdown toyExternal
          [mermaidNode (mkMermaidBlock (js "graph TD") 0 0 (js "flowchart"))])))
       (Some ((fun _ => [])
                (map (toDOM toyExternal)
          [mermaidNode (mkMermaidBlock (js "graph TD") 0 0 (js "flowchart"))]))))
  /\
  hasMarkdownSyntax
    (trim (copyMarkdown toyExternal
       [mermaidNode (mkMermaidBlock (js "graph TD") 0 0 (js "flowchart"))]))
  = true.
Proof.
  apply (copied_diagram_passes_gate toyExternal (fun _ => [])
           [mermaidNode (mkMermaidBlock (js "graph TD") 0 0 (js "flowchart"))]
           (mkMermaidBlock (js "graph TD") 0 0 (js "flowchart"))
           (mkCopyWorld false None None)).
  left. reflexivity.
Defined.

(** ** Diagram nodes and their HTML *)

Lemma first_match_in (ps : list (pattern * str)) (s ty : str) :
  first_match ps s = Some ty -> In ty (map snd ps).
Proof.
  induction ps as [|[p t] ps IH]; cbn [first_match]; [discriminate|].
  destruct (test p s).
  - intros [= ->]. left. reflexivity.
  - intros H. right. apply IH. exact H.
Qed.

Lemma detectDiagramType_not_empty (c : str) : detectDiagramType c <> [].
Proof.
  unfold detectDiagramType.
  destruct (first_match typePatterns c) as [ty|] eqn:E; [|discriminate].
  apply first_match_in in E. cbn in E.
  repeat (destruct E as [<-|E]; [discriminate|]). destruct E.
Qed.

Lemma scanParts_types (text : str) (positions : list Z) (rest : list str)
    (i : nat) :
  Forall (fun b => diagramType b = detectDiagramType (content b))
         (scanParts text positions i rest).
Proof.
  revert i. induction rest as [|p rest IH]; intros i; cbn [scanParts].
  - constructor.
  - destruct (isMermaidTag p); [constructor; [reflexivity|]|]; apply IH.
Qed.

Lemma renderHTML_parseHTML (d v t : str) (contentDOM : list Dom.Node) :
  MermaidBlock_parseHTML
    (MermaidBlock_renderHTML
       [ (js "diagramType", d); (js "viewMode", v); (js "theme", t) ]
       contentDOM) =
  Some [ (js "diagramType", orElse d (js "flowchart"));
         (js "viewMode", orElse v (js "source"));
         (js "theme", orElse t (js "default")) ].
Proof. reflexivity. Qed.

(** X12.  A diagram node that the converter builds for a segment of the
    text is read back from its HTML with the attributes it was given:
    the parse rule of the diagram extension matches what its
    [renderHTML] gives, and no default replaces a value, the detected
    type being never empty. *)
Theorem converted_diagram_attributes_survive_html (ext : External)
    (text : str) (b : MermaidBlock) :
  In b (extractMermaidBlocks text) ->
  MermaidBlock_parseHTML (toDOM ext (mermaidNode b)) =
  Some [ (js "diagramType", diagramType b);
         (js "viewMode", js "preview");
         (js "theme", js "default") ].
Proof.
  intros Hin.
  pose proof (scanParts_types text
                (fencePositions text (length (split fence text) - 1) 0)
                (tl (split fence text)) 0) as Hty.
  rewrite Forall_forall in Hty. specialize (Hty b Hin).
  change (toDOM ext (mermaidNode b))
    with (MermaidBlock_renderHTML
            [ (js "diagramType", diagramType b);
              (js "viewMode", js "preview");
              (js "theme", js "default") ]
            [ Text (content b) ]).
  rewrite renderHTML_parseHTML.
  destruct (diagramType b) as [|c r] eqn:E; [|reflexivity].
  exfalso. symmetry in Hty. exact (detectDiagramType_not_empty _ Hty).
Qed.

Lemma converted_diagram_attributes_witness :
  MermaidBlock_parseHTML
    (toDOM toyExternal
       (mermaidNode
          (mkMermaidBlock (js "pie") 0 18 (js "pie")))) =
  Some [ (js "diagramType", js "pie");
         (js "viewMode", js "preview");
         (js "theme", js "default") ].
Proof.
  apply (converted_diagram_attributes_survive_html toyExternal
           (lines ["```mermaid"; "pie"; "```"])
           (mkMermaidBlock (js "pie") 0 18 (js "pie"))).
  vm_compute. left. reflexivity.
Defined.

(** ** The tabs *)

Section TabsFacts.

Import Tabs.

Lemma hasId_true (tabId : str) (tab : Tab) :
  hasId tabId tab = true <-> id tab = tabId.
Proof. unfold hasId. apply str_eqb_eq. Qed.

Lemma hasId_false (tabId : str) (tab : Tab) :
  hasId tabId tab = false <-> id tab <> tabId.
Proof.
  rewrite <- hasId_true. destruct (hasId tabId tab); split; congruence.
Qed.

Lemma str_eqb_false (a b : str) : str_eqb a b = false <-> a <> b.
Proof.
  rewrite <- str_eqb_eq. destruct (str_eqb a b); split; congruence.
Qed.

Lemma find_hasId (tabId : str) (l : list Tab) :
  In tabId (map id l) <-> exists tab, find (hasId tabId) l = Some tab.
Proof.
  induction l as [|t l IH]; cbn [map find In].
  - split; [intros []|intros [tab H]; discriminate].
  - destruct (hasId tabId t) eqn:E.
    + split; [intros _; exists t; reflexivity|].
      intros _. left. apply hasId_true. exact E.
    + rewrite <- IH. split; [|intros H; right; exact H].
      intros [H|H]; [|exact H].
      apply hasId_false in E. contradiction.
Qed.

Lemma map_id_update (tabId : str) (update : Tab -> Tab) (l : list Tab) :
  (forall tab, id (update tab) = id tab) ->
  map id (map (fun tab => if hasId tabId tab then update tab else tab) l)
  = map id l.
Proof.
  intros H. rewrite map_map. apply map_ext. intros tab.
  destruct (hasId tabId tab); [apply H|reflexivity].
Qed.

Lemma updateWhere_ids (seen tabId : str) (update : Tab -> Tab) (s : State) :
  (forall tab, id (update tab) = id tab) ->
  map id (tabs (updateWhere seen tabId update s)) = map id (tabs s) /\
  activeTabId (updateWhere seen tabId update s) = activeTabId s.
Proof.
  intros H. split; [|reflexivity]. apply map_id_update. exact H.
Qed.

Lemma map_id_filter (tabId : str) (l : list Tab) (x : str) :
  In x (map id (filter (fun t => negb (hasId tabId t)) l)) <->
  In x (map id l) /\ x <> tabId.
Proof.
  rewrite !in_map_iff. split.
  - intros [t [E H]]. apply filter_In in H. destruct H as [H1 H2].
    split; [exists t; split; assumption|].
    apply negb_true_iff, hasId_false in H2. congruence.
  - intros [[t [E H]] Hne]. exists t. split; [exact E|].
    apply filter_In. split; [exact H|].
    apply negb_true_iff, hasId_false. congruence.
Qed.

Lemma at_index_In {X : Type} (l : list X) (i : Z) (x : X) :
  at_index l i = Some x -> In x l.
Proof.
  unfold at_index. destruct (i <? 0)%Z; [discriminate|].
  apply nth_error_In.
Qed.

Lemma last_In {X : Type} (l : list X) (d : X) : l <> [] -> In (last l d) l.
Proof.
  induction l as [|x l IH]; [congruence|]. intros _.
  destruct l as [|y l]; [left; reflexivity|].
  right. apply IH. discriminate.
Qed.

Lemma createNewTab_hasActive (now ttl c : str) (p : option str) (s : State) :
  hasActive (snd (createNewTab now ttl c p s)).
Proof.
  right. cbn. rewrite map_app, in_app_iff. right. left. reflexivity.
Qed.

Lemma handleCloseTab_hasActive (confirm : bool) (now untitled tabId : str)
    (s : State) :
  hasActive s -> hasActive (handleCloseTab confirm now untitled tabId s).
Proof.
  intros Inv. unfold handleCloseTab.
  destruct (find (hasId tabId) (tabs s)) as [tab|] eqn:F; [|exact Inv].
  destruct (declined (Some tab) confirm); [exact Inv|].
  destruct (str_eqb tabId (activeTabId s)) eqn:A.
  - destruct (filter _ (tabs s)) as [|first more] eqn:E.
    + right. cbn. rewrite map_app, in_app_iff. right. left. reflexivity.
    + right. cbn [tabs activeTabId]. apply in_map.
      destruct (at_index (first :: more) _) as [t|] eqn:N.
      * apply at_index_In in N. exact N.
      * apply last_In. discriminate.
  - right. cbn [tabs activeTabId]. apply map_id_filter.
    apply str_eqb_false in A. split; [|congruence].
    destruct Inv as [Inv|Inv]; [|exact Inv].
    rewrite Inv in F. discriminate.
Qed.

Lemma step_hasActive (s : State) (e : Event) :
  hasActive s -> hasActive (step s e).
Proof.
  intros Inv. destruct e; cbn [step].
  - unfold handleNewFile. destruct (declined _ _); [exact Inv|].
    apply createNewTab_hasActive.
  - apply createNewTab_hasActive.
  - apply handleCloseTab_hasActive. exact Inv.
  - unfold handleTabClick.
    destruct (find (hasId tabId) (tabs s)) as [tab|] eqn:F; [|exact Inv].
    right. cbn [tabs activeTabId]. apply find_hasId. exists tab. exact F.
  - unfold updateTabContent, hasActive.
    destruct (updateWhere_ids (activeTabId s) tabId
                (fun tab => mkTab (id tab) (title tab) (path tab) content0 true)
                s (fun _ => eq_refl)) as [E1 E2].
    rewrite E1, E2. destruct Inv as [Inv|Inv]; [|right; exact Inv].
    left. cbn. rewrite Inv. reflexivity.
  - unfold markTabSaved, hasActive.
    match goal with |- context [updateWhere _ _ ?f s] =>
      destruct (updateWhere_ids seenActive tabId f s (fun _ => eq_refl))
        as [E1 E2] end.
    rewrite E1, E2. destruct Inv as [Inv|Inv]; [|right; exact Inv].
    left. cbn. rewrite Inv. reflexivity.
Qed.

Lemma fold_step_hasActive (events : list Event) (s : State) :
  hasActive s -> hasActive (fold_left step events s).
Proof.
  revert s. induction events as [|e events IH]; intros s Inv; [exact Inv|].
  cbn [fold_left]. apply IH. apply step_hasActive. exact Inv.
Qed.

Lemma step_keeps_tabs (s : State) (e : Event) :
  hasActive s -> tabs s <> [] -> tabs (step s e) <> [].
Proof.
  assert (forall (l : list Tab) t, l ++ [t] <> []) as Happ
    by (intros l t; destruct l; discriminate).
  assert (forall seen tabId f, tabs s <> [] ->
            tabs (updateWhere seen tabId f s) <> []) as Hupd.
  { intros seen tabId f H. cbn. destruct (tabs s); [congruence|discriminate]. }
  intros Inv H. destruct e; cbn [step].
  - unfold handleNewFile. destruct (declined _ _); [exact H|]. apply Happ.
  - apply Happ.
  - pose proof (handleCloseTab_hasActive confirm now untitled tabId s Inv)
      as Inv'.
    revert Inv'. unfold handleCloseTab.
    destruct (find (hasId tabId) (tabs s)) as [tab|] eqn:F; [|intros _; exact H].
    destruct (declined (Some tab) confirm); [intros _; exact H|].
    destruct (str_eqb tabId (activeTabId s)) eqn:A.
    + destruct (filter _ (tabs s)) as [|first more] eqn:E;
        intros _; [apply Happ|discriminate].
    + apply str_eqb_false in A.
      destruct Inv as [Inv|Inv]; [congruence|]. intros _. cbn [tabs].
      intros E.
      assert (In (activeTabId s)
                (map id (filter (fun t => negb (hasId tabId t)) (tabs s))))
        as K by (apply map_id_filter; split; [exact Inv|congruence]).
      rewrite E in K. destruct K.
  - unfold handleTabClick. destruct (find _ _); exact H.
  - apply Hupd. exact H.
  - apply Hupd. exact H.
Qed.

Lemma run_app (events more : list Event) :
  run (events ++ more) = fold_left step more (run events).
Proof. unfold run. apply fold_left_app. Qed.

Lemma run_hasActive (events : list Event) : hasActive (run events).
Proof. apply fold_step_hasActive. left. reflexivity. Qed.

End TabsFacts.

(** X13.  Whatever happens to the tabs, starting with none: either there
    is no tab, or the active identifier is the identifier of a tab, so
    that the active tab is defined. *)
Theorem active_tab_is_a_tab (events : list Tabs.Event) :
  Tabs.tabs (Tabs.run events) = [] \/
  exists tab,
    Tabs.activeTab (Tabs.run events) = Some tab /\
    In tab (Tabs.tabs (Tabs.run events)) /\
    Tabs.id tab = Tabs.activeTabId (Tabs.run events).
Proof.
  destruct (run_hasActive events) as [H|H]; [left; exact H|right].
  apply find_hasId in H. destruct H as [tab F]. exists tab.
  split; [exact F|]. apply find_some in F. destruct F as [F1 F2].
  split; [exact F1|]. apply hasId_true. exact F2.
Qed.

(** X14.  Once there is a tab there is always one: no event, closing
    included, leaves the list of tabs empty. *)
Theorem tabs_never_run_out (events more : list Tabs.Event) :
  Tabs.tabs (Tabs.run events) <> [] ->
  Tabs.tabs (Tabs.run (events ++ more)) <> [].
Proof.
  rewrite run_app. pose proof (run_hasActive events) as Inv.
  generalize dependent (Tabs.run events). intros s.
  revert s. induction more as [|e more IH]; intros s Inv H; [exact H|].
  cbn [fold_left]. apply IH.
  - apply step_hasActive. exact Inv.
  - apply step_keeps_tabs; assumption.
Qed.

Lemma tabs_never_run_out_witness :
  Tabs.tabs (Tabs.run ([Tabs.NewFile true (js "1") (js "Untitled")]
                       ++ [Tabs.CloseTab true (js "2") [] (js "1")])) <> [].
Proof.
  apply (tabs_never_run_out [Tabs.NewFile true (js "1") (js "Untitled")]
           [Tabs.CloseTab true (js "2") [] (js "1")]).
  vm_compute. discriminate.
Defined.

Section TabsClosing.

Import Tabs.

Lemma find_unique (l1 l2 : list Tab) (tab : Tab) :
  ~ In (id tab) (map id l1) ->
  find (hasId (id tab)) (l1 ++ tab :: l2) = Some tab.
Proof.
  induction l1 as [|t l1 IH]; cbn [app find map In]; intros H.
  - unfold hasId at 1. rewrite str_eqb_refl. reflexivity.
  - destruct (hasId (id tab) t) eqn:E.
    + apply hasId_true in E. exfalso. apply H. left. exact E.
    + apply IH. intros K. apply H. right. exact K.
Qed.

Lemma filter_others (l : list Tab) (tabId : str) :
  ~ In tabId (map id l) ->
  filter (fun t => negb (hasId tabId t)) l = l.
Proof.
  induction l as [|t l IH]; cbn [filter map In]; intros H; [reflexivity|].
  destruct (hasId tabId t) eqn:E.
  - apply hasId_true in E. exfalso. apply H. left. exact E.
  - cbn [negb]. rewrite IH; [reflexivity|].
    intros K. apply H. right. exact K.
Qed.

Lemma filter_unique (l1 l2 : list Tab) (tab : Tab) :
  NoDup (map id (l1 ++ tab :: l2)) ->
  filter (fun t => negb (hasId (id tab) t)) (l1 ++ tab :: l2) = l1 ++ l2.
Proof.
  intros H. rewrite map_app in H. cbn [map] in H.
  pose proof (NoDup_remove_2 _ _ _ H) as K.
  rewrite in_app_iff in K.
  rewrite filter_app. cbn [filter]. unfold hasId at 2.
  rewrite str_eqb_refl. cbn [negb].
  rewrite !filter_others; [reflexivity| |]; intros X; apply K; tauto.
Qed.

Lemma findIndex_unique (l1 l2 : list Tab) (tab : Tab) :
  ~ In (id tab) (map id l1) ->
  findIndex (hasId (id tab)) (l1 ++ tab :: l2) = Z.of_nat (length l1).
Proof.
  induction l1 as [|t l1 IH]; cbn [app findIndex map In length]; intros H.
  - unfold hasId at 1. rewrite str_eqb_refl. reflexivity.
  - destruct (hasId (id tab) t) eqn:E.
    + apply hasId_true in E. exfalso. apply H. left. exact E.
    + rewrite IH by (intros K; apply H; right; exact K).
      destruct (Z.of_nat (length l1) =? -1)%Z eqn:Z1; [|lia].
      apply Z.eqb_eq in Z1. lia.
Qed.

Lemma at_index_length {X : Type} (l1 l2 : list X) :
  at_index (l1 ++ l2) (Z.of_nat (length l1)) = hd_error l2.
Proof.
  unfold at_index.
  destruct (Z.of_nat (length l1) <? 0)%Z eqn:E;
    [apply Z.ltb_lt in E; lia|].
  rewrite Nat2Z.id, nth_error_app2 by lia.
  rewrite Nat.sub_diag. destruct l2; reflexivity.
Qed.

Lemma close_prefix (l1 l2 : list Tab) (tab : Tab) :
  NoDup (map id (l1 ++ tab :: l2)) -> ~ In (id tab) (map id l1).
Proof.
  intros H K. rewrite map_app in H. cbn [map] in H.
  apply NoDup_remove_2 in H. apply H. apply in_app_iff. left. exact K.
Qed.

End TabsClosing.

(** X15.  Closing the only tab does not take it away: the list of tabs
    is not replaced, a new untitled tab is put after the closed one and
    made the active one, and the change of tab is announced twice. *)
Theorem closing_the_only_tab_keeps_it (confirm : bool)
    (now untitled : str) (tab : Tabs.Tab) (changes : list Tabs.Tab) :
  Tabs.isModified tab = false \/ confirm = true ->
  let newTab :=
    Tabs.mkTab now (orElse untitled unnamed) None [] false in
  Tabs.handleCloseTab confirm now untitled (Tabs.id tab)
    (Tabs.mkState [tab] (Tabs.id tab) changes) =
  Tabs.mkState [tab; newTab] now (changes ++ [newTab; newTab]).
Proof.
  intros H newTab. unfold Tabs.handleCloseTab.
  cbn [Tabs.tabs Tabs.activeTabId Tabs.tabChanges find filter].
  unfold Tabs.hasId. rewrite str_eqb_refl. cbn [negb].
  assert (Tabs.declined (Some tab) confirm = false) as ->.
  { cbn. destruct H as [-> | ->]; [reflexivity|apply andb_false_r]. }
  cbn. rewrite <- app_assoc. reflexivity.
Qed.

Lemma closing_the_only_tab_witness :
  Tabs.handleCloseTab false (js "2") []
    (Tabs.id (Tabs.mkTab (js "1") (js "a.md") None [] false))
    (Tabs.mkState [Tabs.mkTab (js "1") (js "a.md") None [] false]
       (Tabs.id (Tabs.mkTab (js "1") (js "a.md") None [] false)) []) =
  Tabs.mkState
    [ Tabs.mkTab (js "1") (js "a.md") None [] false;
      Tabs.mkTab (js "2") (orElse [] unnamed) None [] false ]
    (js "2")
    ([] ++ [ Tabs.mkTab (js "2") (orElse [] unnamed) None [] false;
             Tabs.mkTab (js "2") (orElse [] unnamed) None [] false ]).
Proof.
  apply (closing_the_only_tab_keeps_it false (js "2") []
           (Tabs.mkTab (js "1") (js "a.md") None [] false) []).
  left. reflexivity.
Defined.

(** X16.  Closing the active tab, when the identifiers are distinct and
    another tab is open, takes this tab away and no other, and makes
    the tab that stood to its right the active one, or the last of the
    tabs to its left when it was the rightmost. *)
Theorem closing_active_tab_selects_neighbour (confirm : bool)
    (now untitled : str) (s : Tabs.State) (l1 l2 : list Tabs.Tab)
    (tab : Tabs.Tab) :
  Tabs.tabs s = l1 ++ tab :: l2 ->
  NoDup (map Tabs.id (Tabs.tabs s)) ->
  Tabs.activeTabId s = Tabs.id tab ->
  Tabs.isModified tab = false \/ confirm = true ->
  l1 ++ l2 <> [] ->
  let next := match l2 with
              | neighbour :: _ => neighbour
              | [] => last l1 tab
              end in
  Tabs.handleCloseTab confirm now untitled (Tabs.id tab) s =
  Tabs.mkState (l1 ++ l2) (Tabs.id next) (Tabs.tabChanges s ++ [next]).
Proof.
  intros Et Hnd Ha Hc Hne next. unfold Tabs.handleCloseTab.
  rewrite Et in *. pose proof (close_prefix _ _ _ Hnd) as Hp.
  rewrite find_unique by exact Hp.
  assert (Tabs.declined (Some tab) confirm = false) as ->.
  { cbn. destruct Hc as [-> | ->]; [reflexivity|apply andb_false_r]. }
  rewrite Ha, str_eqb_refl, filter_unique by exact Hnd.
  rewrite findIndex_unique by exact Hp.
  destruct (l1 ++ l2) as [|first more] eqn:E; [congruence|].
  rewrite <- E, at_index_length. unfold next.
  destruct l2 as [|neighbour l2]; cbn [hd_error]; [|reflexivity].
  rewrite app_nil_r in E |- *.
  destruct l1 as [|x l1]; [discriminate|].
  injection E as -> ->.
  assert (forall (l : list Tabs.Tab) a b, l <> [] -> last l a = last l b)
    as Hlast.
  { intros l a b. induction l as [|y l IH]; [congruence|]. intros _.
    destruct l; [reflexivity|]. apply IH. discriminate. }
  rewrite (Hlast (first :: more) first tab) by discriminate. reflexivity.
Qed.

Lemma closing_active_tab_witness :
  Tabs.handleCloseTab false (js "9") [] (Tabs.id (Tabs.mkTab (js "2") (js "b") None [] false))
    (Tabs.mkState
       [ Tabs.mkTab (js "1") (js "a") None [] false;
         Tabs.mkTab (js "2") (js "b") None [] false;
         Tabs.mkTab (js "3") (js "c") None [] false ]
       (js "2") []) =
  Tabs.mkState
    ([Tabs.mkTab (js "1") (js "a") None [] false]
       ++ [Tabs.mkTab (js "3") (js "c") None [] false])
    (Tabs.id (Tabs.mkTab (js "3") (js "c") None [] false))
    (Tabs.tabChanges
       (Tabs.mkState
          [ Tabs.mkTab (js "1") (js "a") None [] false;
            Tabs.mkTab (js "2") (js "b") None [] false;
            Tabs.mkTab (js "3") (js "c") None [] false ]
          (js "2") [])
       ++ [Tabs.mkTab (js "3") (js "c") None [] false]).
Proof.
  apply (closing_active_tab_selects_neighbour false (js "9") []
           (Tabs.mkState
              [ Tabs.mkTab (js "1") (js "a") None [] false;
                Tabs.mkTab (js "2") (js "b") None [] false;
                Tabs.mkTab (js "3") (js "c") None [] false ]
              (js "2") [])
           [Tabs.mkTab (js "1") (js "a") None [] false]
           [Tabs.mkTab (js "3") (js "c") None [] false]
           (Tabs.mkTab (js "2") (js "b") None [] false)).
  - reflexivity.
  - cbn. repeat constructor; cbn; intuition discriminate.
  - reflexivity.
  - left. reflexivity.
  - discriminate.
Defined.

(** X17.  Closing a tab that is not the active one, when the
    identifiers are distinct, takes this tab away and nothing else: the
    active tab stays and no change of tab is announced. *)
Theorem closing_other_tab_keeps_active (confirm : bool)
    (now untitled : str) (s : Tabs.State) (l1 l2 : list Tabs.Tab)
    (tab : Tabs.Tab) :
  Tabs.tabs s = l1 ++ tab :: l2 ->
  NoDup (map Tabs.id (Tabs.tabs s)) ->
  Tabs.activeTabId s <> Tabs.id tab ->
  Tabs.isModified tab = false \/ confirm = true ->
  Tabs.handleCloseTab confirm now untitled (Tabs.id tab) s =
  Tabs.mkState (l1 ++ l2) (Tabs.activeTabId s) (Tabs.tabChanges s).
Proof.
  intros Et Hnd Ha Hc. unfold Tabs.handleCloseTab.
  rewrite Et in *. pose proof (close_prefix _ _ _ Hnd) as Hp.
  rewrite find_unique by exact Hp.
  assert (Tabs.declined (Some tab) confirm = false) as ->.
  { cbn. destruct Hc as [-> | ->]; [reflexivity|apply andb_false_r]. }
  assert (str_eqb (Tabs.id tab) (Tabs.activeTabId s) = false) as ->
    by (apply str_eqb_false; congruence).
  rewrite filter_unique by exact Hnd. reflexivity.
Qed.

Lemma closing_other_tab_witness :
  Tabs.handleCloseTab false (js "9") [] (Tabs.id (Tabs.mkTab (js "2") (js "b") None [] false))
    (Tabs.mkState
       [ Tabs.mkTab (js "1") (js "a") None [] false;
         Tabs.mkTab (js "2") (js "b") None [] false ]
       (js "1") []) =
  Tabs.mkState
    ([Tabs.mkTab (js "1") (js "a") None [] false] ++ [])
    (Tabs.activeTabId
       (Tabs.mkState
          [ Tabs.mkTab (js "1") (js "a") None [] false;
            Tabs.mkTab (js "2") (js "b") None [] false ]
          (js "1") []))
    (Tabs.tabChanges
       (Tabs.mkState
          [ Tabs.mkTab (js "1") (js "a") None [] false;
            Tabs.mkTab (js "2") (js "b") None [] false ]
          (js "1") [])).
Proof.
  apply (closing_other_tab_keeps_active false (js "9") []
           (Tabs.mkState
              [ Tabs.mkTab (js "1") (js "a") None [] false;
                Tabs.mkTab (js "2") (js "b") None [] false ]
              (js "1") [])
           [Tabs.mkTab (js "1") (js "a") None [] false] []
           (Tabs.mkTab (js "2") (js "b") None [] false)).
  - reflexivity.
  - cbn. repeat constructor; cbn; intuition discriminate.
  - cbn. discriminate.
  - left. reflexivity.
Defined.

Section TabsIds.

Import Tabs.

Lemma NoDup_map_filter {X Y : Type} (f : X -> Y) (p : X -> bool)
    (l : list X) :
  NoDup (map f l) -> NoDup (map f (filter p l)).
Proof.
  induction l as [|x l IH]; cbn [map filter]; intros H; [constructor|].
  inversion H as [|? ? Hx Hl]; subst.
  destruct (p x); [|apply IH; exact Hl].
  cbn [map]. constructor; [|apply IH; exact Hl].
  intros K. apply Hx. apply in_map_iff in K. destruct K as [y [E Hy]].
  apply in_map_iff. exists y. split; [exact E|].
  apply filter_In in Hy. tauto.
Qed.

Lemma NoDup_snoc (l : list str) (x : str) :
  NoDup l -> ~ In x l -> NoDup (l ++ [x]).
Proof.
  intros H K. apply NoDup_app; [exact H|repeat constructor; intros []|].
  intros y Hy [<-|[]]. contradiction.
Qed.

Lemma createNewTab_ids (now ttl c : str) (p : option str) (s : State) :
  map id (tabs (snd (createNewTab now ttl c p s))) = map id (tabs s) ++ [now].
Proof. cbn. rewrite map_app. reflexivity. Qed.

(** The identifiers after an event: the ones before it, or some of
    them, or all of them and the clock value of the event. *)
Lemma step_ids (s : State) (e : Event) :
  map id (tabs (step s e)) = map id (tabs s) \/
  (exists keep, map id (tabs (step s e)) = map id (filter keep (tabs s))) \/
  (exists now, In now (clock e) /\
     map id (tabs (step s e)) = map id (tabs s) ++ [now]).
Proof.
  destruct e; cbn [step clock].
  - unfold handleNewFile. destruct (declined _ _); [left; reflexivity|].
    right. right. exists now. split; [left; reflexivity|].
    apply createNewTab_ids.
  - right. right. exists now. split; [left; reflexivity|].
    apply createNewTab_ids.
  - unfold handleCloseTab.
    destruct (find (hasId tabId) (tabs s)) as [tab|]; [|left; reflexivity].
    destruct (declined (Some tab) confirm); [left; reflexivity|].
    destruct (str_eqb tabId (activeTabId s)).
    + destruct (filter _ (tabs s)) as [|first more] eqn:E.
      * right. right. exists now. split; [left; reflexivity|].
        cbn. rewrite map_app. reflexivity.
      * right. left. exists (fun t => negb (hasId tabId t)).
        rewrite E. reflexivity.
    + right. left. exists (fun t => negb (hasId tabId t)). reflexivity.
  - unfold handleTabClick. destruct (find _ _); left; reflexivity.
  - left. apply map_id_update. reflexivity.
  - left. apply map_id_update. reflexivity.
Qed.

Lemma fold_step_NoDup (events : list Event) (s : State) :
  NoDup (map id (tabs s)) ->
  NoDup (flat_map clock events) ->
  (forall x, In x (map id (tabs s)) -> ~ In x (flat_map clock events)) ->
  NoDup (map id (tabs (fold_left step events s))).
Proof.
  revert s. induction events as [|e events IH]; intros s Hs Hc Hfr;
    [exact Hs|].
  cbn [fold_left flat_map] in *.
  apply NoDup_app_remove_l in Hc as Hc'.
  destruct (step_ids s e) as [E|[[keep E]|[now [Hn E]]]].
  - apply IH; [rewrite E; exact Hs|exact Hc'|].
    intros x Hx K. rewrite E in Hx. apply (Hfr x Hx).
    apply in_app_iff. right. exact K.
  - apply IH; [rewrite E; apply NoDup_map_filter; exact Hs|exact Hc'|].
    intros x Hx K. rewrite E in Hx. apply (Hfr x).
    + apply in_map_iff in Hx. destruct Hx as [t [Et Ht]].
      apply in_map_iff. exists t. split; [exact Et|].
      apply filter_In in Ht. tauto.
    + apply in_app_iff. right. exact K.
  - apply IH; [rewrite E|exact Hc'|].
    + apply NoDup_snoc; [exact Hs|]. intros K. apply (Hfr now K).
      apply in_app_iff. left. exact Hn.
    + intros x Hx K. rewrite E in Hx. apply in_app_iff in Hx.
      destruct Hx as [Hx|[<-|[]]].
      * apply (Hfr x Hx). apply in_app_iff. right. exact K.
      * clear - Hc Hn K. induction (clock e) as [|c l IHl]; [destruct Hn|].
        cbn [app] in Hc. inversion Hc as [|? ? Hc1 Hc2]; subst.
        destruct Hn as [->|Hn].
        -- apply Hc1. apply in_app_iff. right. exact K.
        -- apply IHl; assumption.
Qed.

End TabsIds.

(** X18.  As long as the clock gives a new value each time it is read,
    the tabs have distinct identifiers, whatever happens to them. *)
Theorem tab_ids_distinct (events : list Tabs.Event) :
  NoDup (flat_map Tabs.clock events) ->
  NoDup (map Tabs.id (Tabs.tabs (Tabs.run events))).
Proof.
  intros H. apply fold_step_NoDup; [constructor|exact H|].
  intros x [].
Qed.

Lemma tab_ids_distinct_witness :
  NoDup (map Tabs.id
           (Tabs.tabs
              (Tabs.run [ Tabs.NewFile true (js "1") [];
                          Tabs.NewFile true (js "2") [] ]))).
Proof.
  apply (tab_ids_distinct [ Tabs.NewFile true (js "1") [];
                            Tabs.NewFile true (js "2") [] ]).
  cbn. repeat constructor; cbn; intuition discriminate.
Defined.

Lemma updateWhere_unknown (seen tabId : str) (update : Tabs.Tab -> Tabs.Tab)
    (s : Tabs.State) :
  ~ In tabId (map Tabs.id (Tabs.tabs s)) ->
  Tabs.updateWhere seen tabId update s = s.
Proof.
  intros H. destruct s as [l a c]. unfold Tabs.updateWhere.
  cbn [Tabs.tabs Tabs.activeTabId Tabs.tabChanges] in *.
  assert (map (fun tab => if Tabs.hasId tabId tab then update tab else tab) l
          = l /\
          flat_map (fun tab =>
                      if Tabs.hasId tabId tab && str_eqb tabId seen
                      then [update tab] else []) l = []) as [-> ->].
  { induction l as [|t l IH]; [split; reflexivity|].
    cbn [map flat_map In] in *.
    assert (Tabs.hasId tabId t = false) as ->
      by (apply hasId_false; intros K; apply H; left; exact K).
    destruct IH as [-> ->]; [tauto|]. split; reflexivity. }
  rewrite app_nil_r. reflexivity.
Qed.

(** X19.  An edit or a save that names a tab that is no longer there,
    for one closed in the meantime, changes nothing: no tab is made for
    it, none is touched, and no change of tab is announced. *)
Theorem update_of_closed_tab_changes_nothing (seen tabId text : str)
    (newPath : option str) (s : Tabs.State) :
  ~ In tabId (map Tabs.id (Tabs.tabs s)) ->
  Tabs.updateTabContent seen tabId text s = s /\
  Tabs.markTabSaved seen tabId newPath s = s.
Proof.
  intros H. split; apply updateWhere_unknown; exact H.
Qed.

Lemma update_of_closed_tab_witness :
  Tabs.updateTabContent (js "1") (js "2") (js "<p>x</p>")
    (Tabs.mkState [Tabs.mkTab (js "1") (js "a") None [] false] (js "1") [])
  = Tabs.mkState [Tabs.mkTab (js "1") (js "a") None [] false] (js "1") [] /\
  Tabs.markTabSaved (js "1") (js "2") (Some (js "/tmp/a.md"))
    (Tabs.mkState [Tabs.mkTab (js "1") (js "a") None [] false] (js "1") [])
  = Tabs.mkState [Tabs.mkTab (js "1") (js "a") None [] false] (js "1") [].
Proof.
  apply (update_of_closed_tab_changes_nothing (js "1") (js "2")
           (js "<p>x</p>") (Some (js "/tmp/a.md"))
           (Tabs.mkState [Tabs.mkTab (js "1") (js "a") None [] false]
              (js "1") [])).
  cbn. intuition discriminate.
Defined.

(** ** File names *)

Lemma splitWhere_not_nil (p : char -> bool) (s : str) : splitWhere p s <> [].
Proof.
  destruct s as [|c s]; cbn [splitWhere]; [discriminate|].
  destruct (p c); [discriminate|]. destruct (splitWhere p s); discriminate.
Qed.

Lemma last_cons_ne {X : Type} (x : X) (l : list X) (d : X) :
  l <> [] -> last (x :: l) d = last l d.
Proof. destruct l; [congruence|reflexivity]. Qed.

Lemma splitWhere_last_free (p : char -> bool) (s : str) :
  forallb (fun c => negb (p c)) (last (splitWhere p s) []) = true.
Proof.
  induction s as [|c s IH]; cbn [splitWhere]; [reflexivity|].
  pose proof (splitWhere_not_nil p s) as Hne.
  destruct (p c) eqn:E.
  - rewrite last_cons_ne by exact Hne. exact IH.
  - destruct (splitWhere p s) as [|piece pieces]; [congruence|].
    destruct pieces as [|q pieces].
    + cbn [last] in *. cbn [forallb]. rewrite E. exact IH.
    + change (last ((c :: piece) :: q :: pieces) [])
        with (last (q :: pieces) []).
      exact IH.
Qed.

Lemma splitWhere_free (p : char -> bool) (s : str) :
  forallb (fun c => negb (p c)) s = true -> splitWhere p s = [s].
Proof.
  induction s as [|c s IH]; cbn [splitWhere forallb]; [reflexivity|].
  intros H. apply andb_true_iff in H. destruct H as [H1 H2].
  apply negb_true_iff in H1. rewrite H1, IH by exact H2. reflexivity.
Qed.

Lemma splitWhere_last_app (p : char -> bool) (dir name : str) (sep : char) :
  p sep = true ->
  last (splitWhere p (dir ++ sep :: name)) [] = last (splitWhere p name) [].
Proof.
  intros Hs. induction dir as [|c dir IH]; cbn [app splitWhere].
  - rewrite Hs. apply last_cons_ne. apply splitWhere_not_nil.
  - pose proof (splitWhere_not_nil p (dir ++ sep :: name)) as Hne.
    destruct (p c).
    + rewrite last_cons_ne by exact Hne. exact IH.
    + destruct (splitWhere p (dir ++ sep :: name)) as [|piece pieces] eqn:E;
        [congruence|].
      destruct pieces as [|q pieces].
      * exfalso. clear IH Hne. revert piece E.
        induction dir as [|d dir IHd]; cbn [app splitWhere]; intros piece E.
        -- rewrite Hs in E. pose proof (splitWhere_not_nil p name).
           destruct (splitWhere p name); [congruence|discriminate].
        -- destruct (p d).
           ++ pose proof (splitWhere_not_nil p (dir ++ sep :: name)).
              destruct (splitWhere p (dir ++ sep :: name));
                [congruence|discriminate].
           ++ destruct (splitWhere p (dir ++ sep :: name))
                as [|piece' [|q' pieces']] eqn:E'.
              ** exact (splitWhere_not_nil p _ E').
              ** exact (IHd piece' eq_refl).
              ** discriminate.
      * change (last ((c :: piece) :: q :: pieces) [])
          with (last (piece :: q :: pieces) []).
        exact IH.
Qed.

(** X20.  The file name taken from a path is what follows its last
    slash or backslash, and the stand-in name when nothing follows it;
    a path without either is its own file name. *)
Theorem file_name_follows_last_separator (dir name : str) (sep : char) :
  isPathSeparator sep = true ->
  noSeparator name = true ->
  fileNameOf (dir ++ sep :: name) = orElse name unnamed /\
  fileNameOf name = orElse name unnamed.
Proof.
  intros Hs Hn. unfold fileNameOf.
  rewrite splitWhere_last_app by exact Hs.
  rewrite splitWhere_free by exact Hn. split; reflexivity.
Qed.

Lemma file_name_witness :
  fileNameOf (js "C:\docs" ++ 92%N :: js "notes.md")
    = orElse (js "notes.md") unnamed /\
  fileNameOf (js "notes.md") = orElse (js "notes.md") unnamed.
Proof.
  apply (file_name_follows_last_separator (js "C:\docs") (js "notes.md")
           92%N); reflexivity.
Defined.

(** X21.  The file name taken from a path never holds a slash or a
    backslash, and is never empty. *)
Theorem file_name_has_no_separator (filePath : option str) :
  noSeparator (extractFileName filePath) = true /\
  extractFileName filePath <> [].
Proof.
  assert (forall p, noSeparator (fileNameOf p) = true /\ fileNameOf p <> [])
    as H.
  { intros p. unfold fileNameOf.
    pose proof (splitWhere_last_free isPathSeparator p) as K.
    destruct (last (splitWhere isPathSeparator p) []) as [|c r];
      cbn [orElse]; split; try exact K; try discriminate; reflexivity. }
  destruct filePath as [[|c p]|]; cbn [extractFileName];
    try apply H; split; try discriminate; reflexivity.
Qed.

Lemma lastIndexOfChar_none (c : char) (s : str) :
  forallb (fun x => negb (char_eqb x c)) s = true ->
  lastIndexOfChar c s = (-1)%Z.
Proof.
  induction s as [|x s IH]; cbn [lastIndexOfChar forallb]; [reflexivity|].
  intros H. apply andb_true_iff in H. destruct H as [H1 H2].
  rewrite IH by exact H2. apply negb_true_iff in H1. rewrite H1.
  reflexivity.
Qed.

Lemma lastIndexOfChar_bound (c : char) (s : str) :
  (-1 <= lastIndexOfChar c s < Z.of_nat (length s))%Z.
Proof.
  induction s as [|x s IH]; cbn [lastIndexOfChar length]; [lia|].
  destruct (lastIndexOfChar c s =? -1)%Z eqn:E.
  - destruct (char_eqb x c); lia.
  - apply Z.eqb_neq in E. lia.
Qed.

Lemma lastIndexOfChar_last (c : char) (stem ext : str) :
  forallb (fun x => negb (char_eqb x c)) ext = true ->
  lastIndexOfChar c (stem ++ c :: ext) = Z.of_nat (length stem).
Proof.
  intros H. induction stem as [|x stem IH]; cbn [app lastIndexOfChar length].
  - rewrite lastIndexOfChar_none by exact H. cbn.
    unfold char_eqb. rewrite N.eqb_refl. reflexivity.
  - rewrite IH.
    destruct (Z.of_nat (length stem) =? -1)%Z eqn:E;
      [apply Z.eqb_eq in E; lia|lia].
Qed.

(** X22.  The extension of a file name starts at its last dot and runs
    to the end, the dot included; a name without a dot has the empty
    extension. *)
Theorem extension_starts_at_last_dot (stem ext : str) :
  forallb (fun x => negb (char_eqb x 46)) ext = true ->
  parseFileExtension (stem ++ 46%N :: ext) = 46%N :: ext /\
  parseFileExtension ext = [].
Proof.
  intros H. unfold parseFileExtension. split.
  - rewrite lastIndexOfChar_last by exact H.
    destruct (Z.of_nat (length stem) =? -1)%Z eqn:E;
      [apply Z.eqb_eq in E; lia|].
    cbn [negb]. unfold slice_from. rewrite Nat2Z.id.
    rewrite skipn_app, skipn_all, Nat.sub_diag. reflexivity.
  - rewrite lastIndexOfChar_none by exact H. reflexivity.
Qed.

Lemma extension_witness :
  parseFileExtension (js "archive.tar" ++ 46%N :: js "gz") = 46%N :: js "gz" /\
  parseFileExtension (js "gz") = [].
Proof.
  apply (extension_starts_at_last_dot (js "archive.tar") (js "gz")).
  reflexivity.
Defined.

(** ** The two serializers side by side *)

Lemma Node_induction (P : Dom.Node -> Prop) :
  (forall t, P (Text t)) ->
  (forall c, P (Comment c)) ->
  (forall tag attrs kids, Forall P kids -> P (Elem tag attrs kids)) ->
  forall n, P n.
Proof.
  intros HT HC HE. fix IH 1. intros [t|tag attrs kids|c];
    [apply HT| |apply HC].
  apply HE. induction kids as [|k kids IHk]; constructor;
    [apply IH|exact IHk].
Qed.

Lemma mapi_from_lines (f : nat -> str -> str) (i : nat) (l : list str) :
  mapi_from (fun idx x => f idx x ++ nl) i l =
  map (fun y => y ++ nl) (mapi_from f i l).
Proof.
  revert i. induction l as [|x l IH]; intros i; cbn [mapi_from map];
    [reflexivity|].
  rewrite IH. reflexivity.
Qed.

Lemma mapi_from_ext {X Y : Type} (f g : nat -> X -> Y) (i : nat)
    (l : list X) :
  (forall idx x, f idx x = g idx x) -> mapi_from f i l = mapi_from g i l.
Proof.
  intros H. revert i. induction l as [|x l IH]; intros i; cbn [mapi_from];
    [reflexivity|].
  rewrite H, IH. reflexivity.
Qed.

Lemma mapi_from_not_nil {X Y : Type} (f : nat -> X -> Y) (i : nat)
    (l : list X) :
  l <> [] -> mapi_from f i l <> [].
Proof. destruct l; [congruence|discriminate]. Qed.

Lemma emit_li (parentTag t : str) (attrs : list (str * str))
    (kids : list Dom.Node) :
  str_eqb t (js "li") = true ->
  emit parentTag (Elem t attrs kids) = trim (concat (map (emit t) kids)) /\
  processNode parentTag (Elem t attrs kids) =
    trim (concat (map (processNode t) kids)).
Proof.
  intros E. apply str_eqb_eq in E. subst t. split; reflexivity.
Qed.

Lemma alike_kids (parentTag tag : str) (attrs : list (str * str))
    (kids : list Dom.Node) :
  alike parentTag (Elem tag attrs kids) = true ->
  forallb (alike tag) kids = true.
Proof.
  cbn [alike]. intros H. apply andb_true_iff in H. apply H.
Qed.

Lemma alike_items (tag : str) (kids : list Dom.Node) :
  Forall (fun k => forall parentTag,
            alike parentTag k = true ->
            emit parentTag k = processNode parentTag k) kids ->
  forallb (alike tag) kids = true ->
  map (emit tag) kids = map (processNode tag) kids /\
  flat_map (fun li =>
      match li with
      | Elem t _ liKids =>
          if str_eqb t (js "li")
          then [trim (concat (map (emit t) liKids))] else []
      | _ => []
      end) kids =
  flat_map (fun li =>
      match li with
      | Elem t _ liKids =>
          if str_eqb t (js "li")
          then [trim (concat (map (processNode t) liKids))] else []
      | _ => []
      end) kids.
Proof.
  induction 1 as [|k kids Hk _ IH]; cbn [forallb map flat_map];
    [split; reflexivity|].
  intros H. apply andb_true_iff in H. destruct H as [H1 H2].
  destruct (IH H2) as [-> ->]. rewrite (Hk tag H1). split; [reflexivity|].
  f_equal. destruct k as [t|t attrs liKids|c]; try reflexivity.
  destruct (str_eqb t (js "li")) eqn:E; [|reflexivity].
  destruct (emit_li tag t attrs liKids E) as [<- <-].
  rewrite (Hk tag H1). reflexivity.
Qed.

Lemma items_not_nil (f : str -> list Dom.Node -> str)
    (kids : list Dom.Node) :
  existsb (isElement "li") kids = true ->
  flat_map (fun li =>
      match li with
      | Elem t _ liKids =>
          if str_eqb t (js "li") then [f t liKids] else []
      | _ => []
      end) kids <> [].
Proof.
  induction kids as [|k kids IH]; cbn [existsb flat_map]; [discriminate|].
  intros H. apply orb_true_iff in H. destruct H as [H|H].
  - destruct k as [t|t attrs liKids|c]; cbn [isElement] in H;
      try discriminate.
    rewrite H. discriminate.
  - intros K. apply app_eq_nil in K. destruct K as [_ K].
    exact (IH H K).
Qed.

Lemma emit_processNode_alike (node : Dom.Node) (parentTag : str) :
  alike parentTag node = true ->
  emit parentTag node = processNode parentTag node.
Proof.
  revert parentTag.
  induction node as [t|c|tag attrs kids IH] using Node_induction;
    intros parentTag Hal; try reflexivity.
  pose proof (alike_kids _ _ _ _ Hal) as Hkids.
  destruct (alike_items tag kids IH Hkids) as [Einner Eitems].
  cbn [alike] in Hal. rewrite Hkids in Hal. cbn [andb] in Hal.
  cbn [emit processNode]. rewrite Einner, Eitems.
  destruct (tagCase tag); try reflexivity; try discriminate.
  - apply negb_true_iff in Hal. rewrite Hal. reflexivity.
  - rewrite (concat_lines (fun line => js "> " ++ line))
      by apply split_not_nil.
    rewrite <- app_assoc. reflexivity.
  - rewrite (concat_lines (fun liContent => js "- " ++ liContent)).
    + rewrite <- app_assoc. reflexivity.
    + apply (items_not_nil (fun t liKids =>
               trim (concat (map (processNode t) liKids)))).
      exact Hal.
  - unfold mapi.
    rewrite (mapi_from_ext _
               (fun idx liContent =>
                  (decimal (idx + 1) ++ js ". " ++ liContent) ++ nl))
      by (intros idx x; rewrite <- !app_assoc; reflexivity).
    rewrite (mapi_from_lines
               (fun idx liContent =>
                  decimal (idx + 1) ++ js ". " ++ liContent)).
    rewrite (concat_lines (fun y => y)).
    + rewrite map_id, <- app_assoc. reflexivity.
    + apply mapi_from_not_nil.
      apply (items_not_nil (fun t liKids =>
               trim (concat (map (processNode t) liKids)))).
      exact Hal.
  - apply negb_true_iff in Hal. rewrite Hal. reflexivity.
Qed.

(** X23.  Outside code blocks, tables, lists without items and empty
    paragraphs, copying and saving write the same Markdown: for nodes
    that have none of these, themselves and below, what the copy handler
    puts on the clipboard for them is what the save handler writes to
    the file. *)
Theorem copy_and_save_agree (divChildNodes : list Dom.Node) :
  forallb (alike (js "div")) divChildNodes = true ->
  trim (domToMarkdown (Elem (js "div") [] divChildNodes)) =
  htmlToMarkdown divChildNodes.
Proof.
  intros H. unfold htmlToMarkdown, domToMarkdown.
  cbn [tagName childNodes]. f_equal. f_equal.
  induction divChildNodes as [|n l IH]; [reflexivity|].
  cbn [forallb] in H. apply andb_true_iff in H. destruct H as [H1 H2].
  cbn [map]. rewrite IH by exact H2.
  rewrite emit_processNode_alike by exact H1. reflexivity.
Qed.

Lemma copy_and_save_agree_witness :
  trim (domToMarkdown
          (Elem (js "div") []
             [ Elem (js "h1") [] [Text (js "Plan")];
               Elem (js "p") []
                 [ Text (js "Read ");
                   Elem (js "strong") [] [Text (js "this")];
                   Text (js " first") ];
               Elem (js "ol") []
                 [ Elem (js "li") [] [Elem (js "p") [] [Text (js "one")]];
                   Elem (js "li") [] [Elem (js "p") [] [Text (js "two")]] ];
               Elem (js "blockquote") []
                 [Elem (js "p") [] [Text (js "quoted")]] ])) =
  htmlToMarkdown
    [ Elem (js "h1") [] [Text (js "Plan")];
      Elem (js "p") []
        [ Text (js "Read ");
          Elem (js "strong") [] [Text (js "this")];
          Text (js " first") ];
      Elem (js "ol") []
        [ Elem (js "li") [] [Elem (js "p") [] [Text (js "one")]];
          Elem (js "li") [] [Elem (js "p") [] [Text (js "two")]] ];
      Elem (js "blockquote") []
        [Elem (js "p") [] [Text (js "quoted")]] ].
Proof.
  apply (copy_and_save_agree
    [ Elem (js "h1") [] [Text (js "Plan")];
      Elem (js "p") []
        [ Text (js "Read ");
          Elem (js "strong") [] [Text (js "this")];
          Text (js " first") ];
      Elem (js "ol") []
        [ Elem (js "li") [] [Elem (js "p") [] [Text (js "one")]];
          Elem (js "li") [] [Elem (js "p") [] [Text (js "two")]] ];
      Elem (js "blockquote") []
        [Elem (js "p") [] [Text (js "quoted")]] ]).
  vm_compute. reflexivity.
Defined.

(** ** No diagram is lost *)

Lemma subsequence_app_l {X : Type} (pre l m : list X) :
  subsequence l m -> subsequence l (pre ++ m).
Proof.
  intros H. induction pre as [|x pre IH]; [exact H|].
  cbn [app]. constructor. exact IH.
Qed.

Lemma convertFrom_subsequence (ext : External) (text : str) (n : nat)
    (blocks : list MermaidBlock) :
  forall (i : nat) (lastIndex : Z) (nodes : list PMNode),
    convertFrom ext text n i blocks lastIndex = Ok nodes ->
    subsequence (map mermaidNode blocks) nodes.
Proof.
  induction blocks as [|block blocks IH]; intros i lastIndex nodes H;
    cbn [convertFrom map] in *; [constructor|].
  destruct (if (startIndex block >? lastIndex)%Z
            then standardNodesIfNonBlank ext
                   (substring text lastIndex (startIndex block))
            else Ok []) as [before|e]; cbn [bind] in H; [|discriminate].
  destruct (createMermaidNode block) as [node|e] eqn:En;
    cbn [bind] in H; [|discriminate].
  apply createMermaidNode_Ok in En. destruct En as [-> _].
  destruct (convertFrom ext text n (S i) blocks (endIndex block))
    as [later|e] eqn:El; cbn [bind] in H; [|discriminate].
  injection H as <-. apply subsequence_app_l. cbn [app].
  apply subsequence_take. apply subsequence_app_l.
  apply (IH _ _ _ El).
Qed.

(** X24.  The converter loses no diagram: when it returns, the diagram
    nodes of the segments found in the text are among the nodes it
    returns, one for each segment and in the order of the segments,
    whatever the standard converter makes of the text between them. *)
Theorem converter_keeps_every_diagram (ext : External) (text : str)
    (nodes : list PMNode) :
  convertMarkdownToTipTapNodes ext text = Ok nodes ->
  subsequence (map mermaidNode (extractMermaidBlocks text)) nodes.
Proof.
  unfold convertMarkdownToTipTapNodes.
  destruct (extractMermaidBlocks text) as [|b blocks] eqn:E.
  - intros _. constructor.
  - cbn [length Nat.eqb]. apply convertFrom_subsequence.
Qed.

Lemma converter_keeps_every_diagram_witness :
  subsequence
    (map mermaidNode
       (extractMermaidBlocks
          (lines ["# Doc"; "```mermaid"; "pie"; "```"; "```mermaid";
                  "gantt"; "```"; "end"])))
    (match convertMarkdownToTipTapNodes toyExternal
             (lines ["# Doc"; "```mermaid"; "pie"; "```"; "```mermaid";
                     "gantt"; "```"; "end"])
     with
     | Ok nodes => nodes
     | Throw _ => []
     end).
Proof.
  apply (converter_keeps_every_diagram toyExternal
           (lines ["# Doc"; "```mermaid"; "pie"; "```"; "```mermaid";
                   "gantt"; "```"; "end"])).
  vm_compute. reflexivity.
Defined.

(** ** The scanner and [hasMermaidBlocks] side by side *)

Lemma mermaidFence_ends (w : str) :
  Matches mermaidFence w -> exists x, w = js "```mermaid" ++ x ++ fence.
Proof.
  unfold mermaidFence. cbn [seqs]. intros M.
  inversion M as [| |a1 b1 u1 v1 M1 N1| | | |]; subst.
  inversion N1 as [| |a2 b2 u2 v2 M2 N2| | | |]; subst.
  inversion N2 as [| |a3 b3 u3 v3 M3 N3| | | |]; subst.
  inversion N3 as [| |a4 b4 u4 v4 M4 N4| | | |]; subst.
  inversion N4 as [| |a5 b5 u5 v5 M5 N5| | | |]; subst.
  inversion N5 as [| |a6 b6 u6 v6 M6 N6| | | |]; subst.
  apply Matches_lit in M1. apply Matches_lit in N6. subst u1 v6.
  exists (u2 ++ u3 ++ u4 ++ u5 ++ u6).
  rewrite <- !app_assoc. reflexivity.
Qed.

Lemma ticks_app (u v : str) : ticks (u ++ v) = ticks u + ticks v.
Proof. apply count_occ_app. Qed.

Lemma ticks_noBacktick (s : str) : noBacktick s = true -> ticks s = 0.
Proof.
  unfold ticks. induction s as [|c s IH]; cbn [noBacktick forallb count_occ];
    [reflexivity|].
  intros H. apply andb_true_iff in H. destruct H as [H1 H2].
  apply negb_true_iff in H1. unfold char_eqb in H1.
  apply N.eqb_neq in H1.
  destruct (N.eq_dec c backtick) as [E|_]; [congruence|].
  apply IH. exact H2.
Qed.

Lemma mermaidFence_ticks (u w v : str) :
  Matches mermaidFence w -> 6 <= ticks (u ++ w ++ v).
Proof.
  intros M. apply mermaidFence_ends in M. destruct M as [x ->].
  rewrite !ticks_app.
  change (ticks (js "```mermaid")) with 3. change (ticks fence) with 3. lia.
Qed.

Lemma firstLine_tagged_is_tag (C : str) :
  isMermaidTag (js "mermaid" ++ nl ++ C) = true.
Proof.
  unfold isMermaidTag.
  rewrite firstLine_tagged; [reflexivity | discriminate | reflexivity..].
Qed.

(** X25.  The scanner and [hasMermaidBlocks] do not decide alike: a
    fence tagged [mermaid] that is never closed is a segment for the
    scanner, with the rest of the text as its content, while
    [hasMermaidBlocks], which asks for the closing fence, reports no
    diagram. *)
Theorem unclosed_fence_is_scanned_but_not_reported (C : str) :
  noBacktick C = true ->
  let text := fence ++ js "mermaid" ++ nl ++ C in
  (exists b, extractMermaidBlocks text = [b] /\ content b = trim C) /\
  hasMermaidBlocks text = false.
Proof.
  intros HC text. split.
  - pose proof (extract_contents text) as E. unfold text in E at 2.
    rewrite split_sep in E by exact fence_not_nil.
    rewrite split_free in E
      by (apply noBacktick_includes; rewrite !noBacktick_app, HC;
          reflexivity).
    cbn [tl filter] in E.
    rewrite (firstLine_tagged_is_tag C) in E. cbn [map] in E.
    rewrite mermaidContentOf_tagged in E by reflexivity.
    destruct (extractMermaidBlocks text) as [|b [|b' l]];
      try discriminate.
    exists b. split; [reflexivity|]. injection E as E. exact E.
  - destruct (hasMermaidBlocks text) eqn:H; [exfalso|reflexivity].
    assert (ticks text = 3) as T.
    { unfold text. rewrite !ticks_app, (ticks_noBacktick C HC).
      reflexivity. }
    unfold hasMermaidBlocks in H. apply orb_true_iff in H.
    destruct H as [H|H].
    + apply search_sound in H. destruct H as [u [w [v [E M]]]].
      cbn [body] in M.
      inversion M as [| |a b w1 w2 M1 M2| | | |]; subst.
      pose proof (mermaidFence_ticks u w1 (w2 ++ v) M1) as K.
      rewrite <- app_assoc in E. rewrite <- E in K. lia.
    + apply search_exact_sound in H. destruct H as [u [w [E M]]].
      pose proof (mermaidFence_ticks u w [] M) as K.
      rewrite app_nil_r, <- E in K. lia.
Qed.

Lemma unclosed_fence_witness :
  (exists b,
     extractMermaidBlocks (fence ++ js "mermaid" ++ nl ++ js "graph TD") = [b]
     /\ content b = trim (js "graph TD")) /\
  hasMermaidBlocks (fence ++ js "mermaid" ++ nl ++ js "graph TD") = false.
Proof.
  apply (unclosed_fence_is_scanned_but_not_reported (js "graph TD")).
  reflexivity.
Defined.
